(** * vscode-openjudge: session client and HTML extraction

    A shallow embedding of the cookie jar, the API client's session
    handling, the HTML extractor and the submission polling loop of the
    OpenJudge extension, with the properties its specification states.

    JavaScript strings are modelled as [string]: text outside ASCII is
    held as its UTF-8 bytes, which keeps equality, [split], [includes] and
    prefix tests exact on well-formed text; lengths and cuts are counted
    in code units ([JS.units], [JS.substring_to]). *)

From Stdlib Require Import Ascii String ZArith Lia.
From stdpp Require Import base option list strings gmap pretty.

Set Warnings "-register-all".
Open Scope string_scope.
Open Scope list_scope.

(** ** The JavaScript string primitives the sources call *)

Module JS.

Definition code (c : ascii) : N := N_of_ascii c.

(** [s.startsWith(p)] *)
Fixpoint startsWith (s p : string) {struct p} : bool :=
  match p, s with
  | "", _ => true
  | String a p', String b s' => if Ascii.eqb a b then startsWith s' p' else false
  | String _ _, "" => false
  end.

(** [s.includes(sub)] *)
Fixpoint includes (s sub : string) : bool :=
  startsWith s sub
  || match s with
     | "" => false
     | String _ s' => includes s' sub
     end.

(** [s.substring(n)] for [n] a literal: drop the first [n] code units. *)
Fixpoint substring_from (n : nat) (s : string) : string :=
  match n, s with
  | O, _ => s
  | S n', String _ s' => substring_from n' s'
  | S _, "" => ""
  end.

(** A byte that goes on a character begun before it. *)
Definition continues (c : ascii) : bool :=
  let n := code c in ((128 <=? n) && (n <? 192))%N.

(** A byte that starts a character of four bytes, which a JavaScript
    string holds as two code units. *)
Definition astral (c : ascii) : bool := (240 <=? code c)%N.


(** The first code unit of the character of four bytes that starts
    with [c] and goes on with the head of [r]: a high surrogate alone,
    held as the three bytes of its own code. *)
Definition high_surrogate (c : ascii) (r : string) : string :=
  match r with
  | String b1 (String b2 _) =>
      let h := ((code c mod 8) * 256 + (code b1 mod 64) * 4 + (code b2 mod 64) / 16 - 64)%N in
      String (ascii_of_N 237)
        (String (ascii_of_N (160 + (h / 64) mod 16))
           (String (ascii_of_N (128 + h mod 64)) ""))
  | _ => ""
  end.

(** [s.substring(0, n)]: the first [n] code units.  The bytes that go
    on a character stay with it; when the cut falls between the two
    code units of a character of four bytes, the first one is kept. *)
Fixpoint substring_to (n : nat) (s : string) : string :=
  match s with
  | "" => ""
  | String c r =>
      if continues c then String c (substring_to n r)
      else
        match n with
        | O => ""
        | S n' =>
            if astral c then
              match n' with
              | O => high_surrogate c r
              | S n'' => String c (substring_to n'' r)
              end
            else String c (substring_to n' r)
        end
  end.

(** The replacement character U+FFFD. *)
Definition replacement : string :=
  String (ascii_of_N 239) (String (ascii_of_N 191) (String (ascii_of_N 189) "")).

(** The decoder of UTF-8 between two characters, reading the byte [c]:
    what it gives out at once, and for a byte that starts a character
    of several bytes the bytes read so far, the number of bytes to come
    and the bounds of the next one. *)
Definition utf8_lead (c : ascii) : string * option (string * nat * N * N) :=
  let n := code c in
  if (n <? 128)%N then (String c "", None)
  else if ((194 <=? n) && (n <=? 223))%N then ("", Some (String c "", 1%nat, 128, 191)%N)
  else if ((224 <=? n) && (n <=? 239))%N then
    ("", Some (String c "", 2%nat,
               if (n =? 224)%N then 160%N else 128%N,
               if (n =? 237)%N then 159%N else 191%N))
  else if ((240 <=? n) && (n <=? 244))%N then
    ("", Some (String c "", 3%nat,
               if (n =? 240)%N then 144%N else 128%N,
               if (n =? 244)%N then 143%N else 191%N))
  else (replacement, None).

(** The decoder at work: a byte out of the bounds ends the character
    begun with one replacement character and is read again as the
    start of the next; so does the end of the bytes. *)
Fixpoint utf8_decode (st : option (string * nat * N * N)) (bytes : string) : string :=
  match bytes with
  | "" => match st with Some _ => replacement | None => "" end
  | String c r =>
      match st with
      | None => let '(out, st') := utf8_lead c in out +:+ utf8_decode st' r
      | Some (seen, need, lo, hi) =>
          if ((lo <=? code c) && (code c <=? hi))%N then
            match need with
            | S (S k) => utf8_decode (Some (seen +:+ String c "", S k, 128%N, 191%N)) r
            | _ => seen +:+ String c (utf8_decode None r)
            end
          else
            let '(out, st') := utf8_lead c in
            replacement +:+ out +:+ utf8_decode st' r
      end
  end.

(** [buffer.toString()]: the bytes read as UTF-8, every sequence that
    is not the code of a character giving a replacement character. *)
Definition toString (bytes : string) : string := utf8_decode None bytes.

(** [s.toLowerCase()]: the ASCII letters are folded, every other byte is
    kept.  The sources only test the folded text against the prefixes
    [path=] and [domain=], whose letters no character outside ASCII
    folds to, so those tests are exact. *)
Definition lower_char (c : ascii) : ascii :=
  let n := code c in
  if ((65 <=? n) && (n <=? 90))%N then ascii_of_N (n + 32) else c.

Fixpoint toLowerCase (s : string) : string :=
  match s with
  | "" => ""
  | String c s' => String (lower_char c) (toLowerCase s')
  end.

(** [s.split(sep)] for a one-character separator: never empty. *)
Fixpoint split_go (sep : ascii) (cur : string) (s : string) : list string :=
  match s with
  | "" => [String.rev cur]
  | String c s' =>
      if Ascii.eqb c sep then String.rev cur :: split_go sep "" s'
      else split_go sep (String c cur) s'
  end.

Definition split (sep : ascii) (s : string) : list string := split_go sep "" s.

(** [parts.join(sep)] *)
Definition join (sep : string) (l : list string) : string := String.concat sep l.

(** White space as [String.prototype.trim] sees it: the ASCII controls
    and space, and (in UTF-8) U+00A0, U+1680, U+2000..U+200A, U+2028,
    U+2029, U+202F, U+205F, U+3000 and U+FEFF. *)
Definition ws1 (a : N) : bool :=
  ((9 <=? a) && (a <=? 13) || (a =? 32))%N.

Definition ws2 (a b : N) : bool := ((a =? 194) && (b =? 160))%N.

Definition ws3 (a b c : N) : bool :=
  (((a =? 225) && (b =? 154) && (c =? 128))
   || ((a =? 226) && (b =? 128)
       && (((128 <=? c) && (c <=? 138)) || (c =? 168) || (c =? 169) || (c =? 175)))
   || ((a =? 226) && (b =? 129) && (c =? 159))
   || ((a =? 227) && (b =? 128) && (c =? 128))
   || ((a =? 239) && (b =? 187) && (c =? 191)))%N.

(** One white-space character at the head of [s]: what follows it. *)
Definition ws_head (s : string) : option string :=
  match s with
  | "" => None
  | String a r1 =>
      if ws1 (code a) then Some r1 else
      match r1 with
      | "" => None
      | String b r2 =>
          if ws2 (code a) (code b) then Some r2 else
          match r2 with
          | "" => None
          | String c r3 => if ws3 (code a) (code b) (code c) then Some r3 else None
          end
      end
  end.

(** The same on the reversed text, where the bytes of a character come
    last byte first. *)
Definition ws_last (s : string) : option string :=
  match s with
  | "" => None
  | String a r1 =>
      if ws1 (code a) then Some r1 else
      match r1 with
      | "" => None
      | String b r2 =>
          if ws2 (code b) (code a) then Some r2 else
          match r2 with
          | "" => None
          | String c r3 => if ws3 (code c) (code b) (code a) then Some r3 else None
          end
      end
  end.

Fixpoint strip (step : string -> option string) (fuel : nat) (s : string) : string :=
  match fuel with
  | O => s
  | S fuel' =>
      match step s with
      | Some r => strip step fuel' r
      | None => s
      end
  end.

Definition trimStart (s : string) : string := strip ws_head (String.length s) s.

Definition trimEnd (s : string) : string :=
  String.rev (strip ws_last (String.length s) (String.rev s)).

(** [s.trim()] *)
Definition trim (s : string) : string := trimEnd (trimStart s).

(** Truthiness of a string: [""] is falsy. *)
Definition truthy (s : string) : bool :=
  match s with "" => false | _ => true end.

(** [a || b] on strings that may be [undefined]. *)
Definition or_else (a b : option string) : option string :=
  match a with
  | Some s => if truthy s then a else b
  | None => b
  end.

(** An interpolated [${v}] of a value that may be [undefined]. *)
Definition show (v : option string) : string :=
  match v with Some s => s | None => "undefined" end.

(** Numbers as far as the sources make them: the results of
    [parseInt].  An integer up to 2^53 in size is held exactly by a
    double; beyond that the result is the double nearest to [z], which
    [Approx z] stands for.  The sign of a zero is not kept. *)
Inductive num := Int (z : Z) | Approx (z : Z) | NaN.

Definition digit (radix : N) (c : ascii) : option N :=
  let n := code c in
  let d := if ((48 <=? n) && (n <=? 57))%N then Some (n - 48)%N
           else if ((97 <=? n) && (n <=? 102))%N then Some (n - 87)%N
           else if ((65 <=? n) && (n <=? 70))%N then Some (n - 55)%N
           else None in
  match d with
  | Some v => if (v <? radix)%N then Some v else None
  | None => None
  end.

(** The digits at the head of [s], read in [radix]: their value and
    how many there were. *)
Fixpoint read_digits (radix : N) (acc : N) (count : nat) (s : string) : N * nat :=
  match s with
  | "" => (acc, count)
  | String c s' =>
      match digit radix c with
      | Some v => read_digits radix (acc * radix + v) (S count) s'
      | None => (acc, count)
      end
  end.

(** [parseInt(s)] *)
Definition parseInt (s : string) : num :=
  let s0 := trimStart s in
  let negative := startsWith s0 "-" in
  let s1 := if startsWith s0 "-" || startsWith s0 "+" then substring_from 1 s0 else s0 in
  let hex := startsWith s1 "0x" || startsWith s1 "0X" in
  let s2 := if hex then substring_from 2 s1 else s1 in
  let '(v, count) := read_digits (if hex then 16 else 10) 0 O s2 in
  match count with
  | O => NaN
  | S _ =>
      let z := if negative then (- Z.of_N v)%Z else Z.of_N v in
      if (v <=? 2 ^ 53)%N then Int z else Approx z
  end.

Definition is_digit (c : ascii) : bool :=
  let n := code c in ((48 <=? n) && (n <=? 57))%N.

(** The longest run of decimal digits at the head of [s], and the rest. *)
Fixpoint span_digits (s : string) : string * string :=
  match s with
  | "" => ("", "")
  | String c s' =>
      if is_digit c then let '(ds, r) := span_digits s' in (String c ds, r)
      else ("", s)
  end.

(** [s.replace(/^\d+:/, '')] *)
Definition drop_number_prefix (s : string) : string :=
  let '(ds, r) := span_digits s in
  match ds, r with
  | String _ _, String ":" r' => r'
  | _, _ => s
  end.

(** [s.replace(':', '')]: the first colon goes. *)
Fixpoint drop_first_colon (s : string) : string :=
  match s with
  | "" => ""
  | String c s' => if Ascii.eqb c ":" then s' else String c (drop_first_colon s')
  end.

(** The words of [s] between white space, as the [\s] of a regular
    expression cuts them. *)
Fixpoint tokens_go (fuel : nat) (cur : string) (s : string) : list string :=
  match fuel with
  | O => [String.rev cur]
  | S fuel' =>
      match ws_head s with
      | Some r => String.rev cur :: tokens_go fuel' "" r
      | None =>
          match s with
          | "" => [String.rev cur]
          | String c s' => tokens_go fuel' (String c cur) s'
          end
      end
  end.

Definition tokens (s : string) : list string :=
  tokens_go (S (String.length s)) "" s.

End JS.

(** ** CookieJar (the cookie store of the API client) *)

Module CookieJar.

Record cookie := Cookie {
  value : option string;   (* [undefined] when the header had no [=] *)
  domain : string;
  path : string
}.

(** A JavaScript [Map]: entries in insertion order, one per key. *)
Definition jar := list (string * cookie).

Definition keys (j : jar) : list string := j.*1.

(** [Map.prototype.set]: an existing key keeps its place. *)
Fixpoint map_set (j : jar) (k : string) (c : cookie) : jar :=
  match j with
  | [] => [(k, c)]
  | (k', c') :: rest =>
      if String.eqb k' k then (k, c) :: rest else (k', c') :: map_set rest k c
  end.

(** [Map.prototype.get] *)
Fixpoint map_get (j : jar) (k : string) : option cookie :=
  match j with
  | [] => None
  | (k', c') :: rest => if String.eqb k' k then Some c' else map_get rest k
  end.

(** [new Map(entries)] *)
Definition map_of (data : list (string * cookie)) : jar :=
  fold_left (fun m e => map_set m e.1 e.2) data [].

(** The attribute scan of [setCookie]: the loop over [parts.slice(1)]. *)
Inductive attr := APath (v : string) | ADomain (v : string) | AOther.

Definition classify (part : string) : attr :=
  if JS.startsWith (JS.toLowerCase part) "path=" then APath (JS.substring_from 5 part)
  else if JS.startsWith (JS.toLowerCase part) "domain=" then ADomain (JS.substring_from 7 part)
  else AOther.

Definition scan_step (st : string * string) (part : string) : string * string :=
  match classify part with
  | APath v => (v, st.2)
  | ADomain v => (st.1, v)
  | AOther => st
  end.

(** [scan parts dom] is [(cookiePath, cookieDomain)] after the loop. *)
Definition scan (rest : list string) (dom : string) : string * string :=
  fold_left scan_step rest ("/", dom).

(** The ;-separated, trimmed parts of one header. *)
Definition parts_of (header : string) : list string :=
  JS.trim <$> JS.split ";" header.

(** The body of the [for (const header of headers)] loop. *)
Definition setCookie1 (j : jar) (dom : string) (header : string) : jar :=
  let parts := parts_of header in
  let nameValue := hd "" parts in
  let nv := JS.split "=" nameValue in
  let name := hd "" nv in
  let value := nv !! 1%nat in
  let '(cookiePath, cookieDomain) := scan (tl parts) dom in
  map_set j name (Cookie value cookieDomain cookiePath).

(** [setCookie(setCookieHeader, domain)], a lone string being wrapped
    into a one-element array by the caller of this model. *)
Definition setCookie (j : jar) (headers : list string) (dom : string) : jar :=
  fold_left (fun m h => setCookie1 m dom h) headers j.

(** [getCookieHeader(domain)] *)
Definition relevant (dom : string) (e : string * cookie) : bool :=
  JS.includes dom (domain e.2) || JS.includes (domain e.2) dom.

Definition render (e : string * cookie) : string :=
  e.1 +:+ "=" +:+ JS.show (value e.2).

Definition getCookieHeader (j : jar) (dom : string) : string :=
  JS.join "; " (render <$> filter (fun e => relevant dom e = true) j).

(** [set(name, value, domain = "openjudge.cn", path = "/")] *)
Definition set (j : jar) (name v : string) (dom pth : option string) : jar :=
  map_set j name (Cookie (Some v) (default "openjudge.cn" dom) (default "/" pth)).

(** [get(name)] *)
Definition get (j : jar) (name : string) : option string :=
  map_get j name ≫= value.

(** [clear()] *)
Definition clear (j : jar) : jar := [].

(** [export()] and [import(data)] *)
Definition export (j : jar) : list (string * cookie) := j.

Definition import (j : jar) (data : list (string * cookie)) : jar := map_of data.

(** The invariant of a [Map]: no key twice. *)
Definition wf (j : jar) : Prop := NoDup (keys j).

End CookieJar.

(** ** The parsed document and the queries made on it

    [cheerio.load(html)] is the library's HTML parser; its result, the
    element tree, is where the model starts.  Comment nodes take part in
    none of the queries and are left out. *)

Module Dom.

Inductive node :=
| Text (s : string)
| Elem (tag : string) (attrs : list (string * string)) (kids : list node).

(** An element in its place: the ancestors below the root of the
    traversal (nearest first, that root last), the siblings after it,
    and the child indices leading to it. *)
Record loc := Loc {
  anc : list node;
  self : node;
  after : list node;
  route : list nat
}.

(** The elements below [n], in document order. *)
Fixpoint below (up : list node) (rt : list nat) (n : node) : list loc :=
  match n with
  | Text _ => []
  | Elem _ _ ks =>
      (fix go (i : nat) (ks : list node) : list loc :=
         match ks with
         | [] => []
         | k :: rest =>
             match k with
             | Text _ => go (S i) rest
             | Elem _ _ _ =>
                 Loc (n :: up) k rest (rt ++ [i])
                 :: below (n :: up) (rt ++ [i]) k ++ go (S i) rest
             end
         end) O ks
  end.

(** A document is the list of its top-level nodes. *)
Definition document := list node.

Definition root (d : document) : node := Elem "" [] d.

(** Every element of the document, in document order. *)
Definition elements (d : document) : list loc := below [] [] (root d).

(** [text()] of one node and of a set. *)
Fixpoint text (n : node) : string :=
  match n with
  | Text s => s
  | Elem _ _ ks =>
      (fix go (ks : list node) : string :=
         match ks with
         | [] => ""
         | k :: rest => text k +:+ go rest
         end) ks
  end.

Definition text_of (set : list loc) : string :=
  foldr (fun l acc => text (self l) +:+ acc) "" set.

Definition tag_of (n : node) : string :=
  match n with Text _ => "" | Elem t _ _ => t end.

Definition kids_of (n : node) : list node :=
  match n with Text _ => [] | Elem _ _ ks => ks end.

Fixpoint assoc (k : string) (l : list (string * string)) : option string :=
  match l with
  | [] => None
  | (k', v) :: rest => if String.eqb k' k then Some v else assoc k rest
  end.

(** [attr(name)] of one node. *)
Definition attr (name : string) (n : node) : option string :=
  match n with Text _ => None | Elem _ as_ _ => assoc name as_ end.

Definition is_tag (t : string) (n : node) : bool := String.eqb (tag_of n) t.

(** [.c]: the class attribute, cut at white space, holds [c]. *)
Definition has_class (c : string) (n : node) : bool :=
  match attr "class" n with
  | Some v => bool_decide (c ∈ JS.tokens v)
  | None => false
  end.

(** [#i] and [[name="v"]] *)
Definition has_attr (name v : string) (n : node) : bool :=
  match attr name n with Some w => String.eqb w v | None => false end.

(** Descendant combinators: [ps] lists the tests of the ancestors,
    nearest first; each is met by some ancestor above the previous. *)
Fixpoint chain (ps : list (node -> bool)) (up : list node) : bool :=
  match ps with
  | [] => true
  | p :: ps' =>
      (fix find (up : list node) : bool :=
         match up with
         | [] => false
         | a :: up' => if p a then chain ps' up' else find up'
         end) up
  end.

(** [l] meets the selector [.. q2 q1 p]. *)
Definition meets (p : node -> bool) (ps : list (node -> bool)) (l : loc) : bool :=
  p (self l) && chain ps (anc l).

(** [$(sel)] on the document: the elements that meet [m], in document
    order; a selector list is the disjunction of its members. *)
Definition select_by (d : document) (m : loc -> bool) : list loc :=
  filter (fun l => m l = true) (elements d).

Definition select (d : document) (p : node -> bool) (ps : list (node -> bool)) : list loc :=
  select_by d (meets p ps).

(** [$x.find(sel)] from one element: the ancestors named in [sel] lie
    strictly below [x]. *)
Definition find1 (x : loc) (p : node -> bool) (ps : list (node -> bool)) : list loc :=
  filter (fun l => p (self l) && chain ps (removelast (anc l)) = true)
         (below [] (route x) (self x)).

(** [$set.find(sel)]: each element found once, in document order. *)
Definition inside (r : list nat) (x : loc) : bool :=
  bool_decide (r `prefix_of` route x).

Fixpoint find_go (tops : list (list nat)) (set : list loc)
    (p : node -> bool) (ps : list (node -> bool)) : list loc :=
  match set with
  | [] => []
  | x :: rest =>
      if existsb (fun r => inside r x) tops then find_go tops rest p ps
      else find1 x p ps ++ find_go (route x :: tops) rest p ps
  end.

Definition find (set : list loc) (p : node -> bool) (ps : list (node -> bool)) : list loc :=
  find_go [] set p ps.

(** [.first()], [.eq(i)], [.parent()], [.next(sel)], [.val()] *)
Definition first (set : list loc) : list loc := take 1 set.

Definition eq_ (i : nat) (set : list loc) : list loc := option_list (set !! i).

Definition parent_text (set : list loc) : string :=
  foldr (fun l acc => match anc l with
                      | [] => acc
                      | up :: _ => text up +:+ acc
                      end) "" set.

(** The next sibling element: how many text nodes it skips, the
    element, and the siblings after it. *)
Fixpoint next_elem (skipped : nat) (sibs : list node) : option (nat * node * list node) :=
  match sibs with
  | [] => None
  | Text _ :: rest => next_elem (S skipped) rest
  | e :: rest => Some (skipped, e, rest)
  end.

Definition next (x : loc) (p : node -> bool) : list loc :=
  match next_elem O (after x) with
  | Some (skipped, e, rest) =>
      if p e then
        [Loc (anc x) e rest
             (removelast (route x) ++ [S (List.last (route x) O + skipped)])]
      else []
  | None => []
  end.

(** [.attr(name)] and [.html()] of a set read its first element;
    [serialize] is the library's rendering of child nodes as markup. *)
Definition attr_of (name : string) (set : list loc) : option string :=
  match set with
  | [] => None
  | x :: _ => attr name (self x)
  end.

Definition html_of (serialize : list node -> string) (set : list loc) : option string :=
  match set with
  | [] => None
  | x :: _ => Some (serialize (kids_of (self x)))
  end.

Definition val (set : list loc) : option string :=
  match set with
  | [] => None
  | x :: _ =>
      if is_tag "input" (self x) || is_tag "option" (self x) then attr "value" (self x)
      else None
  end.

End Dom.

(** ** HtmlParser (the extractor) *)

Module Practice.
Inductive kind := practice | contest.
Record t := Make {
  id : string;
  name : string;
  groupSubdomain : string;
  problemCount : JS.num;
  url : string;
  type : kind
}.
End Practice.

Module Problem.
Record t := Make {
  id : string;
  title : string;
  practiceId : string;
  groupSubdomain : string;
  acceptanceRate : option string;
  passedCount : option JS.num;
  attemptCount : option JS.num;
  url : string;
  contestId : option string
}.
End Problem.

Module ProblemDetail.
Record t := Make {
  id : string;
  title : string;
  timeLimit : string;
  memoryLimit : string;
  description : string;
  input : string;
  output : string;
  sampleInput : string;
  sampleOutput : string;
  hint : option string;
  source : option string;
  globalId : string
}.
End ProblemDetail.

Module HtmlParser.
Import Dom.

(** [href.match(/\/([^/]+)\/$/)]: the text between the last two
    slashes of an [href] that ends in a slash, when it is not empty. *)
Definition href_match (href : string) : option string :=
  match rev (JS.split "/" href) with
  | "" :: seg :: _ :: _ => if JS.truthy seg then Some seg else None
  | _ => None
  end.

(** [text.match(/\((\d+)\u9898\)/)]: the digits of the leftmost
    place where an opening bracket, digits, the character U+9898 and a
    closing bracket follow one another. *)
Definition count_at (s : string) : option string :=
  match s with
  | "" => None
  | String c r =>
      if Ascii.eqb c "(" then
        let '(ds, r') := JS.span_digits r in
        if JS.truthy ds && JS.startsWith r' "题)" then Some ds else None
      else None
  end.

Fixpoint count_match (s : string) : option string :=
  match count_at s with
  | Some ds => Some ds
  | None =>
      match s with
      | "" => None
      | String _ s' => count_match s'
      end
  end.

Definition li_of (cls : string) (n : node) : bool :=
  is_tag "li" n && has_class cls n.

(** The body of the callbacks of [parsePracticeList]: the record of
    one list item, or none when its link does not name an id. *)
Definition item (subdomain : string) (k : Practice.kind) (elem : loc) : option Practice.t :=
  let link := first (find [elem] (is_tag "a") [is_tag "h3"]) in
  let href := attr_of "href" link in
  let name := JS.trim (text_of link) in
  match href ≫= href_match with
  | Some practiceId =>
      let problemCountText := parent_text link in
      let problemCount :=
        match count_match problemCountText with
        | Some ds => JS.parseInt ds
        | None => JS.Int 0
        end in
      Some (Practice.Make practiceId name subdomain problemCount
              ("http://" +:+ subdomain +:+ ".openjudge.cn/" +:+ practiceId +:+ "/") k)
  | None => None
  end.

(** [$(sel).each(...)] with a callback that pushes at most one record. *)
Definition each_push {A B : Type} (f : A -> option B) (set : list A) (acc : list B) : list B :=
  fold_left (fun (acc : list B) x => match f x with Some y => acc ++ [y] | None => acc end)
            set acc.

Definition parsePracticeList (d : document) (subdomain : string) : list Practice.t :=
  let practices := [] in
  let practices :=
    each_push (item subdomain Practice.practice)
              (select d (li_of "practice-info") []) practices in
  let practices :=
    each_push (item subdomain Practice.contest)
              (select d (li_of "contest-info") []) practices in
  practices.

(** [$('input[name="contestId"]').val()] *)
Definition contestId_of (d : document) : option string :=
  val (select d (fun n => is_tag "input" n && has_attr "name" "contestId" n) []).

Definition extractContestId (d : document) : option string := contestId_of d.

(** [$('table tbody tr')] *)
Definition rows (d : document) : list loc :=
  select d (is_tag "tr") [is_tag "tbody"; is_tag "table"].

Definition td_of (cls : string) (n : node) : bool :=
  is_tag "td" n && has_class cls n.

Definition anchor_text (set : list loc) : string :=
  JS.trim (text_of (find set (is_tag "a") [])).

Definition problem_url (subdomain practiceId problemId : string) : string :=
  "http://" +:+ subdomain +:+ ".openjudge.cn/" +:+ practiceId +:+ "/" +:+ problemId +:+ "/".

(** Does the row carry the marked cells of the first layout? *)
Definition is_primary (row : loc) : bool :=
  (0 <? length (find [row] (td_of "problem-id") []))%nat
  && (0 <? length (find [row] (td_of "title") []))%nat.

(** The record the first layout reads from a row it recognises. *)
Definition primary_problem (practiceId subdomain : string) (contestId : option string)
    (row : loc) : option Problem.t :=
  let problemId := anchor_text (find [row] (td_of "problem-id") []) in
  let problemTitle := anchor_text (find [row] (td_of "title") []) in
  let submissionsCell := find [row] (td_of "submissions") [] in
  let attemptCount :=
    if (0 <? length submissionsCell)%nat
    then Some (JS.parseInt (anchor_text submissionsCell)) else None in
  if JS.truthy problemId && JS.truthy problemTitle then
    Some (Problem.Make problemId problemTitle practiceId subdomain None None
            attemptCount (problem_url subdomain practiceId problemId) contestId)
  else None.

(** One turn of the first loop: [(problems, foundProblems)]. *)
Definition primary_step (practiceId subdomain : string) (contestId : option string)
    (st : list Problem.t * bool) (row : loc) : list Problem.t * bool :=
  if is_primary row then
    (match primary_problem practiceId subdomain contestId row with
     | Some p => st.1 ++ [p]
     | None => st.1
     end, true)
  else st.

(** The record the second layout reads from the cells of a row. *)
Definition generic_problem (practiceId subdomain : string) (contestId : option string)
    (row : loc) : option Problem.t :=
  let cells := find [row] (is_tag "td") [] in
  if (2 <=? length cells)%nat then
    let problemId := anchor_text (eq_ 0 cells) in
    let problemTitle := anchor_text (eq_ 1 cells) in
    let acceptanceRate :=
      if (2 <? length cells)%nat then Some (anchor_text (eq_ 2 cells)) else None in
    let passedCount :=
      if (3 <? length cells)%nat then Some (JS.parseInt (anchor_text (eq_ 3 cells))) else None in
    let attemptCount :=
      if (4 <? length cells)%nat then Some (JS.parseInt (anchor_text (eq_ 4 cells))) else None in
    if JS.truthy problemId && JS.truthy problemTitle then
      Some (Problem.Make problemId problemTitle practiceId subdomain acceptanceRate
              passedCount attemptCount (problem_url subdomain practiceId problemId) contestId)
    else None
  else None.

Definition parseProblemList (d : document) (practiceId subdomain : string) : list Problem.t :=
  let contestId := contestId_of d in
  let '(problems, foundProblems) :=
    fold_left (primary_step practiceId subdomain contestId) (rows d) ([], false) in
  if negb foundProblems then
    each_push (generic_problem practiceId subdomain contestId) (rows d) problems
  else problems.

(** [a || d] for a value that may be [undefined] and a string default. *)
Definition or_str (a : option string) (d : string) : string :=
  match a with
  | Some s => if JS.truthy s then s else d
  | None => d
  end.

Definition dl_of (cls : string) (n : node) : bool :=
  is_tag "dl" n && has_class cls n.

(** The [params] object of [parseProblemDetail]. *)
Definition params_of (d : document) : gmap string string :=
  fold_left
    (fun m dt =>
       let key := JS.drop_first_colon (JS.trim (text (self dt))) in
       let value := JS.trim (text_of (next dt (is_tag "dd"))) in
       <[key := value]> m)
    (select d (is_tag "dt") [dl_of "problem-params"]) ∅.

Section Markup.

(** The library's serialiser of child nodes, behind [.html()]. *)
Variable serialize : list node -> string.

(** The value kept for one [dt] of the content list. *)
Definition content_value (dt : loc) : string :=
  let dd := next dt (is_tag "dd") in
  let pre := find dd (is_tag "pre") [] in
  if (0 <? length pre)%nat then or_str (html_of serialize pre) (text_of pre)
  else or_str (html_of serialize dd) (text_of dd).

(** The [content] object of [parseProblemDetail]. *)
Definition content_of (d : document) : gmap string string :=
  fold_left
    (fun m dt => <[JS.trim (text (self dt)) := content_value dt]> m)
    (select d (is_tag "dt") [dl_of "problem-content"]) ∅.

Definition parseProblemDetail (d : document) (problemId : string) : ProblemDetail.t :=
  let title :=
    JS.trim (JS.drop_number_prefix
               (text_of (select d (is_tag "h2") [has_attr "id" "pageTitle"]))) in
  let params := params_of d in
  let content := content_of d in
  let globalId :=
    JS.trim (text_of (first (select d (is_tag "dd")
                               [is_tag "dl"; has_class "problem-statistics"]))) in
  {| ProblemDetail.id := problemId;
     ProblemDetail.title := title;
     ProblemDetail.timeLimit :=
       or_str (JS.or_else (params !! "总时间限制") (params !! "Time Limit")) "N/A";
     ProblemDetail.memoryLimit :=
       or_str (JS.or_else (params !! "内存限制") (params !! "Memory Limit")) "N/A";
     ProblemDetail.description :=
       or_str (JS.or_else (content !! "描述") (content !! "Description")) "";
     ProblemDetail.input :=
       or_str (JS.or_else (content !! "输入") (content !! "Input")) "";
     ProblemDetail.output :=
       or_str (JS.or_else (content !! "输出") (content !! "Output")) "";
     ProblemDetail.sampleInput :=
       or_str (JS.or_else (content !! "样例输入") (content !! "Sample Input")) "";
     ProblemDetail.sampleOutput :=
       or_str (JS.or_else (content !! "样例输出") (content !! "Sample Output")) "";
     ProblemDetail.hint := JS.or_else (content !! "提示") (content !! "Hint");
     ProblemDetail.source := JS.or_else (content !! "来源") (content !! "Source");
     ProblemDetail.globalId := globalId |}.

End Markup.

(** The [status] field of [parseSubmissionStatus], the one the polling
    loop reads. *)
Definition status_of (d : document) : string :=
  JS.trim (text_of (select_by d (fun l =>
    meets (is_tag "a") [has_class "compile-status"] l
    || meets (fun n => is_tag "span" n && has_class "result-right" n)
             [has_class "compile-status"] l
    || meets (fun n => is_tag "span" n && has_class "result-wrong" n)
             [has_class "compile-status"] l))).

End HtmlParser.

(** ** OpenJudgeApiClient: session, persisted state and requests *)

Module ApiClient.
Import CookieJar.

Record CookieSession := Session {
  PHPSESSID : string;
  language : string
}.

(** What the extension keeps in [context.globalState]. *)
Inductive stored :=
| StoredSession (s : CookieSession)
| StoredJar (data : list (string * cookie))
| StoredCredentials (email password : string).

Record client := Client {
  session : option CookieSession;
  cookieJar : jar;
  globalState : gmap string stored
}.

(** [globalState.update(key, value)]; [undefined] removes the key. *)
Definition update (key : string) (v : option stored) (c : client) : client :=
  Client (session c) (cookieJar c)
    (match v with
     | Some x => <[key := x]> (globalState c)
     | None => delete key (globalState c)
     end).

(** How an awaited call ends. *)
Inductive outcome (A : Type) :=
| Returned (a : A)
| Thrown (message : string).
Arguments Returned {A} a.
Arguments Thrown {A} message.

(** A header value as the HTTP library hands it over. *)
Inductive header := Single (v : string) | Many (vs : list string).

Definition header_truthy (h : header) : bool :=
  match h with Single v => JS.truthy v | Many _ => true end.

Definition header_list (h : header) : list string :=
  match h with Single v => [v] | Many vs => vs end.

Record response := Response {
  statusCode : nat;
  headers : gmap string header;
  chunks : list string
}.

Record result := Result {
  body : string;
  result_headers : gmap string header;
  result_statusCode : nat
}.

Definition baseUrl : string := "http://openjudge.cn".

Section Transport.

(** [zlib]'s gunzip stream run over the whole compressed body: the
    bytes it gives, or the error it ends with. *)
Variable gunzip : string -> outcome string.

(** Reading the body: when the response says [gzip] or [deflate], the
    chunks put together, run through gunzip and read as text; else the
    chunks one after another, each read as text on its own. *)
Definition read_body (r : response) : outcome string :=
  match headers r !! "content-encoding" with
  | Some (Single "gzip") | Some (Single "deflate") =>
      match gunzip (foldr String.append "" (chunks r)) with
      | Returned decompressed => Returned (JS.toString decompressed)
      | Thrown m => Thrown m
      end
  | _ => Returned (fold_left (fun body chunk => body +:+ JS.toString chunk) (chunks r) "")
  end.

(** [makeRequest(url, options)] once the transport has answered
    [reply] for the host [host] of [url]. *)
Definition makeRequest (host : string) (reply : outcome response) (c : client)
    : outcome result * client :=
  match reply with
  | Thrown m => (Thrown m, c)
  | Returned r =>
      let c1 :=
        match headers r !! "set-cookie" with
        | Some h =>
            if header_truthy h then
              let j := setCookie (cookieJar c) (header_list h) host in
              update "openjudge.cookieJar" (Some (StoredJar (export j)))
                     (Client (session c) j (globalState c))
            else c
        | None => c
        end in
      match read_body r with
      | Thrown m => (Thrown m, c1)
      | Returned body =>
          if (400 <=? statusCode r)%nat then
            (Thrown ("HTTP " +:+ pretty (statusCode r) +:+ ": " +:+ JS.substring_to 200 body), c1)
          else (Returned (Result body (headers r) (statusCode r)), c1)
      end
  end.

Inductive verdict := SUCCESS | ERROR.

Record AuthResponse := Auth {
  auth_result : verdict;
  message : string;
  hint : option string
}.

(** What the user and the settings give to [loginWithCookie]. *)
Record dialog := Dialog {
  proceed : option string;             (* the button of the information message *)
  cookieString : option string;        (* the text of the input box *)
  configuredLanguage : option string;  (* the setting [interfaceLanguage] *)
  verification : outcome response      (* the answer to the test request *)
}.

(** The [validateInput] of the input box: [None] lets the text through. *)
Definition validateInput (v : string) : option string :=
  if negb (JS.truthy v) || (String.length (JS.trim v) =? 0)%nat then Some "Cookie 不能为空"
  else if negb (JS.includes v "PHPSESSID") then Some "Cookie 中必须包含 PHPSESSID"
  else None.

(** One turn of the loop over the pairs: [(phpSessId, languageValue)]. *)
Definition pair_step (st : string * string) (cookie : string) : string * string :=
  let pieces := JS.split "=" cookie in
  let name := hd "" pieces in
  let value := JS.join "=" (tl pieces) in
  if String.eqb (JS.trim name) "PHPSESSID" then (JS.trim value, st.2)
  else if String.eqb (JS.trim name) "language" then (st.1, JS.trim value)
  else st.

Definition parse_cookies (cookieString : string) : string * string :=
  fold_left pair_step (JS.trim <$> JS.split ";" cookieString) ("", "zh_CN").

(** [loginWithCookie()] *)
Definition loginWithCookie (dlg : dialog) (c : client) : AuthResponse * client :=
  if negb (bool_decide (proceed dlg = Some "继续")) then
    (Auth ERROR "用户取消登录" None, c)
  else
    match cookieString dlg with
    | None => (Auth ERROR "未输入 Cookie" None, c)
    | Some "" => (Auth ERROR "未输入 Cookie" None, c)
    | Some text =>
        let '(phpSessId, parsedLanguage) := parse_cookies text in
        if negb (JS.truthy phpSessId) then
          (Auth ERROR "Cookie 中未找到 PHPSESSID" None, c)
        else
          let languageValue :=
            match configuredLanguage dlg with
            | Some l => if JS.truthy l then l else parsedLanguage
            | None => parsedLanguage
            end in
          let s := Session phpSessId languageValue in
          let j := clear (cookieJar c) in
          let j := set j "PHPSESSID" phpSessId (Some "openjudge.cn") None in
          let j := set j "language" languageValue (Some "openjudge.cn") None in
          let c := Client (Some s) j (globalState c) in
          let c := update "openjudge.session" (Some (StoredSession s)) c in
          let c := update "openjudge.cookieJar" (Some (StoredJar (export j))) c in
          match makeRequest "openjudge.cn" (verification dlg) c with
          | (Returned r, c) =>
              if (result_statusCode r =? 200)%nat then
                (Auth SUCCESS "登录成功" (Some "Cookie 已保存并验证"), c)
              else
                (Auth SUCCESS "登录成功" (Some "Cookie 已保存（验证状态未知）"), c)
          | (Thrown _, c) =>
              (Auth SUCCESS "登录成功" (Some "Cookie 已保存（未验证）"), c)
          end
    end.

End Transport.

(** [clearSession()] *)
Definition clearSession (c : client) : outcome unit * client :=
  let c := Client None (clear (cookieJar c)) (globalState c) in
  let c := update "openjudge.session" None c in
  let c := update "openjudge.cookieJar" None c in
  let c := update "openjudge.credentials" None c in
  (Returned (), c).

(** [isLoggedIn()] *)
Definition isLoggedIn (c : client) : bool :=
  match session c with Some _ => true | None => false end.

End ApiClient.

(** ** SubmissionService: the polling of a submission's status *)

Module SubmissionService.
Import Dom.

(** The answer to one [fetchHtml(redirectUrl)]. *)
Inductive fetch := Fetched (page : document) | Failed (message : string).

Definition maxAttempts : nat := 30.

Definition finalStatuses : list string :=
  ["Accepted"; "Wrong Answer"; "Time Limit Exceeded"; "Memory Limit Exceeded";
   "Runtime Error"; "Compile Error"; "Presentation Error"].

(** [finalStatuses.includes(status)] *)
Definition is_final (status : string) : bool :=
  existsb (String.eqb status) finalStatuses.

(** The timer variable: not yet assigned, running, or cleared. *)
Inductive timer := Unset | Running | Cleared.

Record poll := Poll {
  attempts : nat;
  interval : timer;
  requests : nat     (* the status requests issued so far *)
}.

(** [if (interval) { clearInterval(interval); }] *)
Definition clearInterval (st : poll) : poll :=
  match interval st with
  | Unset => st
  | _ => Poll (attempts st) Cleared (requests st)
  end.

(** One run of [updateStatus], the pages being fetched in the order
    the requests are made. *)
Definition updateStatus (pages : nat -> fetch) (st : poll) : poll :=
  let st1 := Poll (attempts st) (interval st) (S (requests st)) in
  match pages (requests st) with
  | Fetched page =>
      let status := HtmlParser.status_of page in
      let st2 :=
        if is_final status || (maxAttempts <=? attempts st1)%nat
        then clearInterval st1 else st1 in
      Poll (S (attempts st2)) (interval st2) (requests st2)
  | Failed _ => clearInterval st1
  end.

(** The runs in which every answer arrives before the timer fires
    again, so that no two requests are under way at once: the timer
    firing [ticks] times at most, each callback finished before the
    next; the panel is closed after [closing] callbacks when [closing]
    says so.  The timer itself does not wait for an answer: [polling]
    below follows every order of firings and answers, and these runs
    are the ones it makes of the events of [sequential]. *)
Fixpoint tick (pages : nat -> fetch) (closing : option nat) (ticks : nat) (fired : nat)
    (st : poll) : poll :=
  match ticks with
  | O => st
  | S ticks' =>
      if bool_decide (closing = Some fired) then clearInterval st
      else
        match interval st with
        | Running => tick pages closing ticks' (S fired) (updateStatus pages st)
        | _ => st
        end
  end.

(** [showSubmissionStatus]: the first update, then the timer. *)
Definition showSubmissionStatus (pages : nat -> fetch) (closing : option nat) (ticks : nat)
    : poll :=
  let st := updateStatus pages (Poll O Unset O) in
  let st := Poll (attempts st) Running (requests st) in
  tick pages closing ticks O st.

(** The two halves of [updateStatus]: the request goes out, numbered
    by the requests made before it; later, when its answer is there,
    the rest of the callback runs. *)
Definition issue (st : poll) : poll :=
  Poll (attempts st) (interval st) (S (requests st)).

Definition settle (answer : fetch) (st : poll) : poll :=
  match answer with
  | Fetched page =>
      let status := HtmlParser.status_of page in
      let st2 :=
        if is_final status || (maxAttempts <=? attempts st)%nat
        then clearInterval st else st in
      Poll (S (attempts st2)) (interval st2) (requests st2)
  | Failed _ => clearInterval st
  end.

(** What happens once the timer is started: it fires, the request
    numbered [i] is answered, the panel is closed. *)
Inductive event := Fire | Answer (i : nat) | Dispose.

(** The loop with the requests that are under way and whether the
    panel is closed. *)
Record run := Run {
  loop : poll;
  waiting : list nat;
  closed : bool
}.

(** One event.  A timer that is cleared does not fire.  [strict] says
    whether writing to a panel that is closed throws, as it does in VS
    Code: the callback then ends in its [catch] block before it touches
    the timer or the attempts. *)
Definition step (pages : nat -> fetch) (strict : bool) (s : run) (e : event) : run :=
  match e with
  | Fire =>
      match interval (loop s) with
      | Running => Run (issue (loop s)) (waiting s ++ [requests (loop s)]) (closed s)
      | _ => s
      end
  | Answer i =>
      if bool_decide (i ∈ waiting s) then
        let rest := filter (fun j => j ≠ i) (waiting s) in
        if closed s && strict then Run (loop s) rest (closed s)
        else Run (settle (pages i) (loop s)) rest (closed s)
      else s
  | Dispose =>
      if closed s then s else Run (clearInterval (loop s)) (waiting s) true
  end.

(** The loop when the timer is started: the first update was awaited
    with no timer to clear. *)
Definition start (pages : nat -> fetch) : poll :=
  let st := updateStatus pages (Poll O Unset O) in
  Poll (attempts st) Running (requests st).

(** [showSubmissionStatus] followed through the events, in any order
    of firings and answers, the panel being open when the timer is
    started. *)
Definition polling (pages : nat -> fetch) (strict : bool) (events : list event) : run :=
  fold_left (step pages strict) events (Run (start pages) [] false).

(** The firings among the events. *)
Fixpoint fires (events : list event) : nat :=
  match events with
  | [] => O
  | Fire :: rest => S (fires rest)
  | _ :: rest => fires rest
  end.

(** The events of the runs of [tick]: each request is answered before
    the timer fires again; [next] numbers the request to come. *)
Fixpoint sequential (closing : option nat) (ticks fired next : nat) : list event :=
  match ticks with
  | O => []
  | S ticks' =>
      if bool_decide (closing = Some fired) then [Dispose]
      else Fire :: Answer next :: sequential closing ticks' (S fired) (S next)
  end.

End SubmissionService.

(** ** Pages and inputs used as examples *)

Module Fixture.
Import Dom.

(** A status page showing [status]. *)
Definition status_page (status : string) : document :=
  [Elem "div" [("class", "compile-status")] [Elem "a" [("href", "#")] [Text status]]].

(** A transport without compression at work. *)
Definition plain (s : string) : ApiClient.outcome string := ApiClient.Returned s.


(** The text [s] written [n] times. *)
Fixpoint times (n : nat) (s : string) : string :=
  match n with
  | O => ""
  | S n' => s +:+ times n' s
  end.

(** The bytes of the given codes. *)
Definition bytes (codes : list N) : string :=
  foldr (fun n s => String (ascii_of_N n) s) "" codes.

Definition nobody : ApiClient.client := ApiClient.Client None [] ∅.

(** A plain rendering of nodes as markup, standing for the library's
    serialiser in the examples: text as it is, elements by their tags. *)
Fixpoint markup_node (n : node) : string :=
  match n with
  | Text t => t
  | Elem tag _ ks =>
      "<" +:+ tag +:+ ">"
      +:+ (fix go (ks : list node) : string :=
             match ks with
             | [] => ""
             | k :: rest => markup_node k +:+ go rest
             end) ks
      +:+ "</" +:+ tag +:+ ">"
  end.

Definition markup (ks : list node) : string :=
  foldr (fun k acc => markup_node k +:+ acc) "" ks.

Definition link (href : string) (ks : list node) : node := Elem "a" [("href", href)] ks.

Definition table (trs : list node) : node := Elem "table" [] [Elem "tbody" [] trs].

(** Three rows of plain cells whose first two cells hold a link each,
    the links holding a picture and no text. *)
Definition picture_row (n : string) : node :=
  Elem "tr" []
    [Elem "td" [] [link (n +:+ "/") [Elem "img" [("src", "id.png")] []]];
     Elem "td" [] [link (n +:+ "/") [Elem "img" [("src", "title.png")] []]]].

Definition picture_rows : document :=
  [table [picture_row "1"; picture_row "2"; picture_row "3"]].

(** Three rows of plain cells with text in their links. *)
Definition text_row (n title : string) (more : list node) : node :=
  Elem "tr" []
    (Elem "td" [] [link (n +:+ "/") [Text n]]
     :: Elem "td" [] [link (n +:+ "/") [Text title]] :: more).

Definition text_rows : document :=
  [table [text_row "01" "A+B" [Elem "td" [] [link "" [Text "50%"]];
                              Elem "td" [] [link "" [Text "10"]];
                              Elem "td" [] [link "" [Text "20"]]];
          text_row "02" "Sum" [];
          text_row "03" "Max" [Elem "td" [] [Text "-"]]]].

(** A problem page with both labels of the description, the localized
    one with nothing under it. *)
Definition both_labels : document :=
  [Elem "dl" [("class", "problem-content")]
     [Elem "dt" [] [Text "描述"]; Elem "dd" [] [];
      Elem "dt" [] [Text "Description"]; Elem "dd" [] [Text "Add two numbers."]]].

(** A problem page with the English label only. *)
Definition english_only : document :=
  [Elem "dl" [("class", "problem-content")]
     [Elem "dt" [] [Text "Description"]; Elem "dd" [] [Text "Add two numbers."]]].

(** A group page whose contest comes before its practice. *)
Definition group_page : document :=
  [Elem "ul" []
     [Elem "li" [("class", "contest-info")]
        [Elem "h3" [] [link "/exam1/" [Text "Midterm"]; Text "(5题)"]];
      Elem "li" [("class", "practice-info")]
        [Elem "h3" [] [link "/hw1/" [Text "Homework"]; Text " (12题)"]];
      Elem "li" [("class", "practice-info")]
        [Elem "h3" [] [link "/hw2/" [Text "Reading"]]]]].

End Fixture.

(** ** The vocabulary of the specification *)

Module Spec.

(** The character [c] does not occur in [s]. *)
Fixpoint free (c : ascii) (s : string) : Prop :=
  match s with
  | "" => True
  | String a r => a ≠ c ∧ free c r
  end.

(** A name=value pair cut at its first [=] only: the name before it,
    and after it the value, which may hold further [=]. *)
Fixpoint cut (s : string) : string * string :=
  match s with
  | "" => ("", "")
  | String a r =>
      if Ascii.eqb a "=" then ("", r)
      else let '(n, v) := cut r in (String a n, v)
  end.

(** An attribute read as name=value at its first [=]; none without
    an [=]. *)
Fixpoint name_value (part : string) : option (string * string) :=
  match part with
  | "" => None
  | String a r =>
      if Ascii.eqb a "=" then Some ("", r)
      else
        match name_value r with
        | Some (n, v) => Some (String a n, v)
        | None => None
        end
  end.

(** The value of [part] when it is the attribute [name], the name
    written in any letter case. *)
Definition attribute (name part : string) : option string :=
  match name_value part with
  | Some (n, v) => if String.eqb (JS.toLowerCase n) name then Some v else None
  | None => None
  end.

(** The pairs of a cookie string: cut at [;], each trimmed; the name
    and the value of a pair, trimmed as well. *)
Definition pairs (text : string) : list string := JS.trim <$> JS.split ";" text.

Definition pair_name (p : string) : string := JS.trim (cut p).1.

Definition pair_value (p : string) : string := JS.trim (cut p).2.

(** The string holds a pair called [name] whose value is not empty. *)
Definition has_pair (name text : string) : Prop :=
  exists p : string, p ∈ pairs text ∧ pair_name p = name ∧ pair_value p ≠ "".

(** The value of the last pair called [name]. *)
Fixpoint last_value (name : string) (ps : list string) : option string :=
  match ps with
  | [] => None
  | p :: rest =>
      match last_value name rest with
      | Some v => Some v
      | None => if String.eqb (pair_name p) name then Some (pair_value p) else None
      end
  end.

(** The locale the cookie login settles on: the configured interface
    language, else the last pair named language, else zh_CN. *)
Definition locale_of (dlg : ApiClient.dialog) (text : string) : string :=
  match ApiClient.configuredLanguage dlg with
  | Some l =>
      if JS.truthy l then l
      else default "zh_CN" (last_value "language" (pairs text))
  | None => default "zh_CN" (last_value "language" (pairs text))
  end.

(** The [i]-th status page was fetched and shows a status that is
    final, or one that is not. *)
Definition final_at (pages : nat -> SubmissionService.fetch) (i : nat) : Prop :=
  exists page : Dom.document,
    pages i = SubmissionService.Fetched page
    ∧ SubmissionService.is_final (HtmlParser.status_of page) = true.

Definition pending_at (pages : nat -> SubmissionService.fetch) (i : nat) : Prop :=
  exists page : Dom.document,
    pages i = SubmissionService.Fetched page
    ∧ SubmissionService.is_final (HtmlParser.status_of page) = false.

(** The state of the loop when the timer is started. *)
Definition started (pages : nat -> SubmissionService.fetch) : SubmissionService.poll :=
  let st := SubmissionService.updateStatus pages
              (SubmissionService.Poll O SubmissionService.Unset O) in
  SubmissionService.Poll (SubmissionService.attempts st) SubmissionService.Running
    (SubmissionService.requests st).


(** Text of ASCII alone. *)
Fixpoint ascii_only (s : string) : bool :=
  match s with
  | "" => true
  | String c r => (JS.code c <? 128)%N && ascii_only r
  end.

(** Decimal numerals and their value. *)
Fixpoint all_digits (s : string) : bool :=
  match s with
  | "" => true
  | String c r => JS.is_digit c && all_digits r
  end.

Fixpoint decimal_go (acc : N) (s : string) : N :=
  match s with
  | "" => acc
  | String c r => decimal_go (acc * 10 + (JS.code c - 48))%N r
  end.

Definition decimal (s : string) : N := decimal_go 0 s.

(** The text holds the pattern of a problem count around the numeral
    [ds]: an opening bracket, [ds], the character U+9898 and a closing
    bracket. *)
Definition counted (text ds : string) : Prop :=
  exists pre post : string,
    text = pre +:+ "(" +:+ ds +:+ "题)" +:+ post
    ∧ ds ≠ "" ∧ all_digits ds = true.

(** The text next to the title link of a list item: that of the
    parent of the first link under a heading. *)
Definition count_text (elem : Dom.loc) : string :=
  Dom.parent_text (Dom.first (Dom.find [elem] (Dom.is_tag "a") [Dom.is_tag "h3"])).

(** The cells of a table row, and the trimmed link text of the [i]-th
    of them, absent when the row has no such cell. *)
Definition cells (row : Dom.loc) : list Dom.loc :=
  Dom.find [row] (Dom.is_tag "td") [].

Definition cell_text (i : nat) (row : Dom.loc) : option string :=
  if (i <? length (cells row))%nat
  then Some (HtmlParser.anchor_text (Dom.eq_ i (cells row))) else None.

(** The [i]-th cell of the row holds a link. *)
Definition anchor_in (i : nat) (row : Dom.loc) : bool :=
  (0 <? length (Dom.find (Dom.eq_ i (cells row)) (Dom.is_tag "a") []))%nat.

(** The record made of the first five cells, read by position: id,
    title, acceptance rate, passed count, attempt count. *)
Definition positional (practiceId subdomain : string) (contestId : option string)
    (row : Dom.loc) : Problem.t :=
  let id := default "" (cell_text 0 row) in
  Problem.Make id (default "" (cell_text 1 row)) practiceId subdomain
    (cell_text 2 row) (JS.parseInt <$> cell_text 3 row) (JS.parseInt <$> cell_text 4 row)
    (HtmlParser.problem_url subdomain practiceId id) contestId.

(** The logical fields of a problem page, with the two labels each is
    looked up under and what it falls back to. *)
Inductive field :=
| TimeLimit | MemoryLimit | Description | Input | Output
| SampleInput | SampleOutput | Hint | Source.

Definition localized (f : field) : string :=
  match f with
  | TimeLimit => "总时间限制"
  | MemoryLimit => "内存限制"
  | Description => "描述"
  | Input => "输入"
  | Output => "输出"
  | SampleInput => "样例输入"
  | SampleOutput => "样例输出"
  | Hint => "提示"
  | Source => "来源"
  end.

Definition english (f : field) : string :=
  match f with
  | TimeLimit => "Time Limit"
  | MemoryLimit => "Memory Limit"
  | Description => "Description"
  | Input => "Input"
  | Output => "Output"
  | SampleInput => "Sample Input"
  | SampleOutput => "Sample Output"
  | Hint => "Hint"
  | Source => "Source"
  end.

Definition fallback (f : field) : option string :=
  match f with
  | TimeLimit | MemoryLimit => Some "N/A"
  | Hint | Source => None
  | _ => Some ""
  end.

(** The labels read off the page for the field, and the field of the
    record returned. *)
Definition labels (serialize : list Dom.node -> string) (f : field) (d : Dom.document)
    : gmap string string :=
  match f with
  | TimeLimit | MemoryLimit => HtmlParser.params_of d
  | _ => HtmlParser.content_of serialize d
  end.

Definition read (f : field) (r : ProblemDetail.t) : option string :=
  match f with
  | TimeLimit => Some (ProblemDetail.timeLimit r)
  | MemoryLimit => Some (ProblemDetail.memoryLimit r)
  | Description => Some (ProblemDetail.description r)
  | Input => Some (ProblemDetail.input r)
  | Output => Some (ProblemDetail.output r)
  | SampleInput => Some (ProblemDetail.sampleInput r)
  | SampleOutput => Some (ProblemDetail.sampleOutput r)
  | Hint => ProblemDetail.hint r
  | Source => ProblemDetail.source r
  end.

(** A label carries content when its value is there and not empty. *)
Definition filled (m : gmap string string) (k : string) : Prop :=
  exists v : string, m !! k = Some v ∧ v ≠ "".

(** The terms of the content list, and the label of one. *)
Definition content_terms (d : Dom.document) : list Dom.loc :=
  Dom.select d (Dom.is_tag "dt") [HtmlParser.dl_of "problem-content"].

Definition label (dt : Dom.loc) : string := JS.trim (Dom.text (Dom.self dt)).

End Spec.

(** * Further definitions *)

(** ** Further vocabulary *)

Module Terms.

(** [s] has no white space at either end. *)
Definition tight (s : string) : Prop :=
  JS.ws_head s = None ∧ JS.ws_last (String.rev s) = None.

(** The same cookies with their paths changed by [f]. *)
Definition repath (f : string -> string) (j : CookieJar.jar) : CookieJar.jar :=
  (fun e => (e.1, CookieJar.Cookie (CookieJar.value e.2) (CookieJar.domain e.2)
                    (f (CookieJar.path e.2)))) <$> j.

(** [s] is made of the character [c] alone. *)
Fixpoint only (c : ascii) (s : string) : Prop :=
  match s with
  | "" => True
  | String a r => a = c ∧ only c r
  end.

(** The heading a problem page takes its title from. *)
Definition heading (d : Dom.document) : string :=
  Dom.text_of (Dom.select d (Dom.is_tag "h2") [Dom.has_attr "id" "pageTitle"]).

End Terms.

(** ** Further examples *)

Module Sample.
Import Dom SubmissionService.

(** Status pages that show Waiting up to the [k]-th and Accepted from
    then on. *)
Definition judged_at (k : nat) (i : nat) : fetch :=
  if (i <? k)%nat then Fetched (Fixture.status_page "Waiting")
  else Fetched (Fixture.status_page "Accepted").

(** Status pages that never leave Waiting. *)
Definition waiting (i : nat) : fetch := Fetched (Fixture.status_page "Waiting").

(** The same with the [k]-th fetch failing. *)
Definition failing_at (k : nat) (i : nat) : fetch :=
  if (i =? k)%nat then Failed "HTTP 502: Bad Gateway"
  else Fetched (Fixture.status_page "Waiting").

End Sample.

(** ** The rest of HtmlParser: the status page of a submission *)

Module SubmissionStatus.
Record t := Make {
  id : string;
  problemId : string;
  status : string;
  language : string;
  memory : option string;
  time : option string;
  submitTime : string;
  submitter : option string;
  code : string;
  errorMessage : string
}.
End SubmissionStatus.

Module StatusPage.
Import Dom HtmlParser.

(** The [info] object: the terms of the compile-info list that have
    both a key and a value. *)
Definition info_of (d : document) : gmap string string :=
  fold_left
    (fun m dt =>
       let key := JS.drop_first_colon (JS.trim (text (self dt))) in
       let value := JS.trim (text_of (next dt (is_tag "dd"))) in
       if JS.truthy key && JS.truthy value then <[key := value]> m else m)
    (select d (is_tag "dt") [is_tag "dl"; has_class "compile-info"]) ∅.

(** [$('pre.sh_python, pre.sh_cpp, pre.sh_c, pre.sh_java, pre')] *)
Definition code_blocks (d : document) : list loc :=
  select_by d (fun l =>
    meets (fun n => is_tag "pre" n && has_class "sh_python" n) [] l
    || meets (fun n => is_tag "pre" n && has_class "sh_cpp" n) [] l
    || meets (fun n => is_tag "pre" n && has_class "sh_c" n) [] l
    || meets (fun n => is_tag "pre" n && has_class "sh_java" n) [] l
    || meets (is_tag "pre") [] l).

(** The test of the filter over the [pre] blocks. *)
Definition mentions_error (l : loc) : bool :=
  let t := text (self l) in
  JS.includes t "error" || JS.includes t "Error" || JS.includes t "错误".

Definition is_compile_error (status : string) : bool :=
  JS.includes status "Compile Error" || JS.includes status "编译错误".

Definition error_of (d : document) (status : string) : string :=
  if is_compile_error status then
    let errorPre := filter (fun l => mentions_error l = true) (select d (is_tag "pre") []) in
    if (0 <? length errorPre)%nat then text_of (first errorPre) else ""
  else "".

(** [parseSubmissionStatus(html, submissionId)] *)
Definition parseSubmissionStatus (d : document) (submissionId : string)
    : SubmissionStatus.t :=
  let status := status_of d in
  let info := info_of d in
  let code := text_of (first (code_blocks d)) in
  let errorMessage := error_of d status in
  {| SubmissionStatus.id := submissionId;
     SubmissionStatus.problemId :=
       or_str (JS.or_else (JS.or_else (info !! "题目") (info !! "Problem")) (info !! "问题")) "";
     SubmissionStatus.status := status;
     SubmissionStatus.language :=
       or_str (JS.or_else (info !! "语言") (info !! "Language")) "";
     SubmissionStatus.memory :=
       JS.or_else (JS.or_else (info !! "内存") (info !! "Memory")) None;
     SubmissionStatus.time :=
       JS.or_else (JS.or_else (info !! "时间") (info !! "Time")) None;
     SubmissionStatus.submitTime :=
       or_str (JS.or_else (info !! "提交时间") (info !! "Submit Time")) "";
     SubmissionStatus.submitter :=
       JS.or_else (JS.or_else (info !! "提交人") (info !! "Submitter")) None;
     SubmissionStatus.code := code;
     SubmissionStatus.errorMessage := errorMessage |}.

End StatusPage.

(** ** The rest of SubmissionService and the problem view *)

Module Webview.

(** The double quote. *)
Definition dquote : ascii := "034"%char.

(** The callback of [escapeHtml]: what one matched character becomes. *)
Definition entity (c : ascii) : option string :=
  if Ascii.eqb c "&" then Some "&amp;"
  else if Ascii.eqb c "<" then Some "&lt;"
  else if Ascii.eqb c ">" then Some "&gt;"
  else if Ascii.eqb c dquote then Some "&quot;"
  else if Ascii.eqb c "'" then Some "&#039;"
  else None.

(** [escapeHtml(text)]: every ampersand, angle bracket and quote of
    either kind is replaced by its entry in [map]. *)
Fixpoint escapeHtml (text : string) : string :=
  match text with
  | "" => ""
  | String c rest =>
      match entity c with
      | Some e => e +:+ escapeHtml rest
      | None => String c (escapeHtml rest)
      end
  end.

(** [redirectUrl.split('/').filter(Boolean).pop()] *)
Definition submissionId_of (redirectUrl : string) : option string :=
  last (filter (fun s => JS.truthy s = true) (JS.split "/" redirectUrl)).

End Webview.

(** ** The configuration dialog of the extension *)

Module Extension.

(** The groups read from the input box of [showConfigurationDialog]:
    cut at commas, trimmed, the empty ones dropped. *)
Definition parse_groups (groupsInput : string) : list string :=
  filter (fun g => (0 < String.length g)%nat) (JS.trim <$> JS.split "," groupsInput).

(** The value the input box starts with: [groups.join(', ')]. *)
Definition show_groups (groups : list string) : string := JS.join ", " groups.

(** The groups [showConfigurationDialog] goes on with; none when the
    input box is given up or left empty, and the dialog ends at once. *)
Definition groups_of (groupsInput : option string) : option (list string) :=
  match groupsInput with
  | Some text => if JS.truthy text then Some (parse_groups text) else None
  | None => None
  end.

End Extension.

(** ** The encodings of the requests *)

Module Url.

Definition alnum (c : ascii) : bool :=
  let n := JS.code c in
  (((48 <=? n) && (n <=? 57)) || ((65 <=? n) && (n <=? 90))
   || ((97 <=? n) && (n <=? 122)))%N.

(** One hexadecimal digit, in upper case, of four bits. *)
Definition nibble (b3 b2 b1 b0 : bool) : ascii :=
  match b3, b2, b1, b0 with
  | false, false, false, false => "0"
  | false, false, false, true => "1"
  | false, false, true, false => "2"
  | false, false, true, true => "3"
  | false, true, false, false => "4"
  | false, true, false, true => "5"
  | false, true, true, false => "6"
  | false, true, true, true => "7"
  | true, false, false, false => "8"
  | true, false, false, true => "9"
  | true, false, true, false => "A"
  | true, false, true, true => "B"
  | true, true, false, false => "C"
  | true, true, false, true => "D"
  | true, true, true, false => "E"
  | true, true, true, true => "F"
  end%char.

(** [%XY] for one byte. *)
Definition percent (c : ascii) : string :=
  let 'Ascii b0 b1 b2 b3 b4 b5 b6 b7 := c in
  String "%" (String (nibble b7 b6 b5 b4) (String (nibble b3 b2 b1 b0) "")).

(** The bytes that the serializer of [URLSearchParams] writes as they
    are: letters, digits and [*-._]. *)
Definition form_safe (c : ascii) : bool :=
  alnum c || existsb (Ascii.eqb c) ["*"; "-"; "."; "_"]%char.

Definition form_byte (c : ascii) : string :=
  if Ascii.eqb c " " then "+"
  else if form_safe c then String c ""
  else percent c.

Fixpoint form_component (s : string) : string :=
  match s with
  | "" => ""
  | String c r => form_byte c +:+ form_component r
  end.

Definition form_pair (f : string * string) : string :=
  form_component f.1 +:+ "=" +:+ form_component f.2.

(** [new URLSearchParams({...}).toString()], the fields in the order of
    the object literal. *)
Definition form (fields : list (string * string)) : string :=
  JS.join "&" (form_pair <$> fields).

(** The bytes [encodeURIComponent] leaves: letters, digits and
    [-_.!~*'()]. *)
Definition uri_safe (c : ascii) : bool :=
  alnum c || existsb (Ascii.eqb c) ["-"; "_"; "."; "!"; "~"; "*"; "'"; "("; ")"]%char.

Fixpoint encodeURIComponent (s : string) : string :=
  match s with
  | "" => ""
  | String c r =>
      (if uri_safe c then String c "" else percent c) +:+ encodeURIComponent r
  end.

(** The first place where [pattern] stands in [s]: what is before it
    and what is after it. *)
Fixpoint cut_at (pattern : string) (s : string) : option (string * string) :=
  if JS.startsWith s pattern then Some ("", JS.substring_from (String.length pattern) s)
  else
    match s with
    | "" => None
    | String c r =>
        match cut_at pattern r with
        | Some (before, after) => Some (String c before, after)
        | None => None
        end
    end.

(** The replacement text of [String.prototype.replace] for a pattern
    that is a string: [$$], [$&], the text before and the text after;
    any other [$] stays. *)
Fixpoint substitution (matched before after : string) (replacement : string) : string :=
  match replacement with
  | "" => ""
  | String "$" (String "$" r) => String "$" (substitution matched before after r)
  | String "$" (String "&" r) => matched +:+ substitution matched before after r
  | String "$" (String "`" r) => before +:+ substitution matched before after r
  | String "$" (String "'" r) => after +:+ substitution matched before after r
  | String c r => String c (substitution matched before after r)
  end.

(** [s.replace(pattern, replacement)], both strings: the first
    occurrence only. *)
Definition replace (s pattern replacement : string) : string :=
  match cut_at pattern s with
  | Some (before, after) =>
      before +:+ substitution pattern before after replacement +:+ after
  | None => s
  end.

End Url.

(** ** The values of [JSON.parse] *)

Module Json.

Inductive value :=
| Null
| Bool (b : bool)
| Number (zero : bool) (literal : string)
| Str (s : string)
| Array (items : list value)
| Object (members : list (string * value)).

Definition truthy (v : value) : bool :=
  match v with
  | Null => false
  | Bool b => b
  | Number zero _ => negb zero
  | Str s => JS.truthy s
  | Array _ | Object _ => true
  end.

(** [v.key] for the keys the sources read ([result], [message], [hint],
    [redirect]), which no prototype defines; [v] is not [null]. *)
Definition member (v : value) (key : string) : option value :=
  match v with
  | Object members => (last (filter (fun m => m.1 = key) members)) ≫= (fun m => Some m.2)
  | _ => None
  end.

(** [a || b] where [a] may be [undefined]. *)
Definition or_else (a : option value) (b : value) : value :=
  match a with
  | Some v => if truthy v then v else b
  | None => b
  end.

(** [v === "..."] *)
Definition is_string (v : option value) (s : string) : bool :=
  match v with
  | Some (Str t) => String.eqb t s
  | _ => false
  end.

End Json.

(** ** OpenJudgeApiClient: what it sends and what it keeps *)

Module Requests.
Import CookieJar ApiClient.

Record request := Request {
  url : string;
  method : string;
  request_headers : gmap string string;
  request_body : option string
}.

(** The client with the requests it has made, the last one first. *)
Record world := World {
  api : client;
  sent : list request
}.

Definition defaultHeaders : gmap string string :=
  list_to_map
    [("User-Agent",
      "Mozilla/5.0 (X11; Linux x86_64) AppleWebKit/537.36 (KHTML, like Gecko) Chrome/142.0.0.0 Safari/537.36");
     ("Accept",
      "text/html,application/xhtml+xml,application/xml;q=0.9,image/avif,image/webp,image/apng,*/*;q=0.8,application/signed-exchange;v=b3;q=0.7");
     ("Accept-Language", "zh-CN,zh;q=0.9,en;q=0.8");
     ("Connection", "keep-alive");
     ("Cache-Control", "no-cache");
     ("Pragma", "no-cache");
     ("Upgrade-Insecure-Requests", "1")].

(** [buildHeaders(url, additionalHeaders)], [host] being the host name
    of [url]. *)
Definition buildHeaders (c : client) (host : string) (additionalHeaders : gmap string string)
    : gmap string string :=
  let headers := additionalHeaders ∪ defaultHeaders in
  let cookieHeader := getCookieHeader (cookieJar c) host in
  if JS.truthy cookieHeader then <["Cookie" := cookieHeader]> headers else headers.

Definition ajaxHeaders : gmap string string :=
  list_to_map
    [("Content-Type", "application/x-www-form-urlencoded");
     ("Accept", "application/json, text/javascript, */*; q=0.01");
     ("X-Requested-With", "XMLHttpRequest")].

Record SubmitRequest := Submit {
  contestId : string;
  problemNumber : string;
  submit_language : string;
  source : string;
  sourceEncode : string
}.

(** What [loginWithPassword] answers: the message and the hint may be
    whatever the server has sent under these names. *)
Record LoginResponse := Login {
  login_result : verdict;
  login_message : Json.value;
  login_hint : option Json.value
}.

(** The two input boxes of [loginWithPassword]. *)
Record prompted := Prompted {
  inputEmail : option string;
  inputPassword : option string
}.

Definition not_iterable : string :=
  "object is not iterable (cannot read property Symbol(Symbol.iterator))".

(** [loadSessionSync()]; a value that is no array under the key of the
    cookie jar makes [new Map] throw. *)
Definition loadSessionSync (c : client) : outcome unit * client :=
  match globalState c !! "openjudge.session" with
  | Some (StoredSession s) =>
      if JS.truthy (PHPSESSID s) then
        let j := set (cookieJar c) "PHPSESSID" (PHPSESSID s) (Some "openjudge.cn") None in
        let j := set j "language" (language s) (Some "openjudge.cn") None in
        let c1 := Client (Some s) j (globalState c) in
        match globalState c !! "openjudge.cookieJar" with
        | Some (StoredJar data) =>
            (Returned (), Client (Some s) (import j data) (globalState c))
        | Some _ => (Thrown not_iterable, c1)
        | None => (Returned (), c1)
        end
      else (Returned (), c)
  | _ => (Returned (), c)
  end.

(** The constructor: a client with no session and an empty jar, then
    [loadSessionSync]. *)
Definition create (state : gmap string stored) : outcome client :=
  match loadSessionSync (Client None [] state) with
  | (Returned _, c) => Returned c
  | (Thrown m, _) => Thrown m
  end.

(** [initialize()] *)
Definition initialize (c : client) : outcome unit * client :=
  match loadSessionSync c with
  | (Thrown m, c1) => (Thrown m, c1)
  | (Returned _, c1) =>
      match session c1 with
      | Some s =>
          let j := set (cookieJar c1) "PHPSESSID" (PHPSESSID s) (Some "openjudge.cn") None in
          let j := set j "language" (language s) (Some "openjudge.cn") None in
          match globalState c1 !! "openjudge.cookieJar" with
          | Some (StoredJar data) =>
              (Returned (), Client (Some s) (import j data) (globalState c1))
          | Some _ => (Thrown not_iterable, Client (Some s) j (globalState c1))
          | None => (Returned (), Client (Some s) j (globalState c1))
          end
      | None => (Returned (), c1)
      end
  end.

Section Network.

Variable gunzip : string -> outcome string.

(** [new URL(url).hostname], which throws when [url] is no URL. *)
Variable hostname : string -> outcome string.

(** What the network answers to a request, given the requests made
    before it. *)
Variable network : list request -> request -> outcome response.

Variable JSON_parse : string -> outcome Json.value.

(** [makeRequest(url, { method, headers, body })] *)
Definition send (url method : string) (headers : gmap string string) (body : option string)
    (w : world) : outcome result * world :=
  match hostname url with
  | Thrown m => (Thrown m, w)
  | Returned host =>
      let rq := Request url method (buildHeaders (api w) host headers) body in
      let '(out, c) := makeRequest gunzip host (network (sent w) rq) (api w) in
      (out, World c (rq :: sent w))
  end.

(** The address [fetchHtml] asks for. *)
Definition targetUrl (url : string) (subdomain : option string) : string :=
  match subdomain with
  | Some s =>
      if JS.truthy s then Url.replace url "openjudge.cn" (s +:+ ".openjudge.cn") else url
  | None => url
  end.

(** [fetchHtml(url, subdomain)] *)
Definition fetchHtml (url : string) (subdomain : option string) (w : world)
    : outcome string * world :=
  match send (targetUrl url subdomain) "GET" ∅ None w with
  | (Returned r, w1) => (Returned (body r), w1)
  | (Thrown m, w1) => (Thrown ("Failed to fetch HTML: " +:+ m), w1)
  end.

(** The record [{ result: "ERROR", message }]. *)
Definition failure (m : string) : Json.value :=
  Json.Object [("result", Json.Str "ERROR"); ("message", Json.Str m)].

Definition submitUrl (subdomain : string) : string :=
  "http://" +:+ subdomain +:+ ".openjudge.cn/api/solution/submitv2/".

Definition submitBody (data : SubmitRequest) : string :=
  Url.form [("contestId", contestId data); ("problemNumber", problemNumber data);
            ("sourceEncode", sourceEncode data); ("language", submit_language data);
            ("source", source data)].

Definition submitHeaders (subdomain : string) (data : SubmitRequest) : gmap string string :=
  let refererUrl :=
    "http://" +:+ subdomain +:+ ".openjudge.cn/" +:+ contestId data +:+ "/"
      +:+ problemNumber data +:+ "/submit/" in
  <["Referer" := refererUrl]>
    (<["Origin" := "http://" +:+ subdomain +:+ ".openjudge.cn"]> ajaxHeaders).

(** [submitSolution(subdomain, data)] *)
Definition submitSolution (subdomain : string) (data : SubmitRequest) (w : world)
    : Json.value * world :=
  let failed m := failure (if JS.truthy m then m else "Submission failed") in
  match send (submitUrl subdomain) "POST" (submitHeaders subdomain data)
          (Some (submitBody data)) w with
  | (Returned r, w1) =>
      match JSON_parse (ApiClient.body r) with
      | Returned v => (v, w1)
      | Thrown m => (failed m, w1)
      end
  | (Thrown m, w1) => (failed m, w1)
  end.

Definition switchUrl (subdomain : option string) : string :=
  match subdomain with
  | Some s =>
      if JS.truthy s then "http://" +:+ s +:+ ".openjudge.cn/api/language/switch/"
      else baseUrl +:+ "/api/language/switch/"
  | None => baseUrl +:+ "/api/language/switch/"
  end.

(** [switchLanguage(language, subdomain)] *)
Definition switchLanguage (language : string) (subdomain : option string) (w : world) : world :=
  match send (switchUrl subdomain) "POST" ajaxHeaders
          (Some (Url.form [("language", language)])) w with
  | (Returned _, w1) =>
      match session (api w1) with
      | Some s =>
          let s := Session (PHPSESSID s) language in
          let j := set (cookieJar (api w1)) "language" language (Some "openjudge.cn") None in
          let c := Client (Some s) j (globalState (api w1)) in
          let c := update "openjudge.session" (Some (StoredSession s)) c in
          let c := update "openjudge.cookieJar" (Some (StoredJar (export j))) c in
          World c (sent w1)
      | None => w1
      end
  | (Thrown _, w1) => w1
  end.

Definition cancelled : LoginResponse := Login ERROR (Json.Str "用户取消登录") None.

(** The credentials [loginWithPassword] goes on with, or the answer it
    ends with at once.  [None]: the value kept under the key of the
    credentials is no pair of credentials, which the extension never
    writes there. *)
Definition credentials_for (email password : option string) (ask : prompted) (c : client)
    : option (LoginResponse + string * string) :=
  let given :=
    match email, password with
    | Some e, Some p => if JS.truthy e && JS.truthy p then Some (e, p) else None
    | _, _ => None
    end in
  match given with
  | Some ep => Some (inr ep)
  | None =>
      match globalState c !! "openjudge.credentials" with
      | Some (StoredCredentials e p) => Some (inr (e, p))
      | Some _ => None
      | None =>
          match inputEmail ask with
          | None => Some (inl cancelled)
          | Some ie =>
              if negb (JS.truthy ie) then Some (inl cancelled)
              else
                match inputPassword ask with
                | None => Some (inl cancelled)
                | Some ip =>
                    if negb (JS.truthy ip) then Some (inl cancelled)
                    else Some (inr (JS.trim ie, JS.trim ip))
                end
          end
      end
  end.

Definition loginHeaders : gmap string string :=
  list_to_map
    [("Accept", "application/json, text/javascript, */*; q=0.01");
     ("Content-Type", "application/x-www-form-urlencoded");
     ("X-Requested-With", "XMLHttpRequest");
     ("Origin", "http://openjudge.cn");
     ("Referer", "http://openjudge.cn/auth/login/")].

Definition loginBody (email password : string) : string :=
  Url.form [("redirectUrl", Url.encodeURIComponent "http://openjudge.cn/");
            ("email", email); ("password", password)].

(** The [try] block of [loginWithPassword]. *)
Definition attempt (email password : string) (w : world) : LoginResponse * world :=
  let failed m := Login ERROR (Json.Str ("登录失败: " +:+ m)) None in
  match send "http://openjudge.cn/" "GET" ∅ None w with
  | (Thrown m, w1) => (failed m, w1)
  | (Returned _, w1) =>
      match send "http://openjudge.cn/api/auth/login/" "POST" loginHeaders
              (Some (loginBody email password)) w1 with
      | (Thrown m, w2) => (failed m, w2)
      | (Returned loginResponse, w2) =>
          match JSON_parse (body loginResponse) with
          | Thrown m => (failed m, w2)
          | Returned Json.Null =>
              (failed "Cannot read properties of null (reading 'result')", w2)
          | Returned loginResult =>
              if negb (Json.is_string (Json.member loginResult "result") "SUCCESS") then
                (Login ERROR
                   (Json.or_else (Json.member loginResult "message") (Json.Str "登录失败"))
                   None, w2)
              else
                let phpSessId := get (cookieJar (api w2)) "PHPSESSID" in
                let language :=
                  HtmlParser.or_str (get (cookieJar (api w2)) "language") "zh_CN" in
                match phpSessId with
                | Some sid =>
                    if JS.truthy sid then
                      let s := Session sid language in
                      let c := Client (Some s) (cookieJar (api w2)) (globalState (api w2)) in
                      let c := update "openjudge.session" (Some (StoredSession s)) c in
                      let c :=
                        update "openjudge.cookieJar"
                          (Some (StoredJar (export (cookieJar c)))) c in
                      let c :=
                        update "openjudge.credentials"
                          (Some (StoredCredentials email password)) c in
                      (Login SUCCESS (Json.Str "登录成功")
                         (Some (Json.or_else (Json.member loginResult "hint")
                                  (Json.Str "已保存登录凭据，下次将自动登录"))),
                       World c (sent w2))
                    else
                      (Login ERROR (Json.Str "登录成功但未获取到会话 Cookie") None, w2)
                | None =>
                    (Login ERROR (Json.Str "登录成功但未获取到会话 Cookie") None, w2)
                end
          end
      end
  end.

(** [loginWithPassword(email, password)] *)
Definition loginWithPassword (email password : option string) (ask : prompted) (w : world)
    : option (LoginResponse * world) :=
  match credentials_for email password ask (api w) with
  | None => None
  | Some (inl answer) => Some (answer, w)
  | Some (inr (e, p)) => Some (attempt e p w)
  end.

End Network.

End Requests.

(** ** ProblemExplorerProvider: the tree and its caches *)

Module Explorer.
Import ApiClient Requests.

Inductive item :=
| GroupItem (subdomain : string)
| PracticeItem (practice : Practice.t)
| ProblemItem (problem : Problem.t).

Record provider := Provider {
  practiceCache : gmap string (list Practice.t);
  problemCache : gmap string (list Problem.t)
}.

(** The provider, the client it asks, and the error messages it has
    shown, the last one first. *)
Record state := State {
  caches : provider;
  net : world;
  errors : list string
}.

Section Tree.

Variable gunzip : string -> outcome string.
Variable hostname : string -> outcome string.
Variable network : list request -> request -> outcome response.

(** [cheerio.load] *)
Variable load : string -> Dom.document.

(** The setting [openjudge.groups]. *)
Variable groups : option (list string).

(** [refresh()] *)
Definition refresh (st : state) : state :=
  State (Provider ∅ ∅) (net st) (errors st).

(** [getGroups()] *)
Definition getGroups : list item := GroupItem <$> default ["python"] groups.

(** [getPractices(subdomain)] *)
Definition getPractices (subdomain : string) (st : state) : list Practice.t * state :=
  match practiceCache (caches st) !! subdomain with
  | Some cached => (cached, st)
  | None =>
      match fetchHtml gunzip hostname network
              ("http://" +:+ subdomain +:+ ".openjudge.cn/") None (net st) with
      | (Returned html, w) =>
          let practices := HtmlParser.parsePracticeList (load html) subdomain in
          (practices,
           State (Provider (<[subdomain := practices]> (practiceCache (caches st)))
                           (problemCache (caches st)))
                 w (errors st))
      | (Thrown m, w) =>
          ([], State (caches st) w (("Failed to load practices: " +:+ m) :: errors st))
      end
  end.

Definition cacheKey (subdomain practiceId : string) : string :=
  subdomain +:+ ":" +:+ practiceId.

(** [getProblems(practice)] *)
Definition getProblems (practice : Practice.t) (st : state) : list Problem.t * state :=
  let key := cacheKey (Practice.groupSubdomain practice) (Practice.id practice) in
  match problemCache (caches st) !! key with
  | Some cached => (cached, st)
  | None =>
      match fetchHtml gunzip hostname network (Practice.url practice) None (net st) with
      | (Returned html, w) =>
          let problems :=
            HtmlParser.parseProblemList (load html) (Practice.id practice)
              (Practice.groupSubdomain practice) in
          (problems,
           State (Provider (practiceCache (caches st))
                           (<[key := problems]> (problemCache (caches st))))
                 w (errors st))
      | (Thrown m, w) =>
          ([], State (caches st) w (("Failed to load problems: " +:+ m) :: errors st))
      end
  end.

(** [getChildren(element)] *)
Definition getChildren (element : option item) (st : state) : list item * state :=
  if negb (isLoggedIn (api (net st))) then ([], st)
  else
    match element with
    | None => (getGroups, st)
    | Some (GroupItem subdomain) =>
        let '(practices, st1) := getPractices subdomain st in (PracticeItem <$> practices, st1)
    | Some (PracticeItem practice) =>
        let '(problems, st1) := getProblems practice st in (ProblemItem <$> problems, st1)
    | Some (ProblemItem _) => ([], st)
    end.

(** [findProblem(problemId, practiceId, subdomain)] *)
Definition findProblem (problemId practiceId subdomain : string) (st : state)
    : option Problem.t * state :=
  let key := cacheKey subdomain practiceId in
  let pick := List.find (fun p => String.eqb (Problem.id p) problemId) in
  match problemCache (caches st) !! key with
  | Some cached => (pick cached, st)
  | None =>
      let practice :=
        Practice.Make practiceId practiceId subdomain (JS.Int 0)
          ("http://" +:+ subdomain +:+ ".openjudge.cn/" +:+ practiceId +:+ "/")
          Practice.practice in
      let '(_, st1) := getProblems practice st in
      match problemCache (caches st1) !! key with
      | Some cached => (pick cached, st1)
      | None => (None, st1)
      end
  end.

End Tree.

End Explorer.

(** ** The start of the extension *)

Module Activation.
Import ApiClient Requests.

Section Start.

Variable gunzip : string -> outcome string.
Variable hostname : string -> outcome string.
Variable network : list request -> request -> outcome response.
Variable JSON_parse : string -> outcome Json.value.

(** The setting [interfaceLanguage], [zh_CN] when it is not set. *)
Variable interfaceLanguage : string.

(** What [activate] does with the client once the commands are
    registered: [initialize], the login with the credentials that are
    kept, the switch of the language.  The result says as well whether
    the welcome message is shown.  When [initialize] fails nothing
    follows. *)
Definition start (ask : prompted) (w : world) : option (world * bool) :=
  match initialize (api w) with
  | (Thrown _, c) => Some (World c (sent w), false)
  | (Returned _, c) =>
      let w1 := World c (sent w) in
      let w2 :=
        if negb (isLoggedIn c) then
          match globalState c !! "openjudge.credentials" with
          | Some _ =>
              match loginWithPassword gunzip hostname network JSON_parse None None ask w1 with
              | Some (response, w') =>
                  match login_result response with
                  | SUCCESS =>
                      Some (switchLanguage gunzip hostname network interfaceLanguage None w')
                  | ERROR => Some w'
                  end
              | None => None
              end
          | None => Some w1
          end
        else Some w1 in
      match w2 with
      | Some w2 => Some (w2, negb (isLoggedIn (api w2)))
      | None => None
      end
  end.

End Start.

End Activation.

(** ** What a restart finds again *)

Module Lifecycle.
Import CookieJar ApiClient Requests.

(** The client is logged in and holds what is kept for it: the session
    that is stored, and the jar that is stored. *)
Definition persisted (c : client) : Prop :=
  wf (cookieJar c)
  ∧ exists s : CookieSession,
      session c = Some s
      ∧ JS.truthy (PHPSESSID s) = true
      ∧ globalState c !! "openjudge.session" = Some (StoredSession s)
      ∧ globalState c !! "openjudge.cookieJar" = Some (StoredJar (export (cookieJar c))).

(** From [c] to [c'] the session is the same, and so is all that is
    kept but for the cookie jar. *)
Definition quiet (c c' : client) : Prop :=
  session c' = session c
  ∧ forall k : string,
      k ≠ "openjudge.cookieJar" -> globalState c' !! k = globalState c !! k.

(** A request changes the client by the cookies it brings and by
    nothing else. *)
Definition cookies_only (c c' : client) : Prop :=
  c' = c
  ∨ exists (hs : list string) (host : string),
      c' = Client (session c) (setCookie (cookieJar c) hs host)
             (<["openjudge.cookieJar" :=
                  StoredJar (export (setCookie (cookieJar c) hs host))]> (globalState c)).

(** From [w] to [w'] at most [n] requests have been made. *)
Definition within (n : nat) (w w' : world) : Prop :=
  exists made : list request,
    sent w' = made ++ sent w ∧ (length made <= n)%nat.

End Lifecycle.

(** ** A site for the examples *)

Module Site.
Import ApiClient Requests.

(** The host name of an address that starts with [http://]: what
    stands before the next slash. *)
Definition host_of (url : string) : outcome string :=
  if JS.startsWith url "http://" then
    Returned (hd "" (JS.split "/" (JS.substring_from 7 url)))
  else Thrown "Invalid URL".

(** No network. *)
Definition offline (before : list request) (rq : request) : outcome response :=
  Thrown "getaddrinfo ENOTFOUND openjudge.cn".

Definition page (status : nat) (cookies : list string) (text : string) : response :=
  Response status
    (match cookies with
     | [] => ∅
     | _ => {["set-cookie" := Many cookies]}
     end)
    [text].

(** A site that hands out a session cookie on its main page, answers
    the login with [SUCCESS] and any other request with a page. *)
Definition online (before : list request) (rq : request) : outcome response :=
  if String.eqb (url rq) "http://openjudge.cn/" then
    Returned (page 200 ["PHPSESSID=s3cr3t; path=/"] "<html></html>")
  else if String.eqb (url rq) "http://openjudge.cn/api/auth/login/" then
    Returned (page 200 [] "SUCCESS")
  else Returned (page 200 [] "<html></html>").

(** Standing for [JSON.parse] in the examples: the body [SUCCESS] is
    read as an object whose [result] is that word, [null] as [null], no
    other text is read. *)
Definition parse (text : string) : outcome Json.value :=
  if String.eqb text "SUCCESS" then
    Returned (Json.Object [("result", Json.Str "SUCCESS")])
  else if String.eqb text "null" then Returned Json.Null
  else Thrown "Unexpected token < in JSON at position 0".

Definition nobody : world := World (Client None [] ∅) [].

(** A client that has logged in with a cookie. *)
Definition member_client : client :=
  let s := Session "abc123" "zh_CN" in
  let j :=
    CookieJar.set (CookieJar.set [] "PHPSESSID" "abc123" (Some "openjudge.cn") None)
      "language" "zh_CN" (Some "openjudge.cn") None in
  Client (Some s) j
    (<["openjudge.cookieJar" := StoredJar (CookieJar.export j)]>
       (<["openjudge.session" := StoredSession s]> ∅)).

Definition member : world := World member_client [].

Definition solution : SubmitRequest :=
  Submit "1234" "01" "Python3" "cHJpbnQoMSsxKQ==" "base64".

End Site.

(** * Properties *)

(** ** Strings *)

Section Strings.

Lemma append_nil (s : string) : "" +:+ s = s.
Proof. reflexivity. Qed.

Lemma append_cons (a : ascii) (s t : string) : String a s +:+ t = String a (s +:+ t).
Proof. reflexivity. Qed.

Lemma append_nil_r (s : string) : s +:+ "" = s.
Proof. induction s as [|a s IH]; [reflexivity|]. rewrite append_cons. by f_equal. Qed.

Lemma append_assoc (s t u : string) : (s +:+ t) +:+ u = s +:+ (t +:+ u).
Proof. induction s as [|a s IH]; [reflexivity|]. rewrite !append_cons. by f_equal. Qed.

Lemma rev_app_append (s acc t : string) :
  String.rev_app s acc +:+ t = String.rev_app s (acc +:+ t).
Proof.
  revert acc. induction s as [|a s IH]; intros acc; [reflexivity|].
  simpl. by rewrite IH.
Qed.

Lemma rev_cons (a : ascii) (s : string) :
  String.rev (String a s) = String.rev s +:+ String a "".
Proof. unfold String.rev. simpl. by rewrite rev_app_append. Qed.

Lemma lower_append (s t : string) :
  JS.toLowerCase (s +:+ t) = JS.toLowerCase s +:+ JS.toLowerCase t.
Proof. induction s as [|a s IH]; [reflexivity|]. rewrite append_cons. simpl. by rewrite IH. Qed.

Lemma lower_length (s : string) : String.length (JS.toLowerCase s) = String.length s.
Proof. induction s as [|a s IH]; [reflexivity|]. simpl. by rewrite IH. Qed.

Lemma startsWith_append (p r : string) : JS.startsWith (p +:+ r) p = true.
Proof.
  induction p as [|a p IH]; [by destruct r|].
  rewrite append_cons. simpl. by rewrite Ascii.eqb_refl.
Qed.

Lemma substring_from_append (p r : string) :
  JS.substring_from (String.length p) (p +:+ r) = r.
Proof. induction p as [|a p IH]; [by destruct r|]. rewrite append_cons. by simpl. Qed.

(** Cutting at a separator that the first piece does not hold. *)
Lemma split_go_free (sep : ascii) (n r cur : string) :
  Spec.free sep n ->
  JS.split_go sep cur (n +:+ String sep r)
  = (String.rev cur +:+ n) :: JS.split_go sep "" r.
Proof.
  revert cur. induction n as [|a n IH]; intros cur Hfree.
  - rewrite append_nil, append_nil_r. simpl. by rewrite Ascii.eqb_refl.
  - destruct Hfree as [Ha Hn]. rewrite append_cons. simpl.
    destruct (Ascii.eqb a sep) eqn:E; [by apply Ascii.eqb_eq in E|].
    rewrite IH by done. by rewrite rev_cons, append_assoc.
Qed.

Lemma split_free_cons (sep : ascii) (n r : string) :
  Spec.free sep n -> JS.split sep (n +:+ String sep r) = n :: JS.split sep r.
Proof. intros H. unfold JS.split. by rewrite split_go_free. Qed.

Lemma split_go_last (sep : ascii) (n cur : string) :
  Spec.free sep n -> JS.split_go sep cur n = [String.rev cur +:+ n].
Proof.
  revert cur. induction n as [|a n IH]; intros cur Hfree.
  - simpl. by rewrite append_nil_r.
  - destruct Hfree as [Ha Hn]. simpl.
    destruct (Ascii.eqb a sep) eqn:E; [by apply Ascii.eqb_eq in E|].
    rewrite IH by done. by rewrite rev_cons, append_assoc.
Qed.

Lemma split_free (sep : ascii) (n : string) :
  Spec.free sep n -> JS.split sep n = [n].
Proof. intros H. unfold JS.split. by rewrite split_go_last. Qed.

(** [split] then [join] on the same separator gives the text back. *)
Lemma join_split_go (sep : ascii) (s cur : string) :
  JS.join (String sep "") (JS.split_go sep cur s) = String.rev cur +:+ s.
Proof.
  revert cur. induction s as [|a s IH]; intros cur.
  - simpl. by rewrite append_nil_r.
  - simpl. destruct (Ascii.eqb a sep) eqn:E.
    + apply Ascii.eqb_eq in E as ->.
      assert (Hne : exists x l, JS.split_go sep "" s = x :: l).
      { clear. generalize "". induction s as [|b s IH]; intros c; simpl; [eauto|].
        destruct (Ascii.eqb b sep); eauto. }
      destruct Hne as (x & l & Hxl). specialize (IH ""). rewrite Hxl in *.
      unfold JS.join in *. simpl. simpl in IH. rewrite IH. reflexivity.
    + rewrite IH. by rewrite rev_cons, append_assoc.
Qed.

Lemma join_split (sep : ascii) (s : string) :
  JS.join (String sep "") (JS.split sep s) = s.
Proof. unfold JS.split. by rewrite join_split_go. Qed.

(** The pieces of [split] and the cut at the first [=]. *)
Lemma cut_spec (s : string) :
  hd "" (JS.split "=" s) = (Spec.cut s).1
  ∧ JS.join "=" (tl (JS.split "=" s)) = (Spec.cut s).2.
Proof.
  assert (G : forall cur,
    hd "" (JS.split_go "=" cur s) = String.rev cur +:+ (Spec.cut s).1
    ∧ JS.join "=" (tl (JS.split_go "=" cur s)) = (Spec.cut s).2).
  { induction s as [|a s IH]; intros cur.
    - simpl. by rewrite append_nil_r.
    - simpl. destruct (Ascii.eqb a "=") eqn:E.
      + simpl. rewrite append_nil_r. split; [done|].
        change "=" with (String "="%char "") at 1. by rewrite join_split_go.
      + destruct (Spec.cut s) as [n v] eqn:Hc. simpl in *.
        destruct (IH (String a cur)) as [H1 H2]. split; [|done].
        by rewrite H1, rev_cons, append_assoc. }
  destruct (G "") as [H1 H2]. by split.
Qed.

End Strings.


(** ** The cookie jar *)

Section CookieJarFacts.

Import CookieJar.

Lemma keys_map_set_in (j : jar) (k : string) (c : cookie) :
  k ∈ keys j -> keys (map_set j k c) = keys j.
Proof.
  unfold keys. induction j as [|[k' c'] j IH]; intros Hin; [by apply elem_of_nil in Hin|].
  simpl in *. destruct (String.eqb_spec k' k) as [->|Hne]; [done|].
  simpl. f_equal. apply IH. apply elem_of_cons in Hin as [?|?]; [congruence|done].
Qed.

Lemma map_set_fresh (j : jar) (k : string) (c : cookie) :
  k ∉ keys j -> map_set j k c = j ++ [(k, c)].
Proof.
  unfold keys. induction j as [|[k' c'] j IH]; intros Hout; [done|].
  simpl in *. apply not_elem_of_cons in Hout as [Hne Hout].
  destruct (String.eqb_spec k' k) as [->|_]; [done|]. by rewrite IH.
Qed.

Lemma wf_map_set (j : jar) (k : string) (c : cookie) : wf j -> wf (map_set j k c).
Proof.
  unfold wf. intros Hwf. destruct (decide (k ∈ keys j)) as [Hin|Hout].
  - by rewrite keys_map_set_in.
  - rewrite map_set_fresh by done. unfold keys. rewrite fmap_app. simpl.
    apply NoDup_app. split; [done|]. split; [|apply NoDup_singleton].
    intros x Hx ->%list_elem_of_singleton. by apply Hout.
Qed.

Lemma map_get_set_eq (j : jar) (k : string) (c : cookie) :
  map_get (map_set j k c) k = Some c.
Proof.
  induction j as [|[k' c'] j IH]; simpl.
  - by rewrite String.eqb_refl.
  - destruct (String.eqb_spec k' k) as [->|Hne]; simpl.
    + by rewrite String.eqb_refl.
    + by destruct (String.eqb_spec k' k).
Qed.

Lemma map_get_set_ne (j : jar) (k k' : string) (c : cookie) :
  k' ≠ k -> map_get (map_set j k c) k' = map_get j k'.
Proof.
  intros Hne. induction j as [|[k0 c0] j IH]; simpl.
  - by destruct (String.eqb_spec k k').
  - destruct (String.eqb_spec k0 k) as [->|Hk0]; simpl.
    + by destruct (String.eqb_spec k k').
    + by rewrite IH.
Qed.

(** A jar built from any list of entries is a map: no key twice. *)
Lemma wf_fold_set (data : list (string * cookie)) (acc : jar) :
  wf acc -> wf (fold_left (fun m e => map_set m e.1 e.2) data acc).
Proof.
  revert acc. induction data as [|e data IH]; intros acc Hwf; [done|].
  simpl. apply IH. by apply wf_map_set.
Qed.

Lemma wf_map_of (data : list (string * cookie)) : wf (map_of data).
Proof. apply wf_fold_set. apply NoDup_nil_2. Qed.

Lemma wf_setCookie (j : jar) (headers : list string) (dom : string) :
  wf j -> wf (setCookie j headers dom).
Proof.
  unfold setCookie. revert j. induction headers as [|h hs IH]; intros j Hwf; [done|].
  simpl. apply IH. unfold setCookie1.
  destruct (scan _ _) as [p d]. by apply wf_map_set.
Qed.

Lemma wf_set (j : jar) (name v : string) (dom pth : option string) :
  wf j -> wf (set j name v dom pth).
Proof. apply wf_map_set. Qed.

(** Entries without a repeated key are put back one after another. *)
Lemma fold_set_fresh (data : list (string * cookie)) (acc : jar) :
  NoDup (keys (acc ++ data)) ->
  fold_left (fun m e => map_set m e.1 e.2) data acc = acc ++ data.
Proof.
  revert acc. induction data as [|[k c] data IH]; intros acc Hnd.
  - by rewrite app_nil_r.
  - simpl. rewrite map_set_fresh.
    + rewrite IH; rewrite <- app_assoc; done.
    + unfold keys in Hnd. rewrite fmap_app in Hnd. simpl in Hnd.
      apply NoDup_app in Hnd as (_ & Hdisj & _).
      intros Hin. apply (Hdisj k Hin). apply elem_of_cons. by left.
Qed.

Lemma import_export (j0 j : jar) : wf j -> import j0 (export j) = j.
Proof. intros Hwf. unfold import, export, map_of. by rewrite fold_set_fresh. Qed.

(** C1: importing what [export()] gave yields a jar whose
    [getCookieHeader(domain)] is, for every domain, the string the
    original jar renders; the jar is a map, which holds no key twice. *)
Theorem export_import_headers (j0 j : jar) (dom : string) :
  wf j ->
  getCookieHeader (import j0 (export j)) dom = getCookieHeader j dom.
Proof.
  intros Hwf. rewrite import_export by exact Hwf. reflexivity.
Qed.

Lemma export_import_headers_witness :
  let j := setCookie [] ["SID=abc; Path=/; Domain=example.com"; "language=zh_CN"] "openjudge.cn" in
  wf j
  ∧ getCookieHeader (import [] (export j)) "cn.openjudge.cn" = getCookieHeader j "cn.openjudge.cn".
Proof.
  assert (H : wf (setCookie [] ["SID=abc; Path=/; Domain=example.com"; "language=zh_CN"]
                    "openjudge.cn")).
  { apply (bool_decide_unpack _). vm_compute. reflexivity. }
  split; [exact H|].
  exact (export_import_headers [] _ "cn.openjudge.cn" H).
Defined.

Lemma classify_path (n v : string) :
  JS.toLowerCase n = "path" -> classify (n +:+ "=" +:+ v) = APath v.
Proof.
  intros Hn. unfold classify. rewrite lower_append, Hn.
  assert (Hlen : String.length n = 4%nat) by (by rewrite <- lower_length, Hn).
  destruct n as [|c1 [|c2 [|c3 [|c4 [|c5 n]]]]]; try discriminate Hlen.
  vm_compute. reflexivity.
Qed.

Lemma classify_domain (n v : string) :
  JS.toLowerCase n = "domain" -> classify (n +:+ "=" +:+ v) = ADomain v.
Proof.
  intros Hn. unfold classify. rewrite lower_append, Hn.
  assert (Hlen : String.length n = 6%nat) by (by rewrite <- lower_length, Hn).
  destruct n as [|c1 [|c2 [|c3 [|c4 [|c5 [|c6 [|c7 n]]]]]]]; try discriminate Hlen.
  vm_compute. reflexivity.
Qed.

Lemma scan_other (before after : list string) (part dom : string) :
  classify part = AOther ->
  scan (before ++ part :: after) dom = scan (before ++ after) dom.
Proof.
  intros Hother. unfold scan. rewrite !fold_left_app. simpl.
  unfold scan_step at 2. by rewrite Hother.
Qed.

Lemma lower_char_sign (c : ascii) : JS.lower_char c = "="%char -> c = "="%char.
Proof. destruct c as [[] [] [] [] [] [] [] []]; vm_compute; congruence. Qed.

(** A part whose folded text starts with [path=] reads name=value with
    a name that folds to path. *)
Lemma prefix_path (part : string) :
  JS.startsWith (JS.toLowerCase part) "path=" = true ->
  exists n : string,
    part = n +:+ "=" +:+ JS.substring_from 5 part ∧ JS.toLowerCase n = "path".
Proof.
  destruct part as [|c1 [|c2 [|c3 [|c4 [|c5 rest]]]]];
    cbn [JS.toLowerCase JS.startsWith JS.substring_from];
    repeat match goal with
           | |- context [Ascii.eqb ?a ?b] => destruct (Ascii.eqb_spec a b)
           end; try discriminate.
  intros _.
  match goal with H : "="%char = JS.lower_char c5 |- _ =>
    symmetry in H; apply lower_char_sign in H as -> end.
  exists (String c1 (String c2 (String c3 (String c4 "")))).
  split; [reflexivity|]. cbn [JS.toLowerCase]. congruence.
Qed.

Lemma prefix_domain (part : string) :
  JS.startsWith (JS.toLowerCase part) "domain=" = true ->
  exists n : string,
    part = n +:+ "=" +:+ JS.substring_from 7 part ∧ JS.toLowerCase n = "domain".
Proof.
  destruct part as [|c1 [|c2 [|c3 [|c4 [|c5 [|c6 [|c7 rest]]]]]]];
    cbn [JS.toLowerCase JS.startsWith JS.substring_from];
    repeat match goal with
           | |- context [Ascii.eqb ?a ?b] => destruct (Ascii.eqb_spec a b)
           end; try discriminate.
  intros _.
  match goal with H : "="%char = JS.lower_char c7 |- _ =>
    symmetry in H; apply lower_char_sign in H as -> end.
  exists (String c1 (String c2 (String c3 (String c4 (String c5 (String c6 "")))))).
  split; [reflexivity|]. cbn [JS.toLowerCase]. congruence.
Qed.

(** Which parts are path attributes, which are domain attributes, and
    which are neither. *)
Lemma classify_path_iff (part v : string) :
  classify part = APath v
  <-> exists n : string, part = n +:+ "=" +:+ v ∧ JS.toLowerCase n = "path".
Proof.
  split.
  - unfold classify. destruct (JS.startsWith (JS.toLowerCase part) "path=") eqn:Hp.
    + intros [= <-]. by apply prefix_path.
    + by destruct (JS.startsWith (JS.toLowerCase part) "domain=").
  - intros (n & -> & Hn). by apply classify_path.
Qed.

Lemma classify_domain_iff (part v : string) :
  classify part = ADomain v
  <-> exists n : string, part = n +:+ "=" +:+ v ∧ JS.toLowerCase n = "domain".
Proof.
  split.
  - unfold classify. destruct (JS.startsWith (JS.toLowerCase part) "path="); [done|].
    destruct (JS.startsWith (JS.toLowerCase part) "domain=") eqn:Hd; [|done].
    intros [= <-]. by apply prefix_domain.
  - intros (n & -> & Hn). by apply classify_domain.
Qed.

Lemma classify_other_iff (part : string) :
  classify part = AOther
  <-> forall n v : string,
        part = n +:+ "=" +:+ v ->
        JS.toLowerCase n ≠ "path" ∧ JS.toLowerCase n ≠ "domain".
Proof.
  split.
  - intros Ho n v -> . split; intros Hn.
    + by rewrite (classify_path n v Hn) in Ho.
    + by rewrite (classify_domain n v Hn) in Ho.
  - intros Hno. destruct (classify part) as [v|v|] eqn:Hc; [| |done].
    + apply classify_path_iff in Hc as (n & Hpart & Hn). by destruct (Hno n v Hpart).
    + apply classify_domain_iff in Hc as (n & Hpart & Hn). by destruct (Hno n v Hpart).
Qed.

(** An attribute cut at its first [=]. *)
Lemma name_value_intro (n v : string) :
  Spec.free "=" n -> Spec.name_value (n +:+ "=" +:+ v) = Some (n, v).
Proof.
  induction n as [|a n IH]; [done|]. intros [Ha Hn]. rewrite append_cons.
  cbn [Spec.name_value]. destruct (Ascii.eqb_spec a "="); [done|]. by rewrite IH.
Qed.

Lemma name_value_elim (part n v : string) :
  Spec.name_value part = Some (n, v) -> part = n +:+ "=" +:+ v.
Proof.
  revert n. induction part as [|a part IH]; intros n; [done|]. cbn [Spec.name_value].
  destruct (Ascii.eqb_spec a "=") as [->|Ha]; [by intros [= <- <-]|].
  destruct (Spec.name_value part) as [[n' v']|]; [|done].
  intros [= <- <-]. rewrite append_cons. by rewrite <- (IH n').
Qed.

Lemma lower_free (n name : string) :
  JS.toLowerCase n = name -> Spec.free "=" name -> Spec.free "=" n.
Proof.
  revert name. induction n as [|a n IH]; intros name; [done|].
  cbn [JS.toLowerCase]. intros <- [Ha Hn]. split; [|by eapply IH].
  intros ->. by apply Ha.
Qed.

Lemma attribute_iff (name part v : string) :
  Spec.free "=" name ->
  Spec.attribute name part = Some v
  <-> exists n : string, part = n +:+ "=" +:+ v ∧ JS.toLowerCase n = name.
Proof.
  intros Hname. unfold Spec.attribute. split.
  - destruct (Spec.name_value part) as [[n v']|] eqn:Hnv; [|done].
    destruct (String.eqb_spec (JS.toLowerCase n) name) as [Hn|]; [|done].
    intros [= <-]. exists n. split; [by apply name_value_elim|done].
  - intros (n & -> & Hn). rewrite name_value_intro by by eapply lower_free.
    by rewrite Hn, String.eqb_refl.
Qed.

(** [classify] reads the attributes path and domain, in any letter
    case, and nothing else. *)
Lemma classify_attribute (part : string) :
  classify part
  = match Spec.attribute "path" part with
    | Some v => APath v
    | None =>
        match Spec.attribute "domain" part with
        | Some v => ADomain v
        | None => AOther
        end
    end.
Proof.
  assert (Hp : Spec.free "=" "path") by (cbn; intuition discriminate).
  assert (Hd : Spec.free "=" "domain") by (cbn; intuition discriminate).
  destruct (Spec.attribute "path" part) as [v|] eqn:Ep.
  { apply attribute_iff in Ep; [|done]. by apply classify_path_iff. }
  destruct (Spec.attribute "domain" part) as [v|] eqn:Ed.
  { apply attribute_iff in Ed; [|done]. by apply classify_domain_iff. }
  apply classify_other_iff. intros n v Hpart. split; intros Hn.
  - assert (H : Spec.attribute "path" part = Some v)
      by (apply attribute_iff; [done|by exists n]).
    by rewrite Ep in H.
  - assert (H : Spec.attribute "domain" part = Some v)
      by (apply attribute_iff; [done|by exists n]).
    by rewrite Ed in H.
Qed.

Lemma omap_cons {A B : Type} (f : A -> option B) (x : A) (l : list A) :
  omap f (x :: l) = match f x with Some y => y :: omap f l | None => omap f l end.
Proof. reflexivity. Qed.

Lemma last_cons_default {A : Type} (x d : A) (l : list A) :
  default d (last (x :: l)) = default x (last l).
Proof.
  destruct l as [|y l]; [done|]. change (last (x :: y :: l)) with (last (y :: l)).
  destruct (last (y :: l)) eqn:E; [done|]. by apply last_None in E.
Qed.

(** The scan of the attributes keeps, for the path and for the domain,
    the value of the last attribute of that name. *)
Lemma fold_scan_step (rest : list string) (st : string * string) :
  fold_left scan_step rest st
  = (default st.1 (last (omap (Spec.attribute "path") rest)),
     default st.2 (last (omap (Spec.attribute "domain") rest))).
Proof.
  revert st. induction rest as [|p rest IH]; intros st; [by destruct st|].
  cbn [fold_left]. rewrite IH. unfold scan_step. rewrite classify_attribute.
  rewrite !omap_cons.
  destruct (Spec.attribute "path" p) as [v|] eqn:Ep.
  - assert (Ed : Spec.attribute "domain" p = None).
    { destruct (Spec.attribute "domain" p) as [w|] eqn:Ed; [|done]. exfalso.
      apply attribute_iff in Ep as (n & Hpart & Hn); [|cbn; intuition discriminate].
      apply attribute_iff in Ed as (n' & Hpart' & Hn'); [|cbn; intuition discriminate].
      assert (H1 : Spec.name_value p = Some (n, v)).
      { rewrite Hpart. apply name_value_intro. eapply lower_free; [exact Hn|].
        cbn; intuition discriminate. }
      assert (H2 : Spec.name_value p = Some (n', w)).
      { rewrite Hpart'. apply name_value_intro. eapply lower_free; [exact Hn'|].
        cbn; intuition discriminate. }
      rewrite H1 in H2. injection H2 as <- _. by rewrite Hn in Hn'. }
    rewrite Ed. cbn [fst snd]. by rewrite last_cons_default.
  - destruct (Spec.attribute "domain" p) as [w|]; cbn [fst snd]; [|done].
    by rewrite last_cons_default.
Qed.

Lemma scan_last (rest : list string) (dom : string) :
  scan rest dom
  = (default "/" (last (omap (Spec.attribute "path") rest)),
     default dom (last (omap (Spec.attribute "domain") rest))).
Proof. unfold scan. by rewrite fold_scan_step. Qed.

(** What one header stores: the name and the record of [setCookie1]. *)
Lemma setCookie1_stores (j : jar) (dom header : string) :
  exists c : cookie,
    setCookie1 j dom header
    = map_set j (hd "" (JS.split "=" (hd "" (parts_of header)))) c
    ∧ value c = JS.split "=" (hd "" (parts_of header)) !! 1%nat
    ∧ path c = (scan (tl (parts_of header)) dom).1
    ∧ domain c = (scan (tl (parts_of header)) dom).2.
Proof.
  unfold setCookie1. destruct (scan _ _) as [p d]. by eexists.
Qed.

(** C4: the header [SID=abc; Path=/; Domain=example.com] stores exactly
    the record named SID with value abc, path / and domain example.com,
    which is what the jar then holds under SID; a part is a path (or
    domain) attribute exactly when it reads name=value with a name that
    is path (or domain) in any letter case, and its value is what
    follows the [=]; every other part changes nothing, wherever it
    stands; and the record takes the place of the one held under the
    same name, every other name keeping its record. *)
Theorem setCookie_record :
  (forall (j : jar) (dom : string),
     setCookie j ["SID=abc; Path=/; Domain=example.com"] dom
     = map_set j "SID" (Cookie (Some "abc") "example.com" "/")
     ∧ map_get (setCookie j ["SID=abc; Path=/; Domain=example.com"] dom) "SID"
       = Some (Cookie (Some "abc") "example.com" "/")
     ∧ get (setCookie j ["SID=abc; Path=/; Domain=example.com"] dom) "SID" = Some "abc")
  ∧ (forall n v : string,
       (JS.toLowerCase n = "path" -> classify (n +:+ "=" +:+ v) = APath v)
       ∧ (JS.toLowerCase n = "domain" -> classify (n +:+ "=" +:+ v) = ADomain v))
  ∧ (forall part v : string,
       (classify part = APath v
        <-> exists n : string, part = n +:+ "=" +:+ v ∧ JS.toLowerCase n = "path")
       ∧ (classify part = ADomain v
          <-> exists n : string, part = n +:+ "=" +:+ v ∧ JS.toLowerCase n = "domain"))
  ∧ (forall part : string,
       classify part = AOther
       <-> forall n v : string,
             part = n +:+ "=" +:+ v ->
             JS.toLowerCase n ≠ "path" ∧ JS.toLowerCase n ≠ "domain")
  ∧ (forall (before after : list string) (part dom : string),
       classify part = AOther ->
       scan (before ++ part :: after) dom = scan (before ++ after) dom)
  ∧ (forall (before after : list string) (part dom : string),
       (forall n v : string,
          part = n +:+ "=" +:+ v ->
          JS.toLowerCase n ≠ "path" ∧ JS.toLowerCase n ≠ "domain") ->
       scan (before ++ part :: after) dom = scan (before ++ after) dom)
  ∧ (forall part : string,
       part ∈ ["HttpOnly"; "Secure"; "Max-Age=3600"; "SameSite=Lax";
               "Expires=Wed, 21 Oct 2026 07:28:00 GMT"; "pathway=/"; "xdomain=a.b"] ->
       classify part = AOther)
  ∧ (forall (j : jar) (dom header : string),
       exists (name : string) (c : cookie),
         setCookie j [header] dom = map_set j name c
         ∧ map_get (setCookie j [header] dom) name = Some c
         ∧ (forall k : string, k ≠ name ->
              map_get (setCookie j [header] dom) k = map_get j k)
         ∧ (name ∈ keys j -> keys (setCookie j [header] dom) = keys j)
         ∧ (wf j -> wf (setCookie j [header] dom))).
Proof.
  split; [|split; [|split; [|split; [|split; [|split; [|split]]]]]].
  - intros j dom.
    assert (Heq : setCookie j ["SID=abc; Path=/; Domain=example.com"] dom
                  = map_set j "SID" (Cookie (Some "abc") "example.com" "/"))
      by (vm_compute; reflexivity).
    rewrite Heq. split; [reflexivity|]. unfold get. by rewrite map_get_set_eq.
  - intros n v. split; [apply classify_path|apply classify_domain].
  - intros part v. split; [apply classify_path_iff|apply classify_domain_iff].
  - apply classify_other_iff.
  - apply scan_other.
  - intros before after part dom Hno. apply scan_other. by apply classify_other_iff.
  - intros part Hin.
    repeat (apply elem_of_cons in Hin as [->|Hin]; [by vm_compute|]).
    by apply elem_of_nil in Hin.
  - intros j dom header.
    destruct (setCookie1_stores j dom header) as (c & Heq & _).
    exists (hd "" (JS.split "=" (hd "" (parts_of header)))), c.
    unfold setCookie. simpl. rewrite Heq.
    split; [reflexivity|]. split; [apply map_get_set_eq|].
    split; [intros k Hk; by apply map_get_set_ne|].
    split; [apply keys_map_set_in|apply wf_map_set].
Qed.

(** C10: the value of a [Set-Cookie] header is cut at its second [=]:
    [SID=a=b; Path=/] stores the value a, which is what [get] then
    answers for SID, and in general a header whose first part reads
    n=a=r stores a under n and [get] answers a for n; the pair loop of
    the manual cookie login keeps everything after the first [=], here
    a=r. *)
Theorem setCookie_value_cut :
  (forall (j : jar) (dom : string),
     setCookie j ["SID=a=b; Path=/"] dom = map_set j "SID" (Cookie (Some "a") dom "/")
     ∧ map_get (setCookie j ["SID=a=b; Path=/"] dom) "SID" = Some (Cookie (Some "a") dom "/")
     ∧ get (setCookie j ["SID=a=b; Path=/"] dom) "SID" = Some "a")
  ∧ (forall (j : jar) (dom header n a r : string),
       hd "" (parts_of header) = n +:+ "=" +:+ a +:+ "=" +:+ r ->
       Spec.free "=" n -> Spec.free "=" a ->
       get (setCookie j [header] dom) n = Some a
       ∧ exists c : cookie,
           setCookie j [header] dom = map_set j n c ∧ value c = Some a
           ∧ map_get (setCookie j [header] dom) n = Some c)
  ∧ (forall (st : string * string) (n a r : string),
       Spec.free "=" n -> JS.trim n = "PHPSESSID" ->
       (ApiClient.pair_step st (n +:+ "=" +:+ a +:+ "=" +:+ r)).1
       = JS.trim (a +:+ "=" +:+ r))
  ∧ ApiClient.parse_cookies "PHPSESSID=a=b; Path=/" = ("a=b", "zh_CN").
Proof.
  split; [|split; [|split]].
  - intros j dom.
    assert (Heq : setCookie j ["SID=a=b; Path=/"] dom
                  = map_set j "SID" (Cookie (Some "a") dom "/"))
      by (vm_compute; reflexivity).
    rewrite Heq. split; [reflexivity|]. unfold get. by rewrite map_get_set_eq.
  - intros j dom header n a r Hhd Hn Ha.
    destruct (setCookie1_stores j dom header) as (c & Heq & Hval & _).
    assert (Hname : hd "" (JS.split "=" (hd "" (parts_of header))) = n
                    ∧ JS.split "=" (hd "" (parts_of header)) !! 1%nat = Some a).
    { rewrite Hhd.
      change ("=" +:+ a +:+ "=" +:+ r) with (String "="%char (a +:+ String "="%char r)).
      rewrite split_free_cons by done. rewrite split_free_cons by done. done. }
    destruct Hname as [Hname Hsnd]. rewrite Hname in Heq. rewrite Hsnd in Hval.
    assert (Hset : setCookie j [header] dom = map_set j n c) by exact Heq.
    rewrite Hset. split.
    + unfold get. rewrite map_get_set_eq. exact Hval.
    + exists c. split; [reflexivity|]. split; [exact Hval|apply map_get_set_eq].
  - intros st n a r Hn Htrim. unfold ApiClient.pair_step.
    destruct (cut_spec (n +:+ "=" +:+ a +:+ "=" +:+ r)) as [H1 H2].
    assert (Hcut : Spec.cut (n +:+ "=" +:+ a +:+ "=" +:+ r) = (n, a +:+ "=" +:+ r)).
    { clear -Hn. induction n as [|x n IH]; [reflexivity|].
      destruct Hn as [Hx Hn]. rewrite append_cons. simpl.
      destruct (Ascii.eqb x "=") eqn:E; [by apply Ascii.eqb_eq in E|].
      by rewrite IH. }
    rewrite H1, H2, Hcut. simpl. rewrite Htrim. reflexivity.
  - vm_compute. reflexivity.
Qed.

End CookieJarFacts.


(** ** The API client *)

Section ApiClientFacts.

Import CookieJar ApiClient.

Variable gunzip : string -> outcome string.







(** Text of ASCII alone is read as it is. *)
Lemma toString_ascii (s : string) : Spec.ascii_only s = true -> JS.toString s = s.
Proof.
  unfold JS.toString. induction s as [|c s IH]; [done|].
  cbn [Spec.ascii_only JS.utf8_decode]. intros [Hc Hs]%andb_true_iff.
  unfold JS.utf8_lead. cbv zeta. rewrite Hc. rewrite append_cons, append_nil.
  by rewrite IH.
Qed.



(** A request leaves the session of the client as it was. *)
Lemma makeRequest_session (host : string) (reply : outcome response) (c : client) :
  session (makeRequest gunzip host reply c).2 = session c.
Proof.
  unfold makeRequest. destruct reply as [r|m]; [|done].
  destruct (headers r !! "set-cookie") as [h|];
    [destruct (header_truthy h)|];
    destruct (read_body gunzip r); try destruct (400 <=? statusCode r)%nat; done.
Qed.


Lemma pair_step_spec (st : string * string) (p : string) :
  pair_step st p
  = if String.eqb (Spec.pair_name p) "PHPSESSID" then (Spec.pair_value p, st.2)
    else if String.eqb (Spec.pair_name p) "language" then (st.1, Spec.pair_value p)
    else st.
Proof.
  unfold pair_step, Spec.pair_name, Spec.pair_value.
  destruct (cut_spec p) as [-> ->]. reflexivity.
Qed.

(** The loop over the pairs keeps, for each of the two names, the value
    of the last pair that carries it. *)
Lemma fold_pair_step (ps : list string) (st : string * string) :
  fold_left pair_step ps st
  = (default st.1 (Spec.last_value "PHPSESSID" ps),
     default st.2 (Spec.last_value "language" ps)).
Proof.
  revert st. induction ps as [|p ps IH]; intros st; [by destruct st|].
  simpl. rewrite IH, pair_step_spec.
  destruct (Spec.last_value "PHPSESSID" ps) as [v|],
           (Spec.last_value "language" ps) as [w|];
    destruct (String.eqb_spec (Spec.pair_name p) "PHPSESSID") as [Hp|Hp];
    destruct (String.eqb_spec (Spec.pair_name p) "language") as [Hl|Hl];
    try reflexivity; rewrite Hp in Hl; discriminate Hl.
Qed.

Lemma parse_cookies_spec (text : string) :
  parse_cookies text
  = (default "" (Spec.last_value "PHPSESSID" (Spec.pairs text)),
     default "zh_CN" (Spec.last_value "language" (Spec.pairs text))).
Proof. unfold parse_cookies. by rewrite fold_pair_step. Qed.

Lemma last_value_none (name : string) (ps : list string) :
  (forall p : string, p ∈ ps -> Spec.pair_name p ≠ name) ->
  Spec.last_value name ps = None.
Proof.
  induction ps as [|p ps IH]; intros Hall; [done|].
  simpl. rewrite IH by (intros q Hq; apply Hall; by apply elem_of_cons; right).
  destruct (String.eqb_spec (Spec.pair_name p) name) as [Heq|]; [|done].
  exfalso. apply (Hall p); [by apply elem_of_cons; left|done].
Qed.

(** The two ways [loginWithCookie] ends once a text was entered. *)
Lemma loginWithCookie_cases (dlg : dialog) (c : client) (text : string) :
  proceed dlg = Some "继续" ->
  cookieString dlg = Some text ->
  let out := loginWithCookie gunzip dlg c in
  let sid := default "" (Spec.last_value "PHPSESSID" (Spec.pairs text)) in
  if JS.truthy sid
  then auth_result out.1 = SUCCESS
       ∧ session out.2 = Some (Session sid (Spec.locale_of dlg text))
  else auth_result out.1 = ERROR ∧ out.2 = c.
Proof.
  intros Hgo Htext out sid. subst out. unfold loginWithCookie.
  rewrite Hgo, Htext. rewrite bool_decide_eq_true_2 by reflexivity.
  destruct text as [|a text].
  { subst sid. vm_compute. done. }
  cbn [negb]. rewrite parse_cookies_spec. fold sid.
  destruct (JS.truthy sid) eqn:Hsid; cbn [negb]; [|done].
  fold (Spec.locale_of dlg (String a text)).
  match goal with
  | |- context [makeRequest gunzip ?h ?r ?x] =>
      pose proof (makeRequest_session h r x) as Hs;
      destruct (makeRequest gunzip h r x) as [[res|m] c']
  end.
  - simpl in Hs. destruct (result_statusCode res =? 200)%nat; simpl; by rewrite Hs.
  - simpl in Hs. simpl. by rewrite Hs.
Qed.

(** C5: for every text entered in the cookie login, a
    session is established exactly when the last pair named PHPSESSID
    (pairs cut at [;], each cut at its first [=] only, names and values
    trimmed) has a value that is not empty; the session id is then that
    value and the locale the configured interface language, or without
    one the value of the last pair named language, or zh_CN; a text with
    no pair named PHPSESSID ends in an error and leaves the client as it
    was; [PHPSESSID=xyz789; language=en_US], with no language
    configured, gives the session id xyz789 and the locale en_US. *)
Theorem loginWithCookie_session (dlg : dialog) (c : client) (text : string) :
  proceed dlg = Some "继续" ->
  cookieString dlg = Some text ->
  let out := loginWithCookie gunzip dlg c in
  let sid := Spec.last_value "PHPSESSID" (Spec.pairs text) in
  (auth_result out.1 = SUCCESS <-> exists v : string, sid = Some v ∧ v ≠ "")
  ∧ (forall v : string, sid = Some v -> v ≠ "" ->
       session out.2 = Some (Session v (Spec.locale_of dlg text)))
  ∧ (auth_result out.1 = ERROR -> out.2 = c)
  ∧ ((forall p : string, p ∈ Spec.pairs text -> Spec.pair_name p ≠ "PHPSESSID") ->
       auth_result out.1 = ERROR)
  ∧ (text = "PHPSESSID=xyz789; language=en_US" -> configuredLanguage dlg = None ->
       session out.2 = Some (Session "xyz789" "en_US")).
Proof.
  intros Hgo Htext out sid.
  pose proof (loginWithCookie_cases dlg c text Hgo Htext) as Hcases.
  cbv zeta in Hcases. fold out sid in Hcases.
  assert (Hsid : forall v : string, sid = Some v -> v ≠ "" ->
            auth_result out.1 = SUCCESS
            ∧ session out.2 = Some (Session v (Spec.locale_of dlg text))).
  { intros v Hv Hne. rewrite Hv in Hcases. simpl in Hcases.
    destruct v; [done|]. exact Hcases. }
  assert (Hnone : (sid = None ∨ sid = Some "") ->
            auth_result out.1 = ERROR ∧ out.2 = c).
  { intros [Hv|Hv]; rewrite Hv in Hcases; exact Hcases. }
  split; [|split; [|split; [|split]]].
  - split.
    + intros Hok. destruct sid as [[|a v]|] eqn:E.
      * destruct Hnone as [Herr _]; [by right|]. rewrite Hok in Herr. discriminate Herr.
      * by exists (String a v).
      * destruct Hnone as [Herr _]; [by left|]. rewrite Hok in Herr. discriminate Herr.
    + intros (v & Hv & Hne). by destruct (Hsid v Hv Hne).
  - intros v Hv Hne. by destruct (Hsid v Hv Hne).
  - intros Herr. destruct sid as [[|a v]|] eqn:E.
    + by destruct Hnone as [_ ?]; [right|].
    + destruct (Hsid (String a v) eq_refl) as [Hok _]; [done|].
      rewrite Hok in Herr. discriminate Herr.
    + by destruct Hnone as [_ ?]; [left|].
  - intros Hall. destruct Hnone as [Herr _]; [|exact Herr].
    left. by apply last_value_none.
  - intros -> Hconf.
    destruct (Hsid "xyz789") as [_ Hs]; [by vm_compute|done|].
    rewrite Hs. unfold Spec.locale_of. rewrite Hconf. by vm_compute.
Qed.

(** C9: [clearSession] ends without an error whatever the client holds,
    leaves no session, an empty jar and none of the three stored keys,
    touches no other key, and a second call changes nothing more. *)
Theorem clearSession_idempotent (c : client) :
  let first := clearSession c in
  let second := clearSession first.2 in
  first.1 = Returned ()
  ∧ second.1 = Returned ()
  ∧ second.2 = first.2
  ∧ session first.2 = None
  ∧ isLoggedIn first.2 = false
  ∧ cookieJar first.2 = []
  ∧ globalState first.2 !! "openjudge.session" = None
  ∧ globalState first.2 !! "openjudge.cookieJar" = None
  ∧ globalState first.2 !! "openjudge.credentials" = None
  ∧ (forall k : string,
       k ∉ ["openjudge.session"; "openjudge.cookieJar"; "openjudge.credentials"] ->
       globalState first.2 !! k = globalState c !! k).
Proof.
  intros first second. subst first second. unfold clearSession, update, clear. simpl.
  split; [done|]. split; [done|]. split.
  { f_equal. apply map_eq. intros k. rewrite !lookup_delete.
    repeat case_decide; done. }
  split; [done|]. split; [done|]. split; [done|].
  split; [by rewrite !lookup_delete; repeat case_decide|].
  split; [by rewrite !lookup_delete; repeat case_decide|].
  split; [by rewrite !lookup_delete; repeat case_decide|].
  intros k Hk. rewrite !lookup_delete.
  repeat case_decide; try done; subst k; exfalso; apply Hk; set_solver.
Qed.

End ApiClientFacts.

Section ApiClientExamples.

Import CookieJar ApiClient.



(** Seventy characters of three bytes each are 70 code units: the cut
    at 200 keeps them all. *)
Lemma substring_to_code_units :
  String.length (Fixture.times 70 "题") = 210%nat
  ∧ JS.substring_to 200 (Fixture.times 70 "题") = Fixture.times 70 "题".
Proof. split; by vm_compute. Qed.

(** A character cut in two by the chunks is lost: each chunk is read
    on its own. *)
Lemma read_body_split_character :
  read_body Fixture.plain (Response 200 ∅ [Fixture.bytes [233; 162]%N; Fixture.bytes [152]%N])
  = Returned (JS.replacement +:+ JS.replacement)
  ∧ read_body Fixture.plain (Response 200 ∅ [Fixture.bytes [233; 162; 152]%N])
    = Returned "题".
Proof. split; by vm_compute. Qed.

Lemma loginWithCookie_session_witness :
  session (loginWithCookie Fixture.plain
             (Dialog (Some "继续") (Some "PHPSESSID=xyz789; language=en_US") None
                     (Returned (Response 200 ∅ ["<html></html>"])))
             Fixture.nobody).2
  = Some (Session "xyz789" "en_US").
Proof.
  pose proof (loginWithCookie_session Fixture.plain
                (Dialog (Some "继续") (Some "PHPSESSID=xyz789; language=en_US") None
                        (Returned (Response 200 ∅ ["<html></html>"])))
                Fixture.nobody "PHPSESSID=xyz789; language=en_US" eq_refl eq_refl)
    as (_ & _ & _ & _ & H).
  apply H; reflexivity.
Defined.

(** A text that holds a pair named PHPSESSID with a value, and passes
    the check of the input box, yet establishes no session: a later
    pair of the same name, with no value, wins. *)
Lemma loginWithCookie_last_pair_wins :
  validateInput "PHPSESSID=abc; PHPSESSID=" = None
  ∧ Spec.has_pair "PHPSESSID" "PHPSESSID=abc; PHPSESSID="
  ∧ loginWithCookie Fixture.plain
      (Dialog (Some "继续") (Some "PHPSESSID=abc; PHPSESSID=") None
              (Returned (Response 200 ∅ ["<html></html>"])))
      Fixture.nobody
    = (Auth ERROR "Cookie 中未找到 PHPSESSID" None, Fixture.nobody).
Proof.
  split; [by vm_compute|]. split.
  - exists "PHPSESSID=abc". split; [|split].
    + apply (bool_decide_unpack _). by vm_compute.
    + by vm_compute.
    + by vm_compute.
  - by vm_compute.
Qed.

End ApiClientExamples.

(** ** The polling loop *)

Section PollingFacts.

Import SubmissionService.

Variable pages : nat -> fetch.

Local Abbreviation final_at := (Spec.final_at pages).
Local Abbreviation pending_at := (Spec.pending_at pages).
Local Abbreviation started := (Spec.started pages).

(** [updateStatus] with its branches laid out. *)
Lemma updateStatus_eq (st : poll) :
  updateStatus pages st
  = let cleared := match interval st with Unset => Unset | _ => Cleared end in
    match pages (requests st) with
    | Fetched page =>
        if is_final (HtmlParser.status_of page) || (maxAttempts <=? attempts st)%nat
        then Poll (S (attempts st)) cleared (S (requests st))
        else Poll (S (attempts st)) (interval st) (S (requests st))
    | Failed _ => Poll (attempts st) cleared (S (requests st))
    end.
Proof.
  unfold updateStatus, clearInterval. cbv zeta.
  destruct (pages (requests st)) as [page|m]; cbn [attempts interval requests].
  - destruct (is_final (HtmlParser.status_of page) || (maxAttempts <=? attempts st)%nat);
      cbn [attempts interval requests]; destruct (interval st); reflexivity.
  - destruct (interval st); reflexivity.
Qed.

Lemma updateStatus_requests (st : poll) :
  requests (updateStatus pages st) = S (requests st).
Proof.
  rewrite updateStatus_eq. cbv zeta.
  destruct (pages (requests st)) as [page|m]; [|reflexivity].
  destruct (is_final _ || _); reflexivity.
Qed.

(** A first update cannot clear the timer: it is not yet assigned. *)
Lemma updateStatus_unset (st : poll) :
  interval st = Unset -> interval (updateStatus pages st) = Unset.
Proof.
  intros Hu. rewrite updateStatus_eq. cbv zeta. rewrite Hu.
  destruct (pages (requests st)) as [page|m]; [|reflexivity].
  destruct (is_final _ || _); reflexivity.
Qed.

Lemma updateStatus_final (st : poll) :
  final_at (requests st) -> interval st = Running ->
  updateStatus pages st = Poll (S (attempts st)) Cleared (S (requests st)).
Proof.
  intros (page & Hp & Hf) Hr. rewrite updateStatus_eq. cbv zeta.
  rewrite Hp, Hf, Hr. reflexivity.
Qed.

Lemma updateStatus_pending (st : poll) :
  pending_at (requests st) -> (attempts st < maxAttempts)%nat ->
  updateStatus pages st = Poll (S (attempts st)) (interval st) (S (requests st)).
Proof.
  intros (page & Hp & Hf) Hlt. rewrite updateStatus_eq. cbv zeta. rewrite Hp, Hf.
  destruct (Nat.leb_spec maxAttempts (attempts st)); [lia|reflexivity].
Qed.

Lemma updateStatus_ceiling (st : poll) :
  pending_at (requests st) -> (maxAttempts <= attempts st)%nat -> interval st = Running ->
  updateStatus pages st = Poll (S (attempts st)) Cleared (S (requests st)).
Proof.
  intros (page & Hp & Hf) Hge Hr. rewrite updateStatus_eq. cbv zeta. rewrite Hp, Hf, Hr.
  destruct (Nat.leb_spec maxAttempts (attempts st)); [reflexivity|lia].
Qed.

(** Once the timer is cleared nothing more happens. *)
Lemma tick_cleared (closing : option nat) (ticks fired : nat) (st : poll) :
  interval st = Cleared -> tick pages closing ticks fired st = st.
Proof.
  intros Hc. destruct ticks as [|ticks]; [reflexivity|]. cbn [tick].
  rewrite Hc. case_bool_decide; [|reflexivity].
  unfold clearInterval. rewrite Hc. destruct st; cbn in *; by subst.
Qed.

(** What one update of a running timer does: one request, and either
    the timer is cleared or one attempt below the ceiling is used up. *)
Lemma updateStatus_shape (st : poll) :
  interval st = Running ->
  requests (updateStatus pages st) = S (requests st)
  ∧ (interval (updateStatus pages st) = Cleared
     ∨ (interval (updateStatus pages st) = Running
        ∧ attempts (updateStatus pages st) = S (attempts st)
        ∧ (attempts st < maxAttempts)%nat)).
Proof.
  intros Hr. split; [apply updateStatus_requests|].
  rewrite updateStatus_eq. cbv zeta. rewrite Hr.
  destruct (pages (requests st)) as [page|m]; [|by left].
  destruct (is_final (HtmlParser.status_of page)); [by left|].
  destruct (Nat.leb_spec maxAttempts (attempts st)); [by left|].
  right. by cbn.
Qed.

(** The timer stops: when the firings outnumber the attempts left, the
    loop ends cleared, and it has issued no more requests than that. *)
Lemma tick_stops (closing : option nat) (ticks fired : nat) (st : poll) :
  interval st = Running ->
  (attempts st <= maxAttempts)%nat ->
  (maxAttempts < attempts st + ticks)%nat ->
  interval (tick pages closing ticks fired st) = Cleared
  ∧ (requests (tick pages closing ticks fired st) + attempts st
     <= requests st + S maxAttempts)%nat.
Proof.
  revert fired st. induction ticks as [|ticks IH]; intros fired st Hr Hle Hlt; [lia|].
  cbn [tick]. case_bool_decide.
  { unfold clearInterval. rewrite Hr. cbn [interval requests]. split; [reflexivity|lia]. }
  rewrite Hr. destruct (updateStatus_shape st Hr) as [Hreq [Hc|(Hrun & Hatt & Hroom)]].
  - rewrite tick_cleared by exact Hc. split; [exact Hc|]. rewrite Hreq. lia.
  - destruct (IH (S fired) (updateStatus pages st) Hrun) as [Hc Hbound]; [lia|lia|].
    split; [exact Hc|]. rewrite Hreq, Hatt in Hbound. lia.
Qed.

Lemma started_shape :
  requests started = 1%nat ∧ interval started = Running ∧ (attempts started <= 1)%nat.
Proof.
  unfold Spec.started. cbv zeta. cbn [requests interval attempts].
  rewrite updateStatus_requests. split; [reflexivity|]. split; [reflexivity|].
  rewrite updateStatus_eq. cbv zeta. cbn [requests interval attempts].
  destruct (pages 0) as [page|m]; [|cbn; lia].
  destruct (is_final _ || _); cbn; lia.
Qed.

(** The polling loop ends whatever the pages are: after 31 firings the
    timer is cleared, and no more than 32 requests were made. *)
Lemma poll_terminates (closing : option nat) (ticks : nat) :
  (S maxAttempts <= ticks)%nat ->
  interval (showSubmissionStatus pages closing ticks) = Cleared
  ∧ (requests (showSubmissionStatus pages closing ticks) <= S (S maxAttempts))%nat.
Proof.
  intros Hticks. destruct started_shape as (Hreq & Hrun & Hatt).
  change (showSubmissionStatus pages closing ticks)
    with (tick pages closing ticks O started).
  destruct (tick_stops closing ticks O started Hrun) as [Hc Hb].
  - unfold maxAttempts. lia.
  - lia.
  - split; [exact Hc|]. rewrite Hreq in Hb. lia.
Qed.

(** From a running timer at request [i], with the pages before [k] all
    pending and attempts to spare, the loop reaches request [k]. *)
Lemma tick_pending (k : nat) :
  forall (i a fired ticks : nat),
    (i <= k)%nat ->
    (forall n : nat, (i <= n < k)%nat -> pending_at n) ->
    (a + (k - i) <= maxAttempts)%nat ->
    tick pages None (k - i + ticks) fired (Poll a Running i)
    = tick pages None ticks (fired + (k - i)) (Poll (a + (k - i)) Running k).
Proof.
  intros i a fired ticks Hik. remember (k - i)%nat as d eqn:Hd.
  revert i a fired Hik Hd. induction d as [|d IH]; intros i a fired Hik Hd Hpend Hroom.
  - assert (i = k) as -> by lia. by rewrite !Nat.add_0_r.
  - cbn [Nat.add tick]. rewrite bool_decide_eq_false_2 by discriminate.
    cbn [interval]. rewrite updateStatus_pending.
    + cbn [attempts interval requests]. rewrite (IH (S i) (S a) (S fired)).
      * f_equal; [lia|f_equal; lia].
      * lia.
      * lia.
      * intros n Hn. apply Hpend. lia.
      * lia.
    + apply Hpend. cbn [requests]. lia.
    + cbn [attempts]. lia.
Qed.

Lemma tick_requests_mono (closing : option nat) (ticks fired : nat) (st : poll) :
  (requests st <= requests (tick pages closing ticks fired st))%nat.
Proof.
  revert fired st. induction ticks as [|ticks IH]; intros fired st; [reflexivity|].
  cbn [tick]. case_bool_decide.
  { unfold clearInterval. destruct (interval st); reflexivity. }
  destruct (interval st); try reflexivity.
  etrans; [|apply IH]. rewrite updateStatus_requests. lia.
Qed.

Lemma started_final : final_at 0 -> started = Poll 1 Running 1.
Proof.
  intros (page & Hp & Hf). unfold Spec.started. rewrite updateStatus_eq. cbv zeta.
  cbn [requests attempts interval]. rewrite Hp, Hf. reflexivity.
Qed.

Lemma started_pending : pending_at 0 -> started = Poll 1 Running 1.
Proof.
  intros (page & Hp & Hf). unfold Spec.started. rewrite updateStatus_eq. cbv zeta.
  cbn [requests attempts interval]. rewrite Hp, Hf. reflexivity.
Qed.

(** A final status first shown by a later response, up to the 30th
    after the first, stops the polling at that very response. *)
Lemma poll_stops_at_final (k ticks : nat) :
  (1 <= k <= maxAttempts)%nat ->
  (forall n : nat, (n < k)%nat -> pending_at n) ->
  final_at k ->
  (k <= ticks)%nat ->
  showSubmissionStatus pages None ticks = Poll (S k) Cleared (S k).
Proof.
  intros Hk Hpend Hfin Hticks.
  change (showSubmissionStatus pages None ticks) with (tick pages None ticks O started).
  rewrite started_pending by (apply Hpend; lia).
  replace ticks with (k - 1 + S (ticks - k))%nat by lia.
  rewrite tick_pending; [|lia|intros n Hn; apply Hpend; lia|lia].
  replace (1 + (k - 1))%nat with k by lia.
  cbn [tick]. rewrite bool_decide_eq_false_2 by discriminate. cbn [interval].
  rewrite updateStatus_final by done. cbn [attempts requests].
  by rewrite tick_cleared.
Qed.

(** With no final status and no failure the loop makes 31 requests. *)
Lemma poll_ceiling (ticks : nat) :
  (forall n : nat, pending_at n) ->
  (maxAttempts <= ticks)%nat ->
  showSubmissionStatus pages None ticks = Poll (S maxAttempts) Cleared (S maxAttempts).
Proof.
  intros Hpend Hticks.
  change (showSubmissionStatus pages None ticks) with (tick pages None ticks O started).
  rewrite started_pending by apply Hpend.
  replace ticks with (maxAttempts - 1 + S (ticks - maxAttempts))%nat
    by (unfold maxAttempts in *; lia).
  rewrite tick_pending; [|unfold maxAttempts; lia|intros n _; apply Hpend
                         |unfold maxAttempts; lia].
  replace (1 + (maxAttempts - 1))%nat with maxAttempts by (unfold maxAttempts; lia).
  cbn [tick]. rewrite bool_decide_eq_false_2 by discriminate. cbn [interval].
  rewrite updateStatus_ceiling; [|apply Hpend|cbn; lia|reflexivity].
  cbn [attempts requests]. by rewrite tick_cleared.
Qed.

Lemma clearInterval_requests (st : poll) : requests (clearInterval st) = requests st.
Proof. unfold clearInterval. by destruct (interval st). Qed.

Lemma settle_requests (answer : fetch) (st : poll) :
  requests (settle answer st) = requests st.
Proof.
  unfold settle. destruct answer as [page|m]; [|apply clearInterval_requests].
  cbv zeta. destruct (is_final _ || _); cbn [requests]; [|done].
  apply clearInterval_requests.
Qed.

(** No event takes a request back, in whatever order the timer fires
    and the answers come. *)
Lemma step_requests_le (strict : bool) (s : run) (e : event) :
  (requests (loop s) <= requests (loop (step pages strict s e)))%nat.
Proof.
  destruct e as [|i|]; unfold step.
  - destruct (interval (loop s)); cbn [loop issue requests]; lia.
  - case_bool_decide; [|lia]. cbv zeta.
    destruct (closed s && strict); cbn [loop]; [lia|]. rewrite settle_requests. lia.
  - destruct (closed s); cbn [loop]; [lia|]. rewrite clearInterval_requests. lia.
Qed.

Lemma fold_requests_le (strict : bool) (events : list event) (s : run) :
  (requests (loop s) <= requests (loop (fold_left (step pages strict) events s)))%nat.
Proof.
  revert s. induction events as [|e events IH]; intros s; [cbn; lia|].
  cbn [fold_left]. etrans; [apply (step_requests_le strict s e)|apply IH].
Qed.

(** C3: when the first response
    already shows a final status the polling does not stop there: the
    timer is started all the same, and once it fires a second request is
    made; when the second response is final as well, the loop ends
    after exactly two requests.  The second request does not depend on
    when the answers come: in every order of firings and answers the
    first firing of the timer makes it. *)
Theorem poll_first_final_continues (ticks : nat) :
  final_at 0 ->
  (1 <= ticks)%nat ->
  interval started = Running
  ∧ (2 <= requests (showSubmissionStatus pages None ticks))%nat
  ∧ (final_at 1 -> showSubmissionStatus pages None ticks = Poll 2 Cleared 2)
  ∧ (forall (strict : bool) (events : list event),
       start pages = Poll 1 Running 1
       ∧ requests (loop (polling pages strict [Fire])) = 2%nat
       ∧ (2 <= requests (loop (polling pages strict (Fire :: events))))%nat).
Proof.
  intros Hfin Hticks.
  change (showSubmissionStatus pages None ticks) with (tick pages None ticks O started).
  change (start pages) with started. unfold polling.
  change (start pages) with started.
  rewrite (started_final Hfin). split; [reflexivity|].
  destruct ticks as [|ticks]; [lia|]. cbn [tick].
  rewrite bool_decide_eq_false_2 by discriminate. cbn [interval]. split; [|split].
  - etrans; [|apply tick_requests_mono]. rewrite updateStatus_requests. cbn. lia.
  - intros Hfin1. rewrite updateStatus_final by done. cbn [attempts requests].
    by rewrite tick_cleared.
  - intros strict events. split; [reflexivity|]. split; [reflexivity|].
    cbn [fold_left]. etrans; [|apply fold_requests_le]. cbn. lia.
Qed.

End PollingFacts.

Section PollingExamples.

Import SubmissionService.

Lemma poll_first_final_continues_witness :
  showSubmissionStatus (fun _ => Fetched (Fixture.status_page "Accepted")) None 5
  = Poll 2 Cleared 2.
Proof.
  assert (H : Spec.final_at (fun _ => Fetched (Fixture.status_page "Accepted")) 0).
  { exists (Fixture.status_page "Accepted"). split; [reflexivity|]. vm_compute. reflexivity. }
  assert (H1 : Spec.final_at (fun _ => Fetched (Fixture.status_page "Accepted")) 1).
  { exists (Fixture.status_page "Accepted"). split; [reflexivity|]. vm_compute. reflexivity. }
  assert (Hticks : (1 <= 5)%nat) by lia.
  exact (proj1 (proj2 (proj2 (poll_first_final_continues _ 5 H Hticks))) H1).
Defined.

End PollingExamples.

(** ** Numerals and the pattern of a problem count *)

Section Numerals.

Ltac N_cases :=
  repeat match goal with
         | |- context [N.leb ?a ?b] => destruct (N.leb_spec a b)
         | |- context [N.eqb ?a ?b] => destruct (N.eqb_spec a b)
         | |- context [N.ltb ?a ?b] => destruct (N.ltb_spec a b)
         end; cbn [andb orb negb]; try reflexivity; try lia.

Lemma is_digit_range (c : ascii) :
  JS.is_digit c = true <-> (48 <= JS.code c <= 57)%N.
Proof.
  unfold JS.is_digit. cbv zeta. split.
  - intros H. apply andb_true_iff in H as [H1 H2].
    apply N.leb_le in H1, H2. lia.
  - intros [H1 H2]. apply andb_true_iff. split; apply N.leb_le; lia.
Qed.

Lemma ws_head_ascii (c : ascii) (s : string) :
  (33 <= JS.code c < 128)%N -> JS.ws_head (String c s) = None.
Proof.
  intros Hc. unfold JS.ws_head.
  assert (H1 : JS.ws1 (JS.code c) = false) by (unfold JS.ws1; N_cases).
  rewrite H1. destruct s as [|b s]; [reflexivity|].
  assert (H2 : JS.ws2 (JS.code c) (JS.code b) = false) by (unfold JS.ws2; N_cases).
  rewrite H2. destruct s as [|d s]; [reflexivity|].
  assert (H3 : JS.ws3 (JS.code c) (JS.code b) (JS.code d) = false).
  { unfold JS.ws3.
    destruct (N.eqb_spec (JS.code c) 225); [lia|].
    destruct (N.eqb_spec (JS.code c) 226); [lia|].
    destruct (N.eqb_spec (JS.code c) 227); [lia|].
    destruct (N.eqb_spec (JS.code c) 239); [lia|]. reflexivity. }
  by rewrite H3.
Qed.

Lemma trimStart_ascii (c : ascii) (s : string) :
  (33 <= JS.code c < 128)%N -> JS.trimStart (String c s) = String c s.
Proof.
  intros Hc. unfold JS.trimStart. cbn [String.length JS.strip].
  by rewrite ws_head_ascii.
Qed.

Lemma digit_decimal (c : ascii) :
  JS.is_digit c = true -> JS.digit 10 c = Some (JS.code c - 48)%N.
Proof.
  intros H%is_digit_range. unfold JS.digit. cbv zeta.
  destruct (N.leb_spec 48 (JS.code c)); [|lia].
  destruct (N.leb_spec (JS.code c) 57); [|lia]. cbn [andb].
  destruct (N.ltb_spec (JS.code c - 48) 10); [reflexivity|lia].
Qed.

Lemma read_digits_all (s : string) (acc : N) (n : nat) :
  Spec.all_digits s = true ->
  JS.read_digits 10 acc n s = (Spec.decimal_go acc s, (n + String.length s)%nat).
Proof.
  revert acc n. induction s as [|c s IH]; intros acc n Hall.
  - cbn. by rewrite Nat.add_0_r.
  - cbn [Spec.all_digits] in Hall. apply andb_true_iff in Hall as [Hc Hs].
    cbn [JS.read_digits]. rewrite digit_decimal by exact Hc.
    rewrite IH by exact Hs. cbn [Spec.decimal_go String.length]. f_equal. lia.
Qed.

Lemma digit_not (c x : ascii) :
  JS.is_digit c = true -> JS.is_digit x = false -> Ascii.eqb x c = false.
Proof.
  intros Hc Hx. destruct (Ascii.eqb_spec x c) as [->|]; [congruence|reflexivity].
Qed.

(** [parseInt] of a decimal numeral is its value, exactly so up to 2^53. *)
Lemma parseInt_decimal (ds : string) :
  Spec.all_digits ds = true -> ds ≠ "" ->
  JS.parseInt ds
  = if (Spec.decimal ds <=? 2 ^ 53)%N then JS.Int (Z.of_N (Spec.decimal ds))
    else JS.Approx (Z.of_N (Spec.decimal ds)).
Proof.
  intros Hall Hne. destruct ds as [|c r]; [done|].
  pose proof Hall as Hall'. cbn [Spec.all_digits] in Hall'.
  apply andb_true_iff in Hall' as [Hc Hr].
  unfold JS.parseInt. cbv zeta.
  rewrite trimStart_ascii by (apply is_digit_range in Hc; lia).
  assert (Hminus : JS.startsWith (String c r) "-" = false).
  { cbn [JS.startsWith]. by rewrite (digit_not c "-"). }
  assert (Hplus : JS.startsWith (String c r) "+" = false).
  { cbn [JS.startsWith]. by rewrite (digit_not c "+"). }
  rewrite Hminus, Hplus. cbn [orb].
  assert (Hx : JS.startsWith (String c r) "0x" = false).
  { cbn [JS.startsWith]. destruct (Ascii.eqb "0" c); [|reflexivity].
    destruct r as [|c2 r2]; [reflexivity|].
    cbn [Spec.all_digits] in Hr. apply andb_true_iff in Hr as [Hc2 _].
    by rewrite (digit_not c2 "x"). }
  assert (HX : JS.startsWith (String c r) "0X" = false).
  { cbn [JS.startsWith]. destruct (Ascii.eqb "0" c); [|reflexivity].
    destruct r as [|c2 r2]; [reflexivity|].
    cbn [Spec.all_digits] in Hr. apply andb_true_iff in Hr as [Hc2 _].
    by rewrite (digit_not c2 "X"). }
  rewrite Hx, HX. cbn [orb]. rewrite read_digits_all by exact Hall.
  cbn [String.length Nat.add]. reflexivity.
Qed.

Lemma startsWith_true (s p : string) :
  JS.startsWith s p = true -> exists post : string, s = p +:+ post.
Proof.
  revert s. induction p as [|a p IH]; intros s H; [by exists s|].
  destruct s as [|b s]; [discriminate H|]. cbn [JS.startsWith] in H.
  destruct (Ascii.eqb_spec a b) as [->|]; [|discriminate H].
  destruct (IH s H) as [post ->]. by exists post.
Qed.

Lemma span_digits_spec (s : string) :
  s = (JS.span_digits s).1 +:+ (JS.span_digits s).2
  ∧ Spec.all_digits (JS.span_digits s).1 = true.
Proof.
  induction s as [|c s [IH1 IH2]]; [done|]. cbn [JS.span_digits].
  destruct (JS.is_digit c) eqn:Hc; [|done].
  destruct (JS.span_digits s) as [ds r]. cbn in *. split.
  - rewrite append_cons. by f_equal.
  - by rewrite Hc, IH2.
Qed.

Lemma span_digits_append (ds r : string) :
  Spec.all_digits ds = true ->
  (forall (c : ascii) (r' : string), r = String c r' -> JS.is_digit c = false) ->
  JS.span_digits (ds +:+ r) = (ds, r).
Proof.
  intros Hall Hr. induction ds as [|c ds IH].
  - rewrite append_nil. destruct r as [|c r']; [reflexivity|].
    cbn [JS.span_digits]. by rewrite (Hr c r').
  - cbn [Spec.all_digits] in Hall. apply andb_true_iff in Hall as [Hc Hds].
    rewrite append_cons. cbn [JS.span_digits]. by rewrite Hc, IH.
Qed.

Lemma count_at_sound (s ds : string) :
  HtmlParser.count_at s = Some ds ->
  exists post : string,
    s = "(" +:+ ds +:+ "题)" +:+ post ∧ ds ≠ "" ∧ Spec.all_digits ds = true.
Proof.
  unfold HtmlParser.count_at. destruct s as [|c r]; [done|].
  destruct (Ascii.eqb_spec c "(") as [->|Hc]; [|done].
  destruct (span_digits_spec r) as [Hr Hall].
  destruct (JS.span_digits r) as [d r'] eqn:Hsp. cbn [fst snd] in *.
  destruct (JS.truthy d) eqn:Hd; [|done].
  destruct (JS.startsWith r' "题)") eqn:Hst; cbn [andb]; [|done].
  intros [= <-]. apply startsWith_true in Hst as [post ->].
  exists post. split; [by rewrite Hr|]. split; [by destruct d|done].
Qed.

Lemma count_at_complete (ds post : string) :
  Spec.all_digits ds = true -> ds ≠ "" ->
  HtmlParser.count_at ("(" +:+ ds +:+ "题)" +:+ post) = Some ds.
Proof.
  intros Hall Hne.
  change ("(" +:+ ds +:+ "题)" +:+ post) with (String "("%char (ds +:+ "题)" +:+ post)).
  unfold HtmlParser.count_at. cbv beta iota.
  rewrite Ascii.eqb_refl. rewrite span_digits_append.
  - destruct ds; [done|]. cbn [JS.truthy andb].
    by rewrite startsWith_append.
  - exact Hall.
  - intros c r' [= <- _]. by vm_compute.
Qed.

(** The search of the pattern finds a place where the text reads as
    the pattern says, and finds one whenever there is one. *)
Lemma count_match_sound (s ds : string) :
  HtmlParser.count_match s = Some ds -> Spec.counted s ds.
Proof.
  induction s as [|c s IH]; cbn [HtmlParser.count_match].
  - by vm_compute.
  - destruct (HtmlParser.count_at (String c s)) as [d|] eqn:Hat.
    + intros [= ->]. apply count_at_sound in Hat as (post & Hs & Hne & Hall).
      exists "", post. by rewrite append_nil.
    + intros H. destruct (IH H) as (pre & post & Hs & Hne & Hall).
      exists (String c pre), post. rewrite append_cons. by rewrite Hs.
Qed.

Lemma count_match_complete (s ds : string) :
  Spec.counted s ds -> exists ds' : string, HtmlParser.count_match s = Some ds'.
Proof.
  intros (pre & post & -> & Hne & Hall). induction pre as [|c pre IH].
  - rewrite append_nil. pose proof (count_at_complete ds post Hall Hne) as Hat.
    change ("(" +:+ ds +:+ "题)" +:+ post) with (String "("%char (ds +:+ "题)" +:+ post)) in *.
    cbn [HtmlParser.count_match]. rewrite Hat. by exists ds.
  - rewrite append_cons. cbn [HtmlParser.count_match].
    destruct (HtmlParser.count_at _) as [d|]; [by exists d|exact IH].
Qed.

End Numerals.

(** ** The extractor *)

Section ExtractorFacts.

Import Dom HtmlParser.

Lemma each_push_omap {A B : Type} (f : A -> option B) (set : list A) (acc : list B) :
  each_push f set acc = acc ++ omap f set.
Proof.
  unfold each_push. revert acc. induction set as [|x set IH]; intros acc.
  - by rewrite app_nil_r.
  - simpl. rewrite IH. destruct (f x); [|done]. by rewrite <- app_assoc.
Qed.

(** A selector without ancestors picks, in document order, the
    elements that pass its test. *)
Lemma select_plain (d : document) (p : node -> bool) :
  select d p [] = filter (fun l => p (self l) = true) (elements d).
Proof.
  unfold select, select_by. apply list_filter_iff. intros l.
  unfold meets. cbn [chain]. by rewrite andb_true_r.
Qed.

Lemma item_kind (subdomain : string) (k : Practice.kind) (elem : loc) (p : Practice.t) :
  item subdomain k elem = Some p ->
  Practice.type p = k
  ∧ Practice.problemCount p
    = match count_match (Spec.count_text elem) with
      | Some ds => JS.parseInt ds
      | None => JS.Int 0
      end.
Proof.
  unfold item, Spec.count_text. destruct (_ ≫= href_match) as [practiceId|]; [|done].
  by intros [= <-].
Qed.

Lemma omap_item_kind (subdomain : string) (k : Practice.kind) (set : list loc) (p : Practice.t) :
  p ∈ omap (item subdomain k) set -> Practice.type p = k.
Proof.
  intros (elem & _ & Hitem)%list_elem_of_omap. by apply item_kind in Hitem as [? _].
Qed.

Lemma filter_none (rs : list loc) :
  (forall r : loc, r ∈ rs -> is_primary r = false) ->
  filter (fun r => is_primary r = true) rs = [].
Proof.
  induction rs as [|r rs IH]; intros Hnone; [done|].
  rewrite filter_cons_False.
  - apply IH. intros x Hx. apply Hnone. by apply elem_of_cons; right.
  - rewrite Hnone; [discriminate|]. by apply elem_of_cons; left.
Qed.

Lemma fold_primary_step (practiceId subdomain : string) (contestId : option string)
    (rs : list loc) (acc : list Problem.t) (found : bool) :
  fold_left (primary_step practiceId subdomain contestId) rs (acc, found)
  = (acc ++ omap (primary_problem practiceId subdomain contestId)
                 (filter (fun r => is_primary r = true) rs),
     found || existsb is_primary rs).
Proof.
  revert acc found. induction rs as [|r rs IH]; intros acc found.
  - cbn. by rewrite app_nil_r, orb_false_r.
  - cbn [fold_left existsb]. unfold primary_step at 2. cbn [fst snd].
    destruct (is_primary r) eqn:Hr.
    + rewrite IH, filter_cons_True by done. rewrite omap_cons.
      rewrite orb_true_r.
      destruct (primary_problem _ _ _ r); [|done]. by rewrite <- app_assoc.
    + rewrite IH, filter_cons_False by congruence. by rewrite orb_false_l.
Qed.

(** The second layout reads a row by position, and skips a row that
    has fewer than two cells or no text for the id or the title. *)
Lemma generic_problem_positional (practiceId subdomain : string)
    (contestId : option string) (row : loc) :
  generic_problem practiceId subdomain contestId row
  = if (2 <=? length (Spec.cells row))%nat
       && JS.truthy (default "" (Spec.cell_text 0 row))
       && JS.truthy (default "" (Spec.cell_text 1 row))
    then Some (Spec.positional practiceId subdomain contestId row) else None.
Proof.
  unfold generic_problem, Spec.positional, Spec.cell_text. cbv zeta.
  fold (Spec.cells row).
  destruct (Nat.leb_spec 2 (length (Spec.cells row))) as [Hlen|Hlen]; [|reflexivity].
  destruct (Nat.ltb_spec 0 (length (Spec.cells row))); [|lia].
  destruct (Nat.ltb_spec 1 (length (Spec.cells row))); [|lia].
  unfold default, id. cbn [from_option andb].
  destruct (JS.truthy (anchor_text (eq_ 0 (Spec.cells row))) &&
            JS.truthy (anchor_text (eq_ 1 (Spec.cells row)))); [|reflexivity].
  destruct (2 <? length (Spec.cells row))%nat, (3 <? length (Spec.cells row))%nat,
           (4 <? length (Spec.cells row))%nat; reflexivity.
Qed.

(** C2: the second, positional layout is tried exactly
    when no row of the page matches the first (a row with a problem-id
    cell and a title cell); it reads the first five cells by position,
    cells that are missing being absent; with no row of the first
    layout and three rows whose first two cells hold links with text,
    the result is the three records read by position. *)
Theorem parseProblemList_layouts (d : document) (practiceId subdomain : string) :
  let contestId := contestId_of d in
  ((forall r : loc, r ∈ rows d -> is_primary r = false) ->
     parseProblemList d practiceId subdomain
     = omap (generic_problem practiceId subdomain contestId) (rows d))
  ∧ ((exists r : loc, r ∈ rows d ∧ is_primary r = true) ->
       parseProblemList d practiceId subdomain
       = omap (primary_problem practiceId subdomain contestId)
              (filter (fun r => is_primary r = true) (rows d)))
  ∧ (forall row : loc,
       generic_problem practiceId subdomain contestId row
       = if (2 <=? length (Spec.cells row))%nat
            && JS.truthy (default "" (Spec.cell_text 0 row))
            && JS.truthy (default "" (Spec.cell_text 1 row))
         then Some (Spec.positional practiceId subdomain contestId row) else None)
  ∧ (forall r1 r2 r3 : loc,
       rows d = [r1; r2; r3] ->
       (forall r : loc, r ∈ rows d ->
          is_primary r = false
          ∧ (exists t : string, Spec.cell_text 0 r = Some t ∧ t ≠ "")
          ∧ (exists t : string, Spec.cell_text 1 r = Some t ∧ t ≠ "")) ->
       parseProblemList d practiceId subdomain
       = [Spec.positional practiceId subdomain contestId r1;
          Spec.positional practiceId subdomain contestId r2;
          Spec.positional practiceId subdomain contestId r3]).
Proof.
  intros contestId.
  assert (Hgen : (forall r : loc, r ∈ rows d -> is_primary r = false) ->
            parseProblemList d practiceId subdomain
            = omap (generic_problem practiceId subdomain contestId) (rows d)).
  { intros Hnone. unfold parseProblemList. fold contestId.
    rewrite fold_primary_step. cbn [orb app].
    assert (Hex : existsb is_primary (rows d) = false).
    { apply not_true_is_false. intros (r & Hin & Hr)%existsb_exists.
      apply list_elem_of_In in Hin. rewrite (Hnone r Hin) in Hr. discriminate Hr. }
    rewrite Hex. cbn [negb]. rewrite each_push_omap.
    by rewrite filter_none. }
  split; [exact Hgen|]. split; [|split; [apply generic_problem_positional|]].
  - intros (r & Hin & Hr). unfold parseProblemList. fold contestId.
    rewrite fold_primary_step. cbn [orb app].
    assert (Hex : existsb is_primary (rows d) = true).
    { apply existsb_exists. exists r. split; [by apply list_elem_of_In|done]. }
    by rewrite Hex.
  - intros r1 r2 r3 Hrows Hall. rewrite Hgen by (intros r Hr; by apply Hall).
    assert (Hrow : forall r : loc, r ∈ rows d ->
              generic_problem practiceId subdomain contestId r
              = Some (Spec.positional practiceId subdomain contestId r)).
    { intros r Hr. destruct (Hall r Hr) as (_ & (t0 & H0 & Hne0) & (t1 & H1 & Hne1)).
      rewrite generic_problem_positional, H0, H1. cbn [default].
      assert (Hlen : (2 <=? length (Spec.cells r))%nat = true).
      { unfold Spec.cell_text in H1.
        destruct (Nat.ltb_spec 1 (length (Spec.cells r))); [|discriminate H1].
        apply Nat.leb_le. lia. }
      rewrite Hlen. by destruct t0, t1. }
    rewrite Hrows in *. rewrite !omap_cons.
    rewrite !Hrow by (rewrite !elem_of_cons; auto). reflexivity.
Qed.

Lemma fold_insert_none {A : Type} (key val : A -> string) (l : list A)
    (m : gmap string string) (k : string) :
  (forall x : A, x ∈ l -> key x ≠ k) ->
  fold_left (fun m x => <[key x := val x]> m) l m !! k = m !! k.
Proof.
  revert m. induction l as [|x l IH]; intros m Hall; [done|].
  cbn [fold_left]. rewrite IH by (intros y Hy; apply Hall; by apply elem_of_cons; right).
  apply lookup_insert_ne. apply Hall. by apply elem_of_cons; left.
Qed.

(** A label read several times keeps what its last term gave. *)
Lemma fold_insert_last {A : Type} (key val : A -> string) (before after : list A) (x0 : A)
    (m : gmap string string) :
  (forall x : A, x ∈ after -> key x ≠ key x0) ->
  fold_left (fun m x => <[key x := val x]> m) (before ++ x0 :: after) m !! key x0
  = Some (val x0).
Proof.
  intros Hafter. rewrite fold_left_app. cbn [fold_left].
  rewrite fold_insert_none by exact Hafter. apply lookup_insert_eq.
Qed.

Section Markup.

Variable serialize : list node -> string.

(** How a field is read off its two labels. *)
Lemma read_field (d : document) (problemId : string) (f : Spec.field) :
  Spec.read f (parseProblemDetail serialize d problemId)
  = let m := Spec.labels serialize f d in
    let v := JS.or_else (m !! Spec.localized f) (m !! Spec.english f) in
    match Spec.fallback f with
    | Some dflt => Some (or_str v dflt)
    | None => v
    end.
Proof. destruct f; reflexivity. Qed.

Lemma or_str_filled (v : option string) (dflt : string) :
  (exists s : string, v = Some s ∧ s ≠ "") -> Some (or_str v dflt) = v.
Proof. intros (s & -> & Hs). by destruct s. Qed.

(** C8: every field of [parseProblemDetail] is read off
    its localized label when that label carries content that is not
    empty, whatever the English label holds; off its English label when
    the localized one is missing or empty and the English one carries
    content; and else falls back to its default.  A page that shows the
    label Description and not the localized one has the content of that
    term as its description. *)
Theorem parseProblemDetail_labels (d : document) (problemId : string) :
  (forall f : Spec.field,
     let m := Spec.labels serialize f d in
     let r := Spec.read f (parseProblemDetail serialize d problemId) in
     (Spec.filled m (Spec.localized f) -> r = m !! Spec.localized f)
     ∧ (¬ Spec.filled m (Spec.localized f) -> Spec.filled m (Spec.english f) ->
          r = m !! Spec.english f)
     ∧ (¬ Spec.filled m (Spec.localized f) -> ¬ Spec.filled m (Spec.english f) ->
          r = match Spec.fallback f with
              | Some dflt => Some dflt
              | None => m !! Spec.english f
              end))
  ∧ (forall (before after : list loc) (dt : loc),
       Spec.content_terms d = before ++ dt :: after ->
       Spec.label dt = "Description" ->
       (forall x : loc, x ∈ after -> Spec.label x ≠ "Description") ->
       (forall x : loc, x ∈ Spec.content_terms d -> Spec.label x ≠ "描述") ->
       ProblemDetail.description (parseProblemDetail serialize d problemId)
       = content_value serialize dt).
Proof.
  split.
  - intros f m r. subst r. rewrite read_field. cbv zeta. fold m.
    assert (Hor : forall a b : option string,
              ((exists s, a = Some s ∧ s ≠ "") -> JS.or_else a b = a)
              ∧ (¬ (exists s, a = Some s ∧ s ≠ "") -> JS.or_else a b = b)).
    { intros a b. split.
      - intros (s & -> & Hs). by destruct s.
      - intros Hno. destruct a as [[|c s]|]; try reflexivity.
        exfalso. apply Hno. by exists (String c s). }
    split; [|split].
    + intros Hloc.
      rewrite (proj1 (Hor (m !! Spec.localized f) (m !! Spec.english f)) Hloc).
      destruct (Spec.fallback f); [by apply or_str_filled|done].
    + intros Hloc Heng.
      rewrite (proj2 (Hor (m !! Spec.localized f) (m !! Spec.english f)) Hloc).
      destruct (Spec.fallback f); [by apply or_str_filled|done].
    + intros Hloc Heng.
      rewrite (proj2 (Hor (m !! Spec.localized f) (m !! Spec.english f)) Hloc).
      destruct (Spec.fallback f) as [dflt|]; [|done].
      f_equal. destruct (m !! Spec.english f) as [[|c s]|] eqn:E; try reflexivity.
      exfalso. apply Heng. exists (String c s). by split.
  - intros before after dt Hterms Hdt Hafter Hnone.
    assert (Heng : content_of serialize d !! "Description"
                   = Some (content_value serialize dt)).
    { unfold content_of. fold (Spec.content_terms d). rewrite Hterms.
      pose proof (fold_insert_last Spec.label (content_value serialize) before after dt ∅)
        as Hlast.
      rewrite Hdt in Hlast. apply Hlast. exact Hafter. }
    assert (Hloc : content_of serialize d !! "描述" = None).
    { unfold content_of. fold (Spec.content_terms d).
      rewrite (fold_insert_none Spec.label (content_value serialize)) by exact Hnone.
      apply lookup_empty. }
    unfold parseProblemDetail. cbv zeta. cbn [ProblemDetail.description].
    rewrite Hloc, Heng. cbn [JS.or_else].
    unfold or_str. by destruct (content_value serialize dt).
Qed.

End Markup.

End ExtractorFacts.

Section ExtractorExamples.

Import Dom HtmlParser.

(** Both families on one page: the practices come first, whatever the
    order on the page, and a missing count reads as 0. *)
Example parsePracticeList_group_page :
  (fun p => (Practice.name p, Practice.type p, Practice.problemCount p))
    <$> parsePracticeList Fixture.group_page "cs101"
  = [("Homework", Practice.practice, JS.Int 12);
     ("Reading", Practice.practice, JS.Int 0);
     ("Midterm", Practice.contest, JS.Int 5)].
Proof. vm_compute. reflexivity. Qed.

Lemma parseProblemList_layouts_witness :
  (fun p => (Problem.id p, Problem.title p, Problem.acceptanceRate p,
             Problem.passedCount p, Problem.attemptCount p))
    <$> parseProblemList Fixture.text_rows "hw1" "cs101"
  = [("01", "A+B", Some "50%", Some (JS.Int 10), Some (JS.Int 20));
     ("02", "Sum", None, None, None);
     ("03", "Max", Some "", None, None)].
Proof.
  destruct (parseProblemList_layouts Fixture.text_rows "hw1" "cs101") as (_ & _ & _ & H).
  let rs := eval vm_compute in (rows Fixture.text_rows) in
  lazymatch rs with
  | [?r1; ?r2; ?r3] => rewrite (H r1 r2 r3)
  end.
  - vm_compute. reflexivity.
  - vm_compute. reflexivity.
  - intros r Hr. vm_compute in Hr.
    repeat (apply elem_of_cons in Hr as [->|Hr];
            [split; [by vm_compute|split; eexists; split; by vm_compute]|]).
    by apply elem_of_nil in Hr.
Defined.

(** Three rows of the second layout whose links hold a picture and no
    text: each has a link in its first two cells and none is kept. *)
Lemma parseProblemList_picture_links :
  length (rows Fixture.picture_rows) = 3%nat
  ∧ existsb is_primary (rows Fixture.picture_rows) = false
  ∧ forallb (fun r => Spec.anchor_in 0 r && Spec.anchor_in 1 r) (rows Fixture.picture_rows)
    = true
  ∧ parseProblemList Fixture.picture_rows "hw1" "cs101" = [].
Proof. repeat split; vm_compute; reflexivity. Qed.

(** A page with both labels of the description, the localized one with
    nothing under it: the description is what the English label holds. *)
Lemma parseProblemDetail_empty_localized :
  content_of Fixture.markup Fixture.both_labels !! "描述" = Some ""
  ∧ content_of Fixture.markup Fixture.both_labels !! "Description"
    = Some "Add two numbers."
  ∧ ProblemDetail.description (parseProblemDetail Fixture.markup Fixture.both_labels "1")
    = "Add two numbers.".
Proof. repeat split; vm_compute; reflexivity. Qed.

Lemma parseProblemDetail_labels_witness :
  ProblemDetail.description (parseProblemDetail Fixture.markup Fixture.english_only "1")
  = "Add two numbers.".
Proof.
  destruct (parseProblemDetail_labels Fixture.markup Fixture.english_only "1") as [_ H].
  let ts := eval vm_compute in (Spec.content_terms Fixture.english_only) in
  lazymatch ts with
  | [?dt] => rewrite (H [] [] dt)
  end.
  - vm_compute. reflexivity.
  - vm_compute. reflexivity.
  - vm_compute. reflexivity.
  - intros x Hx. by apply elem_of_nil in Hx.
  - intros x Hx. vm_compute in Hx. apply elem_of_cons in Hx as [->|Hx]; [by vm_compute|].
    by apply elem_of_nil in Hx.
Defined.

End ExtractorExamples.

(** * Further properties *)

(** ** More on strings *)

Section MoreStrings.

Lemma startsWith_nil (s : string) : JS.startsWith s "" = true.
Proof. by destruct s. Qed.

Lemma startsWith_refl (s : string) : JS.startsWith s s = true.
Proof. induction s as [|a s IH]; [done|]. cbn [JS.startsWith]. by rewrite Ascii.eqb_refl. Qed.

Lemma includes_nil (s : string) : JS.includes s "" = true.
Proof. destruct s; reflexivity. Qed.

Lemma includes_here (s sub : string) :
  JS.startsWith s sub = true -> JS.includes s sub = true.
Proof. intros H. destruct s; cbn [JS.includes]; by rewrite H. Qed.

Lemma includes_later (a : ascii) (s sub : string) :
  JS.includes s sub = true -> JS.includes (String a s) sub = true.
Proof. intros H. cbn [JS.includes]. rewrite H. apply orb_true_r. Qed.

(** A text includes each of its middles. *)
Lemma includes_middle (before sub after : string) :
  JS.includes (before +:+ sub +:+ after) sub = true.
Proof.
  induction before as [|a before IH].
  - rewrite append_nil. apply includes_here, startsWith_append.
  - rewrite append_cons. by apply includes_later.
Qed.

Lemma includes_exists (s sub : string) :
  JS.includes s sub = true ->
  exists before after : string, s = before +:+ sub +:+ after.
Proof.
  induction s as [|a s IH]; cbn [JS.includes].
  - rewrite orb_false_r. intros [post ->]%startsWith_true. by exists "", post.
  - intros [H|H]%orb_true_iff.
    + apply startsWith_true in H as [post ->]. by exists "", post.
    + destruct (IH H) as (before & after & ->). by exists (String a before), after.
Qed.

Lemma rev_app_rev_app (s a b : string) :
  String.rev_app (String.rev_app s a) b = String.rev_app a (s +:+ b).
Proof.
  revert a b. induction s as [|c s IH]; intros a b; [reflexivity|].
  cbn [String.rev_app]. rewrite IH. reflexivity.
Qed.

Lemma rev_rev (s : string) : String.rev (String.rev s) = s.
Proof. unfold String.rev. rewrite rev_app_rev_app. cbn. apply append_nil_r. Qed.

Lemma rev_length (s : string) : String.length (String.rev s) = String.length s.
Proof.
  unfold String.rev.
  assert (G : forall a, String.length (String.rev_app s a)
                        = (String.length s + String.length a)%nat).
  { induction s as [|c s IH]; intros a; [reflexivity|].
    cbn [String.rev_app String.length]. rewrite IH. cbn [String.length]. lia. }
  rewrite G. cbn. lia.
Qed.

(** Text with no white space at its ends is what [trim] leaves alone. *)
Lemma trim_tight (s : string) : Terms.tight s -> JS.trim s = s.
Proof.
  intros [Hh Hl]. unfold JS.trim, JS.trimStart.
  assert (H1 : JS.strip JS.ws_head (String.length s) s = s).
  { destruct (String.length s); cbn [JS.strip]; [done|]. by rewrite Hh. }
  rewrite H1. unfold JS.trimEnd.
  assert (H2 : JS.strip JS.ws_last (String.length s) (String.rev s) = String.rev s).
  { destruct (String.length s); cbn [JS.strip]; [done|]. by rewrite Hl. }
  rewrite H2. apply rev_rev.
Qed.

End MoreStrings.

(** ** More on the cookie jar *)

Section MoreCookieJar.

Import CookieJar.

Lemma filter_nothing {A : Type} (P : A -> Prop) `{forall x, Decision (P x)} (l : list A) :
  (forall x : A, x ∈ l -> ¬ P x) -> filter P l = [].
Proof.
  induction l as [|x l IH]; intros Hnone; [done|].
  rewrite filter_cons_False by (apply Hnone; by apply elem_of_cons; left).
  apply IH. intros y Hy. apply Hnone. by apply elem_of_cons; right.
Qed.

Lemma keys_map_set_prefix (j : jar) (k : string) (c : cookie) :
  keys j `prefix_of` keys (map_set j k c).
Proof.
  destruct (decide (k ∈ keys j)) as [Hin|Hout].
  - by rewrite keys_map_set_in.
  - rewrite map_set_fresh by done. unfold keys. rewrite fmap_app. by apply prefix_app_r.
Qed.

Lemma length_map_set (j : jar) (k : string) (c : cookie) :
  (length (map_set j k c) <= S (length j))%nat.
Proof.
  induction j as [|[k' c'] j IH]; cbn [map_set length]; [lia|].
  destruct (String.eqb k' k); cbn [length]; lia.
Qed.

(** A cookie put with [set] is what [get] returns for its name,
    with the default domain openjudge.cn and path / when none is given;
    every other name reads as before, and the cookies already held keep
    their order, a new name going last. *)
Lemma set_then_get (j : jar) (name v : string) (dom pth : option string) :
  get (set j name v dom pth) name = Some v
  ∧ map_get (set j name v dom pth) name
    = Some (Cookie (Some v) (default "openjudge.cn" dom) (default "/" pth))
  ∧ (forall other : string, other ≠ name ->
       map_get (set j name v dom pth) other = map_get j other)
  ∧ keys j `prefix_of` keys (set j name v dom pth)
  ∧ (name ∈ keys j -> keys (set j name v dom pth) = keys j)
  ∧ (name ∉ keys j -> keys (set j name v dom pth) = keys j ++ [name]).
Proof.
  unfold get, set. rewrite map_get_set_eq. split; [done|]. split; [done|].
  split; [intros other Hne; by apply map_get_set_ne|].
  split; [apply keys_map_set_prefix|].
  split; [apply keys_map_set_in|].
  intros Hout. rewrite map_set_fresh by done. unfold keys. by rewrite fmap_app.
Qed.

(** X1: [setCookie] only adds to the jar: the cookies held before keep
    their places, each header brings at most one new cookie, and the
    jar stays a map. *)
Theorem setCookie_appends (j : jar) (headers : list string) (dom : string) :
  keys j `prefix_of` keys (setCookie j headers dom)
  ∧ (length (setCookie j headers dom) <= length j + length headers)%nat
  ∧ (wf j -> wf (setCookie j headers dom)).
Proof.
  split; [|split; [|apply wf_setCookie]].
  - unfold setCookie. revert j. induction headers as [|h hs IH]; intros j; [done|].
    cbn [fold_left]. etrans; [|apply IH].
    destruct (setCookie1_stores j dom h) as (c & -> & _). apply keys_map_set_prefix.
  - unfold setCookie. revert j. induction headers as [|h hs IH]; intros j.
    + cbn. lia.
    + cbn [fold_left length]. etrans; [apply IH|].
      destruct (setCookie1_stores j dom h) as (c & -> & _).
      pose proof (length_map_set j (hd "" (JS.split "=" (hd "" (parts_of h)))) c). lia.
Qed.

Lemma render_not_empty (e : string * cookie) : render e ≠ "".
Proof.
  unfold render. destruct e as [n c]. cbn [fst snd].
  destruct n as [|a n]; [|by rewrite append_cons].
  rewrite append_nil. discriminate.
Qed.

Lemma join_not_empty (sep : string) (l : list string) :
  (forall s : string, s ∈ l -> s ≠ "") -> l ≠ [] -> JS.join sep l ≠ "".
Proof.
  intros Hall Hne. destruct l as [|x l]; [done|].
  assert (Hx : x ≠ "") by (apply Hall; by apply elem_of_cons; left).
  unfold JS.join. cbn [String.concat]. destruct l as [|y l]; [done|].
  destruct x as [|a x]; [done|]. by rewrite append_cons.
Qed.

(** X2: the Cookie header of a host is empty exactly when the jar holds
    no cookie whose domain is part of the host name or has the host name
    as a part; the path of a cookie plays no role in it. *)
Theorem getCookieHeader_empty (j : jar) (host : string) :
  (getCookieHeader j host = "" <-> forall e, e ∈ j -> relevant host e = false)
  ∧ (forall f : string -> string,
       getCookieHeader (Terms.repath f j) host = getCookieHeader j host).
Proof.
  split.
  - unfold getCookieHeader, jar in *. split.
    + intros Hempty e He. apply not_true_is_false. intros Hrel.
      revert Hempty. apply join_not_empty.
      * intros s (x & -> & _)%list_elem_of_fmap. apply render_not_empty.
      * intros Hnil. apply fmap_nil_inv in Hnil.
        by apply (filter_nil_not_elem_of _ _ e Hnil Hrel).
    + intros Hnone. rewrite filter_nothing; [done|].
      intros e He. rewrite (Hnone e He). discriminate.
  - intros f. unfold getCookieHeader, Terms.repath, jar in *. f_equal.
    induction j as [|e j IH]; [done|].
    rewrite fmap_cons.
    set (e' := (e.1, Cookie (value e.2) (domain e.2) (f (path e.2)))).
    assert (Hsame : relevant host e' = relevant host e) by reflexivity.
    assert (Hrender : render e' = render e) by reflexivity.
    destruct (relevant host e) eqn:Hrel.
    + rewrite (filter_cons_True _ e') by (by rewrite Hsame).
      rewrite (filter_cons_True _ e) by done.
      rewrite !fmap_cons, Hrender. by rewrite IH.
    + rewrite (filter_cons_False _ e') by (rewrite Hsame; discriminate).
      rewrite (filter_cons_False _ e) by (rewrite Hrel; discriminate).
      exact IH.
Qed.

(** X3: a cookie goes to every host whose name ends with (or holds) the
    cookie's domain, to every host whose name is a part of that domain
    (so a cookie of a subdomain goes to the parent site as well), and to
    every host at all when the domain is empty. *)
Theorem cookie_scope (name : string) (c : cookie) :
  (forall before after : string,
     relevant (before +:+ domain c +:+ after) (name, c) = true)
  ∧ (forall before host after : string,
       domain c = before +:+ host +:+ after -> relevant host (name, c) = true)
  ∧ (domain c = "" -> forall host : string, relevant host (name, c) = true)
  ∧ (forall host : string,
       relevant host (name, c) = true ->
       exists before after : string,
         host = before +:+ domain c +:+ after ∨ domain c = before +:+ host +:+ after).
Proof.
  unfold relevant. cbn [snd]. split; [|split; [|split]].
  - intros before after. by rewrite includes_middle.
  - intros before host after ->. rewrite includes_middle. apply orb_true_r.
  - intros -> host. by rewrite includes_nil.
  - intros host [H|H]%orb_true_iff; apply includes_exists in H as (b & a & H);
      exists b, a; [by left|by right].
Qed.

Lemma map_get_fold_last (data : list (string * cookie)) (acc : jar) (k : string) :
  map_get (fold_left (fun m e => map_set m e.1 e.2) data acc) k
  = match last (filter (fun e => e.1 = k) data) with
    | Some e => Some e.2
    | None => map_get acc k
    end.
Proof.
  revert acc. induction data as [|[k' c'] data IH]; intros acc; [done|].
  cbn [fold_left]. rewrite IH. cbn [fst snd].
  destruct (decide (k' = k)) as [->|Hne].
  - rewrite filter_cons_True by done.
    rewrite last_cons. destruct (last (filter _ data)); [done|].
    by rewrite map_get_set_eq.
  - rewrite filter_cons_False by done.
    destruct (last (filter _ data)); [done|]. by apply map_get_set_ne.
Qed.

(** X4: [import] replaces whatever the jar held; from entries that name
    a cookie more than once it keeps, for each name, the record of the
    last entry, and the result is a map again. *)
Theorem import_last_wins (j0 : jar) (data : list (string * cookie)) (name : string) :
  map_get (import j0 data) name
  = (fun e => e.2) <$> last (filter (fun e => e.1 = name) data)
  ∧ (name ∉ data.*1 -> get (import j0 data) name = None)
  ∧ wf (import j0 data)
  ∧ import j0 data = import [] data.
Proof.
  unfold import, map_of, jar in *. split; [|split; [|split; [apply wf_map_of|done]]].
  - rewrite map_get_fold_last. by destruct (last _).
  - intros Hout. unfold get. rewrite map_get_fold_last.
    rewrite filter_nothing; [done|].
    intros e He Heq. apply Hout. apply list_elem_of_fmap. by exists e.
Qed.

(** X5: the record a header stores has the path of its last path
    attribute and the domain of its last domain attribute, whatever
    stands between and after them, and without such an attribute the
    path / and the host of the request; an attribute is a part that
    reads name=value, the name in any letter case. *)
Theorem setCookie_defaults (j : jar) (dom header : string) :
  let attrs := tl (parts_of header) in
  let pieces := JS.split "=" (hd "" (parts_of header)) in
  map_get (setCookie j [header] dom) (hd "" pieces)
  = Some (Cookie (pieces !! 1%nat)
            (default dom (last (omap (Spec.attribute "domain") attrs)))
            (default "/" (last (omap (Spec.attribute "path") attrs))))
  ∧ (forall part v : string,
       (Spec.attribute "path" part = Some v
        <-> exists n : string, part = n +:+ "=" +:+ v ∧ JS.toLowerCase n = "path")
       ∧ (Spec.attribute "domain" part = Some v
          <-> exists n : string, part = n +:+ "=" +:+ v ∧ JS.toLowerCase n = "domain"))
  ∧ ((forall part : string, part ∈ attrs ->
        Spec.attribute "path" part = None ∧ Spec.attribute "domain" part = None) ->
     map_get (setCookie j [header] dom) (hd "" pieces)
     = Some (Cookie (pieces !! 1%nat) dom "/"))
  ∧ (forall (before after : list string) (part v : string),
       attrs = before ++ part :: after ->
       (Spec.attribute "path" part = Some v ->
        (forall q : string, q ∈ after -> Spec.attribute "path" q = None) ->
        exists c : cookie,
          map_get (setCookie j [header] dom) (hd "" pieces) = Some c ∧ path c = v)
       ∧ (Spec.attribute "domain" part = Some v ->
          (forall q : string, q ∈ after -> Spec.attribute "domain" q = None) ->
          exists c : cookie,
            map_get (setCookie j [header] dom) (hd "" pieces) = Some c ∧ domain c = v)).
Proof.
  cbv zeta.
  assert (Hstored : map_get (setCookie j [header] dom)
                      (hd "" (JS.split "=" (hd "" (parts_of header))))
                    = Some (Cookie (JS.split "=" (hd "" (parts_of header)) !! 1%nat)
                              (default dom (last (omap (Spec.attribute "domain")
                                                    (tl (parts_of header)))))
                              (default "/" (last (omap (Spec.attribute "path")
                                                    (tl (parts_of header))))))).
  { unfold setCookie. cbn [fold_left]. unfold setCookie1. cbv zeta.
    rewrite scan_last. by rewrite map_get_set_eq. }
  assert (Hnone : forall (f : string -> option string) (l : list string),
            (forall q : string, q ∈ l -> f q = None) -> omap f l = []).
  { intros f l Hall. induction l as [|q l IH]; [done|]. rewrite omap_cons.
    rewrite (Hall q) by (by apply elem_of_cons; left).
    apply IH. intros q' Hq'. apply Hall. by apply elem_of_cons; right. }
  assert (Hlast : forall (f : string -> option string) (before after : list string)
                         (part v : string),
            f part = Some v -> (forall q : string, q ∈ after -> f q = None) ->
            last (omap f (before ++ part :: after)) = Some v).
  { intros f before after part v Hpart Hafter.
    assert (Hcut : omap f (before ++ part :: after) = omap f before ++ [v]).
    { induction before as [|b before IH].
      - cbn [app]. by rewrite omap_cons, Hpart, (Hnone f after Hafter).
      - cbn [app]. rewrite !omap_cons, IH. by destruct (f b). }
    rewrite Hcut. apply last_snoc. }
  split; [exact Hstored|]. split; [|split].
  - intros part v. split; apply attribute_iff; cbn; intuition discriminate.
  - intros Hall. rewrite Hstored.
    rewrite !Hnone by (intros q Hq; by destruct (Hall q Hq)). reflexivity.
  - intros before after part v Hattrs. rewrite Hstored, Hattrs.
    split; intros Hpart Hafter; eexists; (split; [reflexivity|]); cbn [path domain];
      by rewrite (Hlast _ before after part v Hpart Hafter).
Qed.

Lemma setCookie_last_attributes :
  map_get (setCookie [] ["SID=abc; Path=/a; Domain=example.com; path=/b; Secure"] "openjudge.cn")
    "SID"
  = Some (Cookie (Some "abc") "example.com" "/b").
Proof. by vm_compute. Qed.

(** X6: a header whose first part holds no [=] stores a cookie without
    a value: [get] then answers as for a cookie that is not there, while
    the Cookie header carries the name followed by the text undefined. *)
Theorem setCookie_no_value (j : jar) (dom header name : string) :
  hd "" (parts_of header) = name ->
  Spec.free "=" name ->
  get (setCookie j [header] dom) name = None
  ∧ exists c : cookie,
      map_get (setCookie j [header] dom) name = Some c
      ∧ value c = None
      ∧ render (name, c) = name +:+ "=undefined".
Proof.
  intros Hhd Hfree.
  destruct (setCookie1_stores j dom header) as (c & Heq & Hv & _).
  rewrite Hhd, split_free in Heq, Hv by done. cbn in Heq, Hv.
  unfold setCookie, get. cbn [fold_left]. rewrite Heq, map_get_set_eq.
  split; [cbn; exact Hv|].
  exists c. split; [done|]. split; [done|]. unfold render. cbn [fst snd]. by rewrite Hv.
Qed.

End MoreCookieJar.

Section MoreCookieJarExamples.

Import CookieJar.

Lemma setCookie_no_value_witness :
  getCookieHeader (setCookie [] ["flag; HttpOnly"] "openjudge.cn") "openjudge.cn"
  = "flag=undefined"
  ∧ get (setCookie [] ["flag; HttpOnly"] "openjudge.cn") "flag" = None.
Proof.
  assert (Hhd : hd "" (parts_of "flag; HttpOnly") = "flag") by (vm_compute; reflexivity).
  assert (Hfree : Spec.free "=" "flag") by (vm_compute; intuition discriminate).
  destruct (setCookie_no_value [] "openjudge.cn" "flag; HttpOnly" "flag" Hhd Hfree)
    as [Hget _].
  split; [vm_compute; reflexivity|exact Hget].
Defined.

End MoreCookieJarExamples.

(** ** More on the polling loop *)

Section MorePolling.

Import SubmissionService.

Variable pages : nat -> fetch.

Local Abbreviation final_at := (Spec.final_at pages).
Local Abbreviation pending_at := (Spec.pending_at pages).
Local Abbreviation started := (Spec.started pages).

(** *** Every order of firings and answers *)

Variable strict : bool.

Local Abbreviation step := (SubmissionService.step pages strict).
Local Abbreviation polling := (SubmissionService.polling pages strict).

Lemma updateStatus_halves (st : poll) :
  updateStatus pages st = settle (pages (requests st)) (issue st).
Proof. reflexivity. Qed.

Lemma clearInterval_set (st : poll) :
  interval st ≠ Unset -> interval (clearInterval st) = Cleared.
Proof. unfold clearInterval. by destruct (interval st). Qed.

Lemma clearInterval_attempts (st : poll) : attempts (clearInterval st) = attempts st.
Proof. unfold clearInterval. by destruct (interval st). Qed.

Lemma clearInterval_idle (st : poll) : interval st ≠ Running -> clearInterval st = st.
Proof. unfold clearInterval. destruct st as [a [] r]; cbn; done. Qed.

(** What stays true of the loop once the timer is started: the timer
    is assigned; it is cleared when the panel is closed, and when 31
    pages have been shown. *)
Lemma step_kept (s : run) (e : event) :
  interval (loop s) ≠ Unset
  ∧ (closed s = true -> interval (loop s) = Cleared)
  ∧ ((S maxAttempts <= attempts (loop s))%nat -> interval (loop s) = Cleared) ->
  interval (loop (step s e)) ≠ Unset
  ∧ (closed (step s e) = true -> interval (loop (step s e)) = Cleared)
  ∧ ((S maxAttempts <= attempts (loop (step s e)))%nat ->
       interval (loop (step s e)) = Cleared).
Proof.
  intros (Hset & Hclosed & Hmax). destruct e as [|i|]; unfold SubmissionService.step.
  - destruct (interval (loop s)) eqn:Hi;
      cbn [loop closed issue interval attempts]; rewrite Hi;
      (split; [done|]; split; [exact Hclosed|exact Hmax]).
  - case_bool_decide; [|done]. cbv zeta.
    destruct (closed s && strict) eqn:Hcs; cbn [loop closed]; [done|].
    unfold settle. destruct (pages i) as [page|m].
    + cbv zeta. destruct (is_final _ || (maxAttempts <=? attempts (loop s))%nat) eqn:Hstop;
        cbn [interval attempts].
      * rewrite clearInterval_set by done. done.
      * apply orb_false_iff in Hstop as [_ Hlt]. apply Nat.leb_gt in Hlt.
        split; [done|]. split; [done|]. lia.
    + rewrite clearInterval_set by done. done.
  - destruct (closed s) eqn:Hc; cbn [loop closed].
    + split; [done|]. split; [intros _; by apply Hclosed|done].
    + rewrite clearInterval_set by done. done.
Qed.

Lemma polling_kept (events : list event) :
  interval (loop (polling events)) ≠ Unset
  ∧ (closed (polling events) = true -> interval (loop (polling events)) = Cleared)
  ∧ ((S maxAttempts <= attempts (loop (polling events)))%nat ->
       interval (loop (polling events)) = Cleared).
Proof.
  unfold SubmissionService.polling.
  induction events as [|e events IH] using rev_ind.
  - cbn [fold_left loop closed]. destruct (started_shape pages) as (_ & Hrun & Hatt).
    change (Spec.started pages) with (start pages) in *.
    rewrite Hrun. split; [done|]. split; [done|]. unfold maxAttempts. lia.
  - rewrite fold_left_app. cbn [fold_left]. by apply step_kept.
Qed.

(** A firing makes one request at most, and nothing else makes one. *)
Lemma step_requests (s : run) (e : event) :
  (requests (loop (step s e)) <= requests (loop s) + fires [e])%nat.
Proof.
  destruct e as [|i|]; unfold SubmissionService.step; cbn [fires].
  - destruct (interval (loop s)); cbn [loop issue requests]; lia.
  - case_bool_decide; [|lia]. cbv zeta.
    destruct (closed s && strict); cbn [loop]; [lia|]. rewrite settle_requests. lia.
  - destruct (closed s); cbn [loop]; [lia|]. rewrite clearInterval_requests. lia.
Qed.

Lemma fires_app (es es' : list event) : fires (es ++ es') = (fires es + fires es')%nat.
Proof.
  induction es as [|e es IH]; [done|]. cbn [app fires]. destruct e; rewrite IH; lia.
Qed.

Lemma fold_requests (events : list event) (s : run) :
  (requests (loop (fold_left step events s)) <= requests (loop s) + fires events)%nat.
Proof.
  revert s. induction events as [|e events IH]; intros s; [cbn; lia|].
  cbn [fold_left]. etrans; [apply IH|].
  pose proof (step_requests s e) as Hs. change (e :: events) with ([e] ++ events).
  rewrite fires_app. lia.
Qed.

(** Once the timer is cleared it stays so and no request is made. *)
Lemma fold_cleared (events : list event) (s : run) :
  interval (loop s) = Cleared ->
  interval (loop (fold_left step events s)) = Cleared
  ∧ requests (loop (fold_left step events s)) = requests (loop s).
Proof.
  revert s. induction events as [|e events IH]; intros s Hc; [done|].
  cbn [fold_left].
  assert (Hstep : interval (loop (step s e)) = Cleared
                  ∧ requests (loop (step s e)) = requests (loop s)).
  { destruct e as [|i|]; unfold SubmissionService.step.
    - by rewrite Hc.
    - case_bool_decide; [|done]. cbv zeta.
      destruct (closed s && strict); cbn [loop]; [done|].
      rewrite settle_requests. split; [|done]. unfold settle.
      destruct (pages i) as [page|m].
      + cbv zeta. destruct (is_final _ || _); cbn [interval]; [|done].
        by rewrite clearInterval_set by (by rewrite Hc).
      + by rewrite clearInterval_set by (by rewrite Hc).
    - destruct (closed s); cbn [loop]; [done|].
      rewrite clearInterval_requests. split; [|done].
      by rewrite clearInterval_set by (by rewrite Hc). }
  destruct Hstep as [Hc' Hr']. destruct (IH _ Hc') as [H1 H2]. split; [done|congruence].
Qed.

(** An answer that fails, or shows a final status, clears the timer. *)
Lemma answer_clears (events : list event) (i : nat) :
  i ∈ waiting (polling events) ->
  (exists m : string, pages i = Failed m) ∨ Spec.final_at pages i ->
  interval (loop (step (polling events) (Answer i))) = Cleared
  ∧ requests (loop (step (polling events) (Answer i)))
    = requests (loop (polling events)).
Proof.
  intros Hin Hend. destruct (polling_kept events) as (Hset & Hclosed & _).
  unfold SubmissionService.step. rewrite bool_decide_eq_true_2 by done. cbv zeta.
  destruct (closed (polling events) && strict) eqn:Hcs; cbn [loop].
  - apply andb_true_iff in Hcs as [Hc _]. split; [by apply Hclosed|done].
  - rewrite settle_requests. split; [|done]. unfold settle.
    destruct Hend as [[m ->]|(page & -> & Hfin)].
    + by apply clearInterval_set.
    + cbv zeta. rewrite Hfin. cbn [orb interval]. by apply clearInterval_set.
Qed.

Lemma polling_app (events more : list event) :
  polling (events ++ more) = fold_left step more (polling events).
Proof. unfold SubmissionService.polling. by rewrite fold_left_app. Qed.

Lemma answer_ends (events more : list event) (i : nat) :
  i ∈ waiting (polling events) ->
  (exists m : string, pages i = Failed m) ∨ Spec.final_at pages i ->
  interval (loop (polling (events ++ Answer i :: more))) = Cleared
  ∧ requests (loop (polling (events ++ Answer i :: more)))
    = requests (loop (polling events)).
Proof.
  intros Hin Hend. rewrite polling_app. cbn [fold_left].
  destruct (answer_clears events i Hin Hend) as [Hc Hr].
  destruct (fold_cleared more _ Hc) as [H1 H2]. split; [done|congruence].
Qed.

(** With no answer, every firing makes a request. *)
Lemma fold_fires (k : nat) (s : run) :
  interval (loop s) = Running ->
  requests (loop (fold_left step (replicate k Fire) s)) = (requests (loop s) + k)%nat.
Proof.
  revert s. induction k as [|k IH]; intros s Hr; [cbn; lia|].
  cbn [replicate fold_left]. unfold SubmissionService.step at 2. rewrite Hr.
  rewrite IH by done. cbn [loop issue requests]. lia.
Qed.

Lemma fold_closed (events : list event) (s : run) :
  closed s = true ∨ Dispose ∈ events -> closed (fold_left step events s) = true.
Proof.
  revert s. induction events as [|e events IH]; intros s.
  - intros [Hc|Hin]; [done|by apply elem_of_nil in Hin].
  - intros Hor. cbn [fold_left]. apply IH.
    destruct Hor as [Hc|[<-|Hin]%elem_of_cons].
    + left. destruct e as [|i|]; unfold SubmissionService.step.
      * by destruct (interval (loop s)).
      * case_bool_decide; [|done]. cbv zeta. by destruct (closed s && strict).
      * by rewrite Hc.
    + left. unfold SubmissionService.step. by destruct (closed s) eqn:Hc.
    + by right.
Qed.

Lemma step_fire_idle (s : run) : interval (loop s) ≠ Running -> step s Fire = s.
Proof. unfold SubmissionService.step. by destruct (interval (loop s)). Qed.

Lemma step_answer_none (s : run) (i : nat) : i ∉ waiting s -> step s (Answer i) = s.
Proof. intros Hout. unfold SubmissionService.step. by rewrite bool_decide_eq_false_2. Qed.

Lemma step_pair (st : poll) :
  interval st = Running ->
  step (step (Run st [] false) Fire) (Answer (requests st))
  = Run (updateStatus pages st) [] false.
Proof.
  intros Hr. unfold SubmissionService.step at 2. cbn [loop waiting closed app]. rewrite Hr.
  unfold SubmissionService.step. cbn [loop waiting closed].
  rewrite bool_decide_eq_true_2 by (by apply list_elem_of_singleton). cbv zeta.
  rewrite filter_cons_False by (by intros ?). by rewrite filter_nil.
Qed.

(** The runs of [tick] are the runs of the events of [sequential]. *)
Lemma sequential_idle (closing : option nat) (ticks fired next : nat) (st : poll) (c : bool) :
  interval st ≠ Running ->
  loop (fold_left step (sequential closing ticks fired next) (Run st [] c)) = st.
Proof.
  intros Hidle. revert fired next. induction ticks as [|ticks IH]; intros fired next; [done|].
  cbn [sequential]. case_bool_decide.
  - cbn [fold_left]. unfold SubmissionService.step. cbn [closed loop].
    destruct c; [done|]. cbn [loop]. by apply clearInterval_idle.
  - cbn [fold_left]. rewrite step_fire_idle by done.
    rewrite step_answer_none by (apply not_elem_of_nil). apply IH.
Qed.

Lemma sequential_tick (closing : option nat) (ticks fired : nat) (st : poll) :
  loop (fold_left step (sequential closing ticks fired (requests st)) (Run st [] false))
  = tick pages closing ticks fired st.
Proof.
  revert fired st. induction ticks as [|ticks IH]; intros fired st; [done|].
  cbn [sequential tick]. case_bool_decide; [done|].
  destruct (interval st) eqn:Hi.
  - cbn [fold_left]. rewrite step_fire_idle by (cbn [loop]; by rewrite Hi).
    rewrite step_answer_none by (apply not_elem_of_nil).
    apply sequential_idle. by rewrite Hi.
  - cbn [fold_left]. rewrite step_pair by done.
    rewrite <- (updateStatus_requests pages st). apply IH.
  - cbn [fold_left]. rewrite step_fire_idle by (cbn [loop]; by rewrite Hi).
    rewrite step_answer_none by (apply not_elem_of_nil).
    apply sequential_idle. by rewrite Hi.
Qed.

Lemma polling_sequential (closing : option nat) (ticks : nat) :
  loop (polling (sequential closing ticks 0 1)) = showSubmissionStatus pages closing ticks.
Proof.
  unfold SubmissionService.polling.
  destruct (started_shape pages) as (Hreq & _).
  change (Spec.started pages) with (start pages) in Hreq.
  replace (sequential closing ticks 0 1)
    with (sequential closing ticks 0 (requests (start pages))) by (by rewrite Hreq).
  apply sequential_tick.
Qed.

(** X7: each firing of the timer makes one request at most and nothing
    else makes one, in whatever order the timer fires and the answers
    come; the timer is cleared, for good and with no request after it,
    when the panel is closed and at the latest when 31 pages have been
    shown; but the timer does not wait for the answers, and while none
    comes the requests go on, one with every firing. *)
Theorem polling_every_order (events : list event) :
  let s := polling events in
  (requests (loop s) <= S (fires events))%nat
  ∧ interval (loop s) ≠ Unset
  ∧ (Dispose ∈ events -> interval (loop s) = Cleared)
  ∧ ((S maxAttempts <= attempts (loop s))%nat -> interval (loop s) = Cleared)
  ∧ (interval (loop s) = Cleared ->
       forall more : list event,
         interval (loop (polling (events ++ more))) = Cleared
         ∧ requests (loop (polling (events ++ more))) = requests (loop s))
  ∧ (forall k : nat, requests (loop (polling (replicate k Fire))) = S k).
Proof.
  cbv zeta. destruct (polling_kept events) as (Hset & Hclosed & Hmax).
  destruct (started_shape pages) as (Hreq & Hrun & _).
  change (Spec.started pages) with (start pages) in *.
  split; [|split; [done|split; [|split; [done|split]]]].
  - unfold SubmissionService.polling. etrans; [apply fold_requests|].
    cbn [loop]. rewrite Hreq. lia.
  - intros Hin. apply Hclosed. unfold SubmissionService.polling.
    apply fold_closed. by right.
  - intros Hc more. rewrite polling_app. by apply fold_cleared.
  - intros k. unfold SubmissionService.polling. rewrite fold_fires by done.
    cbn [loop]. rewrite Hreq. lia.
Qed.

Lemma tick_closing (k ticks fired : nat) (st : poll) :
  (fired <= k)%nat ->
  interval st = Running ->
  (requests (tick pages (Some k) ticks fired st) + fired <= requests st + k)%nat
  ∧ ((k < fired + ticks)%nat -> interval (tick pages (Some k) ticks fired st) = Cleared).
Proof.
  revert fired st. induction ticks as [|ticks IH]; intros fired st Hle Hrun.
  - cbn [tick]. split; lia.
  - cbn [tick]. case_bool_decide as Hk.
    + injection Hk as ->. rewrite clearInterval_requests. split; [lia|].
      intros _. unfold clearInterval. by rewrite Hrun.
    + assert (fired ≠ k) by congruence. rewrite Hrun.
      destruct (updateStatus_shape pages st Hrun) as [Hreq [Hc|(Hrun' & _)]].
      * rewrite tick_cleared by exact Hc. rewrite Hreq. split; [lia|done].
      * destruct (IH (S fired) (updateStatus pages st)) as [Hb Hc]; [lia|done|].
        rewrite Hreq in Hb. split; [lia|]. intros Hlt. apply Hc. lia.
Qed.

(** X8: closing the panel ends the polling: when the panel is closed
    after [k] firings of the timer, at most [k + 1] requests are ever
    made, and the timer is cleared from the next firing on.  So it is
    in every order of firings and answers: once the panel is closed the
    timer is cleared, and the requests ever made are the first and one
    for each firing before the closing at most, whatever follows. *)
Theorem polling_closed (k ticks : nat) :
  (requests (showSubmissionStatus pages (Some k) ticks) <= S k)%nat
  ∧ ((k < ticks)%nat -> interval (showSubmissionStatus pages (Some k) ticks) = Cleared)
  ∧ (forall events more : list event,
       interval (loop (polling (events ++ Dispose :: more))) = Cleared
       ∧ requests (loop (polling (events ++ Dispose :: more)))
         = requests (loop (polling events))
       ∧ (requests (loop (polling (events ++ Dispose :: more))) <= S (fires events))%nat).
Proof.
  destruct (started_shape pages) as (Hreq & Hrun & Hatt).
  change (showSubmissionStatus pages (Some k) ticks)
    with (tick pages (Some k) ticks O started).
  destruct (tick_closing k ticks 0 started) as [Hb Hc]; [lia|done|].
  rewrite Hreq in Hb. split; [lia|]. split; [intros Hlt; apply Hc; lia|].
  intros events more. destruct (polling_kept events) as (Hset & Hclosed & _).
  assert (Hstep : interval (loop (step (polling events) Dispose)) = Cleared
                  ∧ requests (loop (step (polling events) Dispose))
                    = requests (loop (polling events))).
  { unfold SubmissionService.step. destruct (closed (polling events)) eqn:Hcl.
    - split; [by apply Hclosed|done].
    - cbn [loop]. rewrite clearInterval_requests. split; [by apply clearInterval_set|done]. }
  destruct Hstep as [Hci Hcr]. rewrite polling_app. cbn [fold_left].
  destruct (fold_cleared more _ Hci) as [H1 H2].
  split; [done|]. split; [congruence|]. rewrite H2, Hcr.
  unfold SubmissionService.polling. etrans; [apply fold_requests|].
  cbn [loop]. change (start pages) with started. rewrite Hreq. lia.
Qed.

Lemma started_failed (m : string) : pages 0 = Failed m -> started = Poll 0 Running 1.
Proof.
  intros Hp. unfold Spec.started. rewrite updateStatus_eq. cbv zeta.
  cbn [requests attempts interval]. by rewrite Hp.
Qed.

(** X9: an answer that fails clears the timer, whenever it comes once
    the timer is started: no request is made after it, whatever
    follows; with one exception: when it is the very first fetch that
    fails, the timer is started all the same and its first firing makes
    a second request. *)
Theorem polling_failed_fetch (events more : list event) (i : nat) (m : string) :
  pages i = Failed m ->
  i ∈ waiting (polling events) ->
  interval (loop (polling (events ++ Answer i :: more))) = Cleared
  ∧ requests (loop (polling (events ++ Answer i :: more)))
    = requests (loop (polling events))
  ∧ (forall m0 : string,
       pages 0 = Failed m0 ->
       start pages = Poll 0 Running 1
       ∧ requests (loop (polling [Fire])) = 2%nat).
Proof.
  intros Hfail Hin.
  destruct (answer_ends events more i Hin) as [Hc Hr]; [left; by exists m|].
  split; [done|]. split; [done|].
  intros m0 H0. pose proof (started_failed m0 H0) as Hs.
  change (Spec.started pages) with (start pages) in Hs.
  split; [done|]. unfold SubmissionService.polling. cbn [fold_left].
  unfold SubmissionService.step. cbn [loop]. by rewrite Hs.
Qed.

Lemma is_final_statuses (status : string) :
  is_final status = true
  <-> status ∈ ["Accepted"; "Wrong Answer"; "Time Limit Exceeded"; "Memory Limit Exceeded";
                "Runtime Error"; "Compile Error"; "Presentation Error"].
Proof.
  unfold is_final. rewrite existsb_exists. split.
  - intros (x & Hin & Heq). apply String.eqb_eq in Heq as ->.
    by apply list_elem_of_In.
  - intros Hin. exists status. split; [by apply list_elem_of_In|apply String.eqb_refl].
Qed.

(** X10: the final statuses are the seven of the list and no other; an
    answer that shows one clears the timer, whenever it comes once the
    timer is started, and no request is made after it; when every
    answer comes before the next firing, the first answer of the next
    30 that shows a final status is the last request made, and with no
    final status and no failure 31 requests are made. *)
Theorem polling_outcomes :
  (forall status : string,
     is_final status = true
     <-> status ∈ ["Accepted"; "Wrong Answer"; "Time Limit Exceeded";
                   "Memory Limit Exceeded"; "Runtime Error"; "Compile Error";
                   "Presentation Error"])
  ∧ (forall (events more : list event) (i : nat),
       final_at i ->
       i ∈ waiting (polling events) ->
       interval (loop (polling (events ++ Answer i :: more))) = Cleared
       ∧ requests (loop (polling (events ++ Answer i :: more)))
         = requests (loop (polling events)))
  ∧ (forall k ticks : nat,
       (1 <= k <= maxAttempts)%nat ->
       (forall n : nat, (n < k)%nat -> pending_at n) ->
       final_at k ->
       (k <= ticks)%nat ->
       loop (polling (sequential None ticks 0 1)) = Poll (S k) Cleared (S k))
  ∧ (forall ticks : nat,
       (forall n : nat, pending_at n) ->
       (maxAttempts <= ticks)%nat ->
       loop (polling (sequential None ticks 0 1)) = Poll 31 Cleared 31).
Proof.
  split; [apply is_final_statuses|]. split; [|split].
  - intros events more i Hfin Hin. apply answer_ends; [done|by right].
  - intros k ticks Hk Hpend Hfin Hticks. rewrite polling_sequential.
    by apply poll_stops_at_final.
  - intros ticks Hpend Hticks. rewrite polling_sequential. by apply poll_ceiling.
Qed.

End MorePolling.

Section MorePollingExamples.

Import SubmissionService.

Lemma polling_failed_fetch_witness :
  let events := [Fire; Answer 1; Fire; Fire] in
  waiting (polling (Sample.failing_at 3) true events) = [2; 3]%nat
  ∧ requests (loop (polling (Sample.failing_at 3) true
                      (events ++ Answer 3 :: [Fire; Answer 2; Fire])))
    = 4%nat.
Proof.
  intros events.
  assert (Hw : waiting (polling (Sample.failing_at 3) true events) = [2; 3]%nat)
    by (vm_compute; reflexivity).
  split; [exact Hw|].
  destruct (polling_failed_fetch (Sample.failing_at 3) true events
              [Fire; Answer 2; Fire] 3 "HTTP 502: Bad Gateway") as (_ & Hr & _).
  - reflexivity.
  - rewrite Hw. apply elem_of_cons. right. apply list_elem_of_singleton. reflexivity.
  - rewrite Hr. vm_compute. reflexivity.
Defined.

(** Judged on the fourth response: four requests; never judged: 31. *)
Example polling_outcomes_examples :
  showSubmissionStatus (Sample.judged_at 3) None 40 = Poll 4 Cleared 4
  ∧ showSubmissionStatus Sample.waiting None 40 = Poll 31 Cleared 31
  ∧ showSubmissionStatus Sample.waiting (Some 5) 40 = Poll 6 Cleared 6.
Proof. repeat split; vm_compute; reflexivity. Qed.

End MorePollingExamples.

(** ** Cutting and joining *)

Section SplitJoin.

Lemma free_append (c : ascii) (s t : string) :
  Spec.free c (s +:+ t) <-> Spec.free c s ∧ Spec.free c t.
Proof.
  induction s as [|a s IH].
  - rewrite append_nil. cbn. tauto.
  - rewrite append_cons. cbn [Spec.free]. tauto.
Qed.

Lemma free_rev (c : ascii) (s : string) : Spec.free c s -> Spec.free c (String.rev s).
Proof.
  induction s as [|a s IH]; [done|]. intros [Ha Hs].
  rewrite rev_cons. apply free_append. split; [by apply IH|]. by cbn.
Qed.

(** Every piece of a cut is free of the separator. *)
Lemma split_go_pieces (sep : ascii) (s cur : string) :
  Spec.free sep cur -> Forall (Spec.free sep) (JS.split_go sep cur s).
Proof.
  revert cur. induction s as [|a s IH]; intros cur Hcur; cbn [JS.split_go].
  - apply Forall_singleton. by apply free_rev.
  - destruct (Ascii.eqb_spec a sep) as [->|Hne].
    + apply Forall_cons. split; [by apply free_rev|]. by apply IH.
    + apply IH. by cbn.
Qed.

Lemma split_pieces (sep : ascii) (s : string) :
  Forall (Spec.free sep) (JS.split sep s).
Proof. by apply split_go_pieces. Qed.

Lemma split_not_nil (sep : ascii) (s : string) : JS.split sep s ≠ [].
Proof.
  unfold JS.split. generalize "". induction s as [|a s IH]; intros cur; cbn [JS.split_go].
  - discriminate.
  - destruct (Ascii.eqb a sep); [discriminate|apply IH].
Qed.

Lemma join_cons (sep x : string) (l : list string) :
  l ≠ [] -> JS.join sep (x :: l) = x +:+ sep +:+ JS.join sep l.
Proof. intros Hl. unfold JS.join. cbn [String.concat]. by destruct l. Qed.

Lemma join_app (sep : string) (l1 l2 : list string) :
  l1 ≠ [] -> l2 ≠ [] ->
  JS.join sep (l1 ++ l2) = JS.join sep l1 +:+ sep +:+ JS.join sep l2.
Proof.
  intros H1 H2. induction l1 as [|x l1 IH]; [done|].
  destruct l1 as [|y l1].
  - cbn [app]. by rewrite join_cons.
  - change ((x :: y :: l1) ++ l2) with (x :: ((y :: l1) ++ l2)).
    rewrite join_cons by (by destruct l2).
    rewrite IH by done. rewrite (join_cons sep x (y :: l1)) by done.
    by rewrite !append_assoc.
Qed.

(** Pieces free of the separator are what the cut of their join gives. *)
Lemma split_join (sep : ascii) (l : list string) :
  l ≠ [] -> Forall (Spec.free sep) l ->
  JS.split sep (JS.join (String sep "") l) = l.
Proof.
  intros Hne Hall. induction l as [|x l IH]; [done|].
  apply Forall_cons in Hall as [Hx Hl]. destruct l as [|y l].
  - unfold JS.join. cbn [String.concat]. by apply split_free.
  - rewrite join_cons by done.
    change (String sep "" +:+ JS.join (String sep "") (y :: l))
      with (String sep (JS.join (String sep "") (y :: l))).
    rewrite split_free_cons by done. by rewrite IH.
Qed.

End SplitJoin.

(** ** More on the extractor *)

Section MoreExtractor.

Import Dom HtmlParser.

Lemma truthy_not_empty (s : string) : JS.truthy s = true <-> s ≠ "".
Proof. destruct s; cbn; split; congruence. Qed.

Lemma href_match_sound (href id : string) :
  href_match href = Some id ->
  id ≠ "" ∧ Spec.free "/" id ∧ exists pre : string, href = pre +:+ "/" +:+ id +:+ "/".
Proof.
  unfold href_match. intros H.
  destruct (rev (JS.split "/" href)) as [|a l1] eqn:E; [discriminate H|].
  destruct a as [|? ?], l1 as [|seg [|x rest]]; try discriminate H.
  destruct (JS.truthy seg) eqn:Hseg; [|discriminate H]. injection H as ->.
  assert (Hsplit : JS.split "/" href = (rev rest ++ [x]) ++ [id; ""]).
  { rewrite <- (rev_involutive (JS.split "/" href)), E. cbn [rev].
    by rewrite <- !app_assoc. }
  split; [by apply truthy_not_empty|]. split.
  - pose proof (split_pieces "/" href) as Hall. rewrite Hsplit in Hall.
    apply Forall_app in Hall as [_ Hall]. by apply Forall_cons in Hall as [? _].
  - exists (JS.join "/" (rev rest ++ [x])).
    rewrite <- (join_split "/" href) at 1. rewrite Hsplit.
    rewrite join_app; [|by destruct (rev rest)|done].
    unfold JS.join. reflexivity.
Qed.

Lemma href_match_complete (pre id : string) :
  id ≠ "" -> Spec.free "/" id ->
  href_match (pre +:+ "/" +:+ id +:+ "/") = Some id.
Proof.
  intros Hne Hfree. unfold href_match.
  assert (Hsplit : JS.split "/" (pre +:+ "/" +:+ id +:+ "/")
                   = JS.split "/" pre ++ [id; ""]).
  { rewrite <- (split_join "/" (JS.split "/" pre ++ [id; ""])).
    - f_equal. rewrite join_app; [|apply split_not_nil|done].
      rewrite join_split. unfold JS.join. reflexivity.
    - by destruct (JS.split "/" pre).
    - apply Forall_app. split; [apply split_pieces|].
      apply Forall_cons. split; [done|]. by apply Forall_singleton. }
  rewrite Hsplit, rev_app_distr. cbn [rev app].
  pose proof (split_not_nil "/" pre) as Hnil.
  destruct (rev (JS.split "/" pre)) eqn:E.
  - apply (f_equal (@rev string)) in E. rewrite rev_involutive in E. done.
  - apply truthy_not_empty in Hne. by rewrite Hne.
Qed.

(** X11: the id of a practice or contest is read off a link address
    exactly when the address ends in a slash, a segment that is not
    empty and holds no slash, and a slash before it: the segment is the
    id. *)
Theorem href_match_iff (href id : string) :
  href_match href = Some id
  <-> id ≠ "" ∧ Spec.free "/" id
      ∧ exists pre : string, href = pre +:+ "/" +:+ id +:+ "/".
Proof.
  split; [apply href_match_sound|].
  intros (Hne & Hfree & pre & ->). by apply href_match_complete.
Qed.

Lemma length_omap_le {A B : Type} (f : A -> option B) (l : list A) :
  (length (omap f l) <= length l)%nat.
Proof.
  induction l as [|x l IH]; [done|]. rewrite omap_cons.
  destruct (f x); cbn [length]; lia.
Qed.

Lemma item_record (subdomain : string) (k : Practice.kind) (elem : loc) (p : Practice.t) :
  item subdomain k elem = Some p ->
  Practice.type p = k
  ∧ Practice.groupSubdomain p = subdomain
  ∧ Practice.url p = "http://" +:+ subdomain +:+ ".openjudge.cn/" +:+ Practice.id p +:+ "/"
  ∧ Practice.name p
    = JS.trim (text_of (first (find [elem] (is_tag "a") [is_tag "h3"])))
  ∧ (attr_of "href" (first (find [elem] (is_tag "a") [is_tag "h3"]))) ≫= href_match
    = Some (Practice.id p).
Proof.
  unfold item. destruct (_ ≫= href_match) as [practiceId|] eqn:E; [|done].
  by intros [= <-].
Qed.

(** C7: [parsePracticeList] returns the records of the practice items
    followed by those of the contest items, each family in document
    order and each record tagged with its kind; a list item gives a
    record exactly when the address of its title link ends in a slash,
    an id that is not empty and holds no slash, and a slash before it,
    and the record then has that id, the trimmed text of the link as its
    name, and is part of the result; the problem count of a record is
    the number read from the pattern of a count in the text next to its
    link (exactly so up to 2^53), and 0 when that text holds no such
    pattern. *)
Theorem parsePracticeList_families (d : document) (subdomain : string) :
  parsePracticeList d subdomain
  = omap (item subdomain Practice.practice)
         (filter (fun l => li_of "practice-info" (self l) = true) (elements d))
    ++ omap (item subdomain Practice.contest)
            (filter (fun l => li_of "contest-info" (self l) = true) (elements d))
  ∧ (forall p : Practice.t,
       p ∈ omap (item subdomain Practice.practice)
              (filter (fun l => li_of "practice-info" (self l) = true) (elements d)) ->
       Practice.type p = Practice.practice)
  ∧ (forall p : Practice.t,
       p ∈ omap (item subdomain Practice.contest)
              (filter (fun l => li_of "contest-info" (self l) = true) (elements d)) ->
       Practice.type p = Practice.contest)
  ∧ (forall (k : Practice.kind) (elem : loc) (p : Practice.t),
       item subdomain k elem = Some p ->
       (forall ds : string, Spec.counted (Spec.count_text elem) ds ->
          exists ds' : string,
            Spec.counted (Spec.count_text elem) ds'
            ∧ Practice.problemCount p = JS.parseInt ds'
            ∧ ((Spec.decimal ds' <= 2 ^ 53)%N ->
                 Practice.problemCount p = JS.Int (Z.of_N (Spec.decimal ds'))))
       ∧ ((forall ds : string, ¬ Spec.counted (Spec.count_text elem) ds) ->
            Practice.problemCount p = JS.Int 0))
  ∧ (forall (k : Practice.kind) (elem : loc) (href pre id : string),
       attr_of "href" (first (find [elem] (is_tag "a") [is_tag "h3"])) = Some href ->
       href = pre +:+ "/" +:+ id +:+ "/" -> id ≠ "" -> Spec.free "/" id ->
       exists p : Practice.t,
         item subdomain k elem = Some p
         ∧ Practice.id p = id
         ∧ Practice.name p
           = JS.trim (text_of (first (find [elem] (is_tag "a") [is_tag "h3"])))
         ∧ Practice.groupSubdomain p = subdomain
         ∧ Practice.url p = "http://" +:+ subdomain +:+ ".openjudge.cn/" +:+ id +:+ "/"
         ∧ Practice.type p = k)
  ∧ (forall (k : Practice.kind) (elem : loc) (p : Practice.t),
       item subdomain k elem = Some p ->
       exists href pre : string,
         attr_of "href" (first (find [elem] (is_tag "a") [is_tag "h3"])) = Some href
         ∧ href = pre +:+ "/" +:+ Practice.id p +:+ "/"
         ∧ Practice.id p ≠ "" ∧ Spec.free "/" (Practice.id p))
  ∧ (forall (elem : loc) (href pre id : string),
       attr_of "href" (first (find [elem] (is_tag "a") [is_tag "h3"])) = Some href ->
       href = pre +:+ "/" +:+ id +:+ "/" -> id ≠ "" -> Spec.free "/" id ->
       (elem ∈ filter (fun l => li_of "practice-info" (self l) = true) (elements d) ->
        exists p : Practice.t,
          p ∈ parsePracticeList d subdomain
          ∧ Practice.id p = id ∧ Practice.type p = Practice.practice)
       ∧ (elem ∈ filter (fun l => li_of "contest-info" (self l) = true) (elements d) ->
          exists p : Practice.t,
            p ∈ parsePracticeList d subdomain
            ∧ Practice.id p = id ∧ Practice.type p = Practice.contest)).
Proof.
  assert (Hparse : parsePracticeList d subdomain
            = omap (item subdomain Practice.practice)
                   (filter (fun l => li_of "practice-info" (self l) = true) (elements d))
              ++ omap (item subdomain Practice.contest)
                      (filter (fun l => li_of "contest-info" (self l) = true) (elements d))).
  { unfold parsePracticeList. cbv zeta. rewrite !each_push_omap, !select_plain.
    reflexivity. }
  assert (Hyield : forall (k : Practice.kind) (elem : loc) (href pre id : string),
            attr_of "href" (first (find [elem] (is_tag "a") [is_tag "h3"])) = Some href ->
            href = pre +:+ "/" +:+ id +:+ "/" -> id ≠ "" -> Spec.free "/" id ->
            exists p : Practice.t,
              item subdomain k elem = Some p
              ∧ Practice.id p = id
              ∧ Practice.name p
                = JS.trim (text_of (first (find [elem] (is_tag "a") [is_tag "h3"])))
              ∧ Practice.groupSubdomain p = subdomain
              ∧ Practice.url p
                = "http://" +:+ subdomain +:+ ".openjudge.cn/" +:+ id +:+ "/"
              ∧ Practice.type p = k).
  { intros k elem href pre id Hattr -> Hne Hfree. unfold item. cbv zeta.
    rewrite Hattr. cbn [mbind option_bind]. rewrite href_match_complete by done.
    eexists. split; [reflexivity|]. by cbn. }
  split; [exact Hparse|]. split; [apply omap_item_kind|]. split; [apply omap_item_kind|].
  split; [|split; [exact Hyield|split]].
  - intros k elem p Hitem. apply item_kind in Hitem as [_ Hcount]. split.
    + intros ds Hds. destruct (count_match_complete _ _ Hds) as [ds' Hm].
      rewrite Hm in Hcount. pose proof (count_match_sound _ _ Hm) as Hc.
      exists ds'. split; [exact Hc|]. split; [exact Hcount|].
      intros Hsmall. destruct Hc as (_ & _ & _ & Hne & Hall).
      rewrite Hcount, parseInt_decimal by done.
      by destruct (N.leb_spec (Spec.decimal ds') (2 ^ 53)); [|lia].
    + intros Hnone. destruct (count_match (Spec.count_text elem)) as [ds|] eqn:Hm; [|done].
      exfalso. apply (Hnone ds). by apply count_match_sound.
  - intros k elem p Hitem. apply item_record in Hitem as (_ & _ & _ & _ & Hhref).
    destruct (attr_of "href" (first (find [elem] (is_tag "a") [is_tag "h3"])))
      as [href|]; [|discriminate Hhref].
    cbn [mbind option_bind] in Hhref.
    apply href_match_sound in Hhref as (Hne & Hfree & pre & Hform).
    by exists href, pre.
  - intros elem href pre id Hattr Hform Hne Hfree. split; intros Hin.
    + destruct (Hyield Practice.practice elem href pre id Hattr Hform Hne Hfree)
        as (p & Hitem & Hid & _ & _ & _ & Hk).
      exists p. split; [|done]. rewrite Hparse. apply elem_of_app. left.
      apply list_elem_of_omap. by exists elem.
    + destruct (Hyield Practice.contest elem href pre id Hattr Hform Hne Hfree)
        as (p & Hitem & Hid & _ & _ & _ & Hk).
      exists p. split; [|done]. rewrite Hparse. apply elem_of_app. right.
      apply list_elem_of_omap. by exists elem.
Qed.

(** X12: every record of [parsePracticeList] has an id that is not
    empty and holds no slash, taken from a link whose address ends in
    /id/; its url is that of the id under the group's site, and its
    group is the one asked for; and there are no more records than list
    items of the two families. *)
Theorem parsePracticeList_records (d : document) (subdomain : string) :
  (forall p : Practice.t,
     p ∈ parsePracticeList d subdomain ->
     Practice.id p ≠ ""
     ∧ Spec.free "/" (Practice.id p)
     ∧ Practice.groupSubdomain p = subdomain
     ∧ Practice.url p
       = "http://" +:+ subdomain +:+ ".openjudge.cn/" +:+ Practice.id p +:+ "/"
     ∧ exists (elem : loc) (href pre : string),
         elem ∈ elements d
         ∧ attr_of "href" (first (find [elem] (is_tag "a") [is_tag "h3"])) = Some href
         ∧ href = pre +:+ "/" +:+ Practice.id p +:+ "/")
  ∧ (length (parsePracticeList d subdomain)
     <= length (select d (li_of "practice-info") [])
        + length (select d (li_of "contest-info") []))%nat.
Proof.
  unfold parsePracticeList. cbv zeta. rewrite !each_push_omap. cbn [app]. split.
  - intros p Hp.
    assert (Hitem : exists (k : Practice.kind) (elem : loc),
              elem ∈ elements d ∧ item subdomain k elem = Some p).
    { apply elem_of_app in Hp as [Hp|Hp];
        apply list_elem_of_omap in Hp as (elem & Hin & Hitem);
        rewrite select_plain in Hin; apply list_elem_of_filter in Hin as [_ Hin]; eauto. }
    destruct Hitem as (k & elem & Hin & Hitem).
    apply item_record in Hitem as (_ & Hsub & Hurl & _ & Hhref).
    destruct (attr_of "href" _) as [href|] eqn:Hattr; [|done]. cbn in Hhref.
    apply href_match_sound in Hhref as (Hne & Hfree & pre & Hpre).
    split; [done|]. split; [done|]. split; [done|]. split; [done|].
    by exists elem, href, pre.
  - rewrite length_app. pose proof (length_omap_le (item subdomain Practice.practice)
      (select d (li_of "practice-info") [])).
    pose proof (length_omap_le (item subdomain Practice.contest)
      (select d (li_of "contest-info") [])). lia.
Qed.

(** [parseProblemList] by the layout it settles on. *)
Lemma parseProblemList_eq (d : document) (practiceId subdomain : string) :
  parseProblemList d practiceId subdomain
  = if existsb is_primary (rows d)
    then omap (primary_problem practiceId subdomain (contestId_of d))
              (filter (fun r => is_primary r = true) (rows d))
    else omap (generic_problem practiceId subdomain (contestId_of d)) (rows d).
Proof.
  unfold parseProblemList. rewrite fold_primary_step. cbn [orb app].
  destruct (existsb is_primary (rows d)) eqn:Hex; cbn [negb]; [done|].
  rewrite each_push_omap, filter_none; [done|].
  intros r Hr. apply not_true_is_false. intros Hp.
  assert (existsb is_primary (rows d) = true); [|congruence].
  apply existsb_exists. exists r. split; [by apply list_elem_of_In|done].
Qed.

Lemma primary_problem_record (practiceId subdomain : string) (contestId : option string)
    (row : loc) (p : Problem.t) :
  primary_problem practiceId subdomain contestId row = Some p ->
  Problem.id p ≠ "" ∧ Problem.title p ≠ ""
  ∧ Problem.practiceId p = practiceId ∧ Problem.groupSubdomain p = subdomain
  ∧ Problem.contestId p = contestId
  ∧ Problem.url p = problem_url subdomain practiceId (Problem.id p)
  ∧ Problem.acceptanceRate p = None ∧ Problem.passedCount p = None.
Proof.
  unfold primary_problem. cbv zeta.
  destruct (JS.truthy _ && JS.truthy _) eqn:Ht; [|done].
  apply andb_true_iff in Ht as [H1%truthy_not_empty H2%truthy_not_empty].
  by intros [= <-].
Qed.

Lemma generic_problem_record (practiceId subdomain : string) (contestId : option string)
    (row : loc) (p : Problem.t) :
  generic_problem practiceId subdomain contestId row = Some p ->
  Problem.id p ≠ "" ∧ Problem.title p ≠ ""
  ∧ Problem.practiceId p = practiceId ∧ Problem.groupSubdomain p = subdomain
  ∧ Problem.contestId p = contestId
  ∧ Problem.url p = problem_url subdomain practiceId (Problem.id p).
Proof.
  unfold generic_problem. cbv zeta.
  destruct (2 <=? _)%nat; [|done].
  destruct (JS.truthy _ && JS.truthy _) eqn:Ht; [|done].
  apply andb_true_iff in Ht as [H1%truthy_not_empty H2%truthy_not_empty].
  by intros [= <-].
Qed.

(** X13: every problem of [parseProblemList] has an id and a title that
    are not empty, belongs to the practice and group asked for, carries
    the contest id that [extractContestId] reads off the same page, and
    has the url of its id under the practice; a page of the first layout
    gives no acceptance rate and no passed count; and no row gives more
    than one problem. *)
Theorem parseProblemList_records (d : document) (practiceId subdomain : string) :
  (forall p : Problem.t,
     p ∈ parseProblemList d practiceId subdomain ->
     Problem.id p ≠ "" ∧ Problem.title p ≠ ""
     ∧ Problem.practiceId p = practiceId ∧ Problem.groupSubdomain p = subdomain
     ∧ Problem.contestId p = extractContestId d
     ∧ Problem.url p
       = "http://" +:+ subdomain +:+ ".openjudge.cn/" +:+ practiceId +:+ "/"
         +:+ Problem.id p +:+ "/"
     ∧ (existsb is_primary (rows d) = true ->
          Problem.acceptanceRate p = None ∧ Problem.passedCount p = None))
  ∧ (length (parseProblemList d practiceId subdomain) <= length (rows d))%nat.
Proof.
  rewrite parseProblemList_eq. unfold extractContestId.
  destruct (existsb is_primary (rows d)) eqn:Hex; split.
  - intros p (row & _ & Hp)%list_elem_of_omap.
    apply primary_problem_record in Hp as (? & ? & ? & ? & ? & ? & ? & ?).
    repeat split; done.
  - etrans; [apply length_omap_le|]. apply length_filter.
  - intros p (row & _ & Hp)%list_elem_of_omap.
    apply generic_problem_record in Hp as (? & ? & ? & ? & ? & ?).
    repeat split; done.
  - apply length_omap_le.
Qed.

End MoreExtractor.

(** ** The status page *)

Section MoreStatusPage.

Import Dom HtmlParser StatusPage.

(** Every [pre] block is among the code blocks, and nothing else is. *)
Lemma code_blocks_pre (d : document) : code_blocks d = select d (is_tag "pre") [].
Proof.
  unfold code_blocks, select, select_by. apply list_filter_iff. intros l.
  unfold meets. cbn [chain]. rewrite !andb_true_r.
  destruct (is_tag "pre" (self l)); cbn [andb orb]; [|done].
  rewrite !orb_true_r. done.
Qed.

(** X14: the error message of a status page is empty unless the status
    names a compile error, and then it is the text of the first [pre]
    block that mentions an error, or empty when no block does; the code
    is the text of the first [pre] block of the page, so that a source
    that mentions an error is itself taken for the error message. *)
Theorem parseSubmissionStatus_error (d : document) (submissionId : string) :
  let r := parseSubmissionStatus d submissionId in
  let pres := select d (is_tag "pre") [] in
  SubmissionStatus.status r = status_of d
  ∧ SubmissionStatus.code r = text_of (first pres)
  ∧ (is_compile_error (SubmissionStatus.status r) = false ->
       SubmissionStatus.errorMessage r = "")
  ∧ (is_compile_error (SubmissionStatus.status r) = true ->
       SubmissionStatus.errorMessage r
       = text_of (first (filter (fun l => mentions_error l = true) pres)))
  ∧ ((forall l : loc, l ∈ pres -> mentions_error l = false) ->
       SubmissionStatus.errorMessage r = "")
  ∧ (is_compile_error (SubmissionStatus.status r) = true ->
     forall (p : loc) (rest : list loc),
       pres = p :: rest -> mentions_error p = true ->
       SubmissionStatus.errorMessage r = SubmissionStatus.code r).
Proof.
  intros r pres. subst r. unfold parseSubmissionStatus. cbv zeta.
  cbn [SubmissionStatus.status SubmissionStatus.code SubmissionStatus.errorMessage].
  rewrite code_blocks_pre. fold pres. unfold error_of. cbv zeta. fold pres.
  split; [done|]. split; [done|]. split; [by intros ->|]. split; [|split].
  - intros ->. destruct (filter _ pres) as [|x l]; reflexivity.
  - intros Hnone. destruct (is_compile_error _); [|done].
    rewrite filter_nothing; [done|]. intros l Hl. rewrite (Hnone l Hl). discriminate.
  - intros -> p rest Hpres Hp. rewrite Hpres.
    rewrite filter_cons_True by done. reflexivity.
Qed.

Lemma info_of_filled (d : document) (k v : string) :
  info_of d !! k = Some v -> k ≠ "" ∧ v ≠ "".
Proof.
  unfold info_of.
  assert (G : forall (l : list loc) (m : gmap string string),
            (forall k v, m !! k = Some v -> k ≠ "" ∧ v ≠ "") ->
            forall k v,
              fold_left
                (fun m dt =>
                   let key := JS.drop_first_colon (JS.trim (text (self dt))) in
                   let value := JS.trim (text_of (next dt (is_tag "dd"))) in
                   if JS.truthy key && JS.truthy value then <[key := value]> m else m)
                l m !! k = Some v -> k ≠ "" ∧ v ≠ "").
  { induction l as [|dt l IH]; intros m Hm k' v'; [apply Hm|].
    cbn [fold_left]. apply IH. cbv zeta.
    destruct (JS.truthy _ && JS.truthy _) eqn:Ht; [|exact Hm].
    apply andb_true_iff in Ht as [H1%truthy_not_empty H2%truthy_not_empty].
    intros k2 v2. rewrite lookup_insert. case_decide; [|apply Hm].
    intros [= <-]. by subst k2. }
  apply G. intros k' v'. by rewrite lookup_empty.
Qed.

(** X15: the info list keeps only terms that have a key and a value, so
    the memory, the time and the submitter of a status are absent rather
    than empty, and each of the three is the value under its localized
    label when there is one, else the value under its English label,
    else absent. *)
Theorem parseSubmissionStatus_optional (d : document) (submissionId : string) :
  let r := parseSubmissionStatus d submissionId in
  let labelled (localized english : string) : option string :=
    match info_of d !! localized with
    | Some v => Some v
    | None => info_of d !! english
    end in
  (forall k v : string, info_of d !! k = Some v -> k ≠ "" ∧ v ≠ "")
  ∧ SubmissionStatus.memory r ≠ Some ""
  ∧ SubmissionStatus.time r ≠ Some ""
  ∧ SubmissionStatus.submitter r ≠ Some ""
  ∧ SubmissionStatus.memory r = labelled "内存" "Memory"
  ∧ SubmissionStatus.time r = labelled "时间" "Time"
  ∧ SubmissionStatus.submitter r = labelled "提交人" "Submitter"
  ∧ (forall v : string, info_of d !! "内存" = Some v -> SubmissionStatus.memory r = Some v)
  ∧ (info_of d !! "内存" = None -> SubmissionStatus.memory r = info_of d !! "Memory")
  ∧ (info_of d !! "内存" = None -> info_of d !! "Memory" = None ->
       SubmissionStatus.memory r = None).
Proof.
  intros r labelled. subst r labelled. unfold parseSubmissionStatus. cbv zeta.
  cbn [SubmissionStatus.memory SubmissionStatus.time SubmissionStatus.submitter].
  assert (Hinfo : forall k v : string, info_of d !! k = Some v -> v ≠ "")
    by (intros k v Hk; by apply info_of_filled in Hk as [_ ?]).
  assert (Hlab : forall a b : string,
            JS.or_else (JS.or_else (info_of d !! a) (info_of d !! b)) None
            = match info_of d !! a with
              | Some v => Some v
              | None => info_of d !! b
              end).
  { intros a b. destruct (info_of d !! a) as [v|] eqn:Ea.
    - pose proof (Hinfo _ _ Ea). by destruct v.
    - cbn [JS.or_else]. destruct (info_of d !! b) as [w|] eqn:Eb; [|done].
      pose proof (Hinfo _ _ Eb). by destruct w. }
  assert (Hopt : forall a b : string,
            JS.or_else (JS.or_else (info_of d !! a) (info_of d !! b)) None ≠ Some "").
  { intros a b. rewrite Hlab. destruct (info_of d !! a) as [v|] eqn:Ea.
    - intros [= ->]. by apply (Hinfo _ _ Ea).
    - intros Eb. by apply (Hinfo _ _ Eb). }
  split; [apply info_of_filled|]. split; [apply Hopt|]. split; [apply Hopt|].
  split; [apply Hopt|]. split; [apply Hlab|]. split; [apply Hlab|]. split; [apply Hlab|].
  rewrite Hlab. split; [|split].
  - by intros v ->.
  - by intros ->.
  - by intros -> ->.
Qed.

End MoreStatusPage.

(** ** Escaping and the id of a submission *)

Section MoreWebview.

Import Webview.

Lemma entity_cases (c : ascii) (e : string) :
  entity c = Some e ->
  (c = "&"%char ∧ e = "&amp;") ∨ (c = "<"%char ∧ e = "&lt;") ∨ (c = ">"%char ∧ e = "&gt;")
  ∨ (c = dquote ∧ e = "&quot;") ∨ (c = "'"%char ∧ e = "&#039;").
Proof.
  unfold entity.
  repeat match goal with
         | |- context [Ascii.eqb c ?x] => destruct (Ascii.eqb_spec c x) as [->|?]
         end; intros [= <-]; tauto.
Qed.

Lemma entity_none (c : ascii) :
  entity c = None ->
  c ≠ "&"%char ∧ c ≠ "<"%char ∧ c ≠ ">"%char ∧ c ≠ dquote ∧ c ≠ "'"%char.
Proof.
  unfold entity.
  repeat match goal with
         | |- context [Ascii.eqb c ?x] => destruct (Ascii.eqb_spec c x) as [->|?]
         end; try discriminate. tauto.
Qed.

Lemma escapeHtml_append (a b : string) :
  escapeHtml (a +:+ b) = escapeHtml a +:+ escapeHtml b.
Proof.
  induction a as [|c a IH]; [done|]. rewrite append_cons. cbn [escapeHtml].
  destruct (entity c); rewrite IH; [by rewrite append_assoc|by rewrite append_cons].
Qed.

Lemma escapeHtml_free (c : ascii) (text : string) :
  c ∈ ["<"; ">"; dquote; "'"]%char -> Spec.free c (escapeHtml text).
Proof.
  intros Hc. induction text as [|a text IH]; [done|]. cbn [escapeHtml].
  destruct (entity a) as [e|] eqn:He.
  - apply free_append. split; [|done].
    apply entity_cases in He as [[_ ->]|[[_ ->]|[[_ ->]|[[_ ->]|[_ ->]]]]];
      repeat (apply elem_of_cons in Hc as [->|Hc]; [cbn; intuition discriminate|]);
      by apply elem_of_nil in Hc.
  - split; [|done]. apply entity_none in He as (_ & ? & ? & ? & ?).
    repeat (apply elem_of_cons in Hc as [->|Hc]; [done|]). by apply elem_of_nil in Hc.
Qed.

Lemma escapeHtml_plain (text : string) :
  (forall c : ascii, c ∈ ["&"; "<"; ">"; dquote; "'"]%char -> Spec.free c text) ->
  escapeHtml text = text.
Proof.
  intros Hfree. induction text as [|a text IH]; [done|]. cbn [escapeHtml].
  assert (Ha : entity a = None).
  { destruct (entity a) as [e|] eqn:He; [|done]. exfalso.
    assert (Hin : a ∈ ["&"; "<"; ">"; dquote; "'"]%char).
    { apply entity_cases in He as [[-> _]|[[-> _]|[[-> _]|[[-> _]|[-> _]]]]];
        repeat constructor. }
    by destruct (Hfree a Hin) as [Hx _]. }
  rewrite Ha, IH; [done|]. intros c Hc. by destruct (Hfree c Hc).
Qed.

Lemma escapeHtml_inj (a b : string) : escapeHtml a = escapeHtml b -> a = b.
Proof.
  revert b. induction a as [|c a IH]; intros b Heq.
  - destruct b as [|d b]; [done|]. cbn [escapeHtml] in Heq.
    destruct (entity d) as [e|] eqn:He; [|discriminate Heq].
    apply entity_cases in He as [[_ ->]|[[_ ->]|[[_ ->]|[[_ ->]|[_ ->]]]]];
      discriminate Heq.
  - destruct b as [|d b]; cbn [escapeHtml] in Heq.
    + destruct (entity c) as [e|] eqn:He; [|discriminate Heq].
      apply entity_cases in He as [[_ ->]|[[_ ->]|[[_ ->]|[[_ ->]|[_ ->]]]]];
        discriminate Heq.
    + destruct (entity c) as [e|] eqn:Hc, (entity d) as [e'|] eqn:Hd.
      * apply entity_cases in Hc as [[-> ->]|[[-> ->]|[[-> ->]|[[-> ->]|[-> ->]]]]];
          apply entity_cases in Hd as [[-> ->]|[[-> ->]|[[-> ->]|[[-> ->]|[-> ->]]]]];
          try discriminate Heq; f_equal; apply IH;
          cbv [String.append] in Heq; congruence.
      * apply entity_none in Hd as (Hamp & _).
        apply entity_cases in Hc as [[_ ->]|[[_ ->]|[[_ ->]|[[_ ->]|[_ ->]]]]];
          cbv [String.append] in Heq; congruence.
      * apply entity_none in Hc as (Hamp & _).
        apply entity_cases in Hd as [[_ ->]|[[_ ->]|[[_ ->]|[[_ ->]|[_ ->]]]]];
          cbv [String.append] in Heq; congruence.
      * injection Heq as -> Heq. f_equal. by apply IH.
Qed.

(** X16: escaped text holds no angle bracket and no quote of either
    kind; text without the five special characters is left as it is;
    escaping goes piece by piece; and two texts that escape to the same
    text are the same. *)
Theorem escapeHtml_safe (text : string) :
  Spec.free "<" (escapeHtml text) ∧ Spec.free ">" (escapeHtml text)
  ∧ Spec.free dquote (escapeHtml text) ∧ Spec.free "'" (escapeHtml text)
  ∧ ((forall c : ascii, c ∈ ["&"; "<"; ">"; dquote; "'"]%char -> Spec.free c text) ->
       escapeHtml text = text)
  ∧ (forall more : string,
       escapeHtml (text +:+ more) = escapeHtml text +:+ escapeHtml more)
  ∧ (forall other : string, escapeHtml text = escapeHtml other -> text = other).
Proof.
  split; [apply escapeHtml_free; repeat constructor|].
  split; [apply escapeHtml_free; repeat constructor|].
  split; [apply escapeHtml_free; repeat constructor|].
  split; [apply escapeHtml_free; repeat constructor|].
  split; [apply escapeHtml_plain|].
  split; [apply escapeHtml_append|apply escapeHtml_inj].
Qed.

End MoreWebview.

(** ** The id of a submission, the title of a problem, the groups *)

Section MoreSmall.

Import Webview.

Lemma split_tail (sep : ascii) (pre : string) (l : list string) :
  l ≠ [] -> Forall (Spec.free sep) l ->
  JS.split sep (pre +:+ String sep (JS.join (String sep "") l)) = JS.split sep pre ++ l.
Proof.
  intros Hne Hall.
  rewrite <- (split_join sep (JS.split sep pre ++ l)).
  - f_equal. rewrite join_app; [|apply split_not_nil|done]. by rewrite join_split.
  - by destruct (JS.split sep pre).
  - apply Forall_app. split; [apply split_pieces|done].
Qed.

Lemma last_filter_snoc {A : Type} (P : A -> Prop) `{forall x, Decision (P x)}
    (l : list A) (x : A) :
  P x -> last (filter P (l ++ [x])) = Some x.
Proof.
  intros Hx. rewrite filter_app, filter_cons_True by done.
  rewrite filter_nil. apply last_snoc.
Qed.

Lemma split_only (sep : ascii) (s : string) :
  Terms.only sep s -> Forall (fun p => p = "") (JS.split sep s).
Proof.
  unfold JS.split. induction s as [|a s IH]; intros Honly; cbn [JS.split_go].
  - by apply Forall_singleton.
  - destruct Honly as [-> Hs]. rewrite Ascii.eqb_refl.
    apply Forall_cons. split; [done|by apply IH].
Qed.

Lemma join_empties (sep : ascii) (l : list string) :
  Forall (fun p => p = "") l -> Terms.only sep (JS.join (String sep "") l).
Proof.
  induction l as [|x l IH]; intros Hall; [done|].
  apply Forall_cons in Hall as [-> Hl]. destruct l as [|y l]; [done|].
  rewrite join_cons by done. rewrite append_nil. split; [done|by apply IH].
Qed.

(** X17: the id of a submission is the last segment of the redirect
    address that is not empty, with or without a slash after it: it is
    never empty and holds no slash; and there is none exactly when the
    address is made of slashes alone. *)
Theorem submissionId_last_segment (redirectUrl : string) :
  (forall id : string,
     submissionId_of redirectUrl = Some id -> id ≠ "" ∧ Spec.free "/" id)
  ∧ (forall pre id : string,
       id ≠ "" -> Spec.free "/" id ->
       (redirectUrl = pre +:+ "/" +:+ id +:+ "/" ∨ redirectUrl = pre +:+ "/" +:+ id) ->
       submissionId_of redirectUrl = Some id)
  ∧ (submissionId_of redirectUrl = None <-> Terms.only "/" redirectUrl).
Proof.
  unfold submissionId_of. split; [|split].
  - intros id Hlast. apply last_Some_elem_of in Hlast.
    apply list_elem_of_filter in Hlast as [Ht Hin]. split; [by apply truthy_not_empty|].
    pose proof (split_pieces "/" redirectUrl) as Hall.
    rewrite Forall_forall in Hall. by apply Hall.
  - intros pre id Hne Hfree [->| ->].
    + change (pre +:+ "/" +:+ id +:+ "/")
        with (pre +:+ String "/"%char (JS.join "/" [id; ""])).
      rewrite split_tail; [|done|].
      * change [id; ""] with ([id] ++ [""]). rewrite app_assoc, filter_app.
        rewrite (filter_cons_False _ "") by (cbn; discriminate).
        rewrite filter_nil, app_nil_r. apply last_filter_snoc.
        by apply truthy_not_empty.
      * apply Forall_cons. split; [done|]. by apply Forall_singleton.
    + change (pre +:+ "/" +:+ id) with (pre +:+ String "/"%char (JS.join "/" [id])).
      rewrite split_tail; [|done|by apply Forall_singleton].
      apply last_filter_snoc. by apply truthy_not_empty.
  - split.
    + intros Hnone. apply last_None in Hnone.
      rewrite <- (join_split "/" redirectUrl). apply join_empties.
      apply Forall_forall. intros p Hp. destruct p as [|c p]; [done|]. exfalso.
      eapply (filter_nil_not_elem_of _ _ (String c p) Hnone); done.
    + intros Honly. apply split_only in Honly. apply last_None.
      apply filter_nothing. intros p Hp Ht.
      rewrite Forall_forall in Honly. by rewrite (Honly p Hp) in Ht.
Qed.

Section Title.

Variable serialize : list Dom.node -> string.

Lemma drop_number_prefix_numbered (ds rest : string) :
  Spec.all_digits ds = true -> ds ≠ "" ->
  JS.drop_number_prefix (ds +:+ ":" +:+ rest) = rest.
Proof.
  intros Hall Hne. unfold JS.drop_number_prefix.
  rewrite (span_digits_append ds (":" +:+ rest) Hall).
  - by destruct ds.
  - intros c r' [= <- _]. reflexivity.
Qed.

Lemma drop_number_prefix_plain (ds rest : string) :
  Spec.all_digits ds = true ->
  (forall (c : ascii) (r' : string),
     rest = String c r' -> JS.is_digit c = false ∧ (ds = "" ∨ c ≠ ":"%char)) ->
  JS.drop_number_prefix (ds +:+ rest) = ds +:+ rest.
Proof.
  intros Hall Hrest. unfold JS.drop_number_prefix.
  rewrite (span_digits_append ds rest Hall).
  - destruct ds as [|a ds]; [done|]. destruct rest as [|c r']; [done|].
    destruct (Hrest c r' eq_refl) as [_ [?|Hc]]; [done|].
    destruct (Ascii.eqb_spec c ":"%char) as [->|_]; [done|].
    destruct c as [[] [] [] [] [] [] [] []]; try reflexivity. by destruct Hc.
  - intros c r' Hr. by destruct (Hrest c r' Hr).
Qed.

(** X18: the title of a problem is the text of the heading without a
    leading number and its colon, trimmed; a heading that does not start
    with digits followed at once by a colon, as one with white space
    before the number, keeps all of its text. *)
Theorem parseProblemDetail_title (d : Dom.document) (problemId : string) :
  let title := ProblemDetail.title (HtmlParser.parseProblemDetail serialize d problemId) in
  (forall ds rest : string,
     Spec.all_digits ds = true -> ds ≠ "" ->
     Terms.heading d = ds +:+ ":" +:+ rest -> title = JS.trim rest)
  ∧ (forall ds rest : string,
       Spec.all_digits ds = true ->
       (forall (c : ascii) (r' : string),
          rest = String c r' -> JS.is_digit c = false ∧ (ds = "" ∨ c ≠ ":"%char)) ->
       Terms.heading d = ds +:+ rest -> title = JS.trim (ds +:+ rest)).
Proof.
  cbv zeta. unfold HtmlParser.parseProblemDetail. cbv zeta.
  cbn [ProblemDetail.title]. fold (Terms.heading d). split.
  - intros ds rest Hall Hne ->. by rewrite drop_number_prefix_numbered.
  - intros ds rest Hall Hrest ->. by rewrite drop_number_prefix_plain.
Qed.

End Title.

Import Extension.

Lemma strip_head_tight (s : string) (n : nat) :
  JS.ws_head s = None -> JS.strip JS.ws_head n s = s.
Proof. intros H. destruct n; cbn [JS.strip]; [done|]. by rewrite H. Qed.

Lemma trim_space_tight (s : string) : Terms.tight s -> JS.trim (String " " s) = s.
Proof.
  intros Ht. pose proof (trim_tight s Ht) as Htrim. destruct Ht as [Hh Hl].
  assert (Hs : JS.trimStart s = s) by by apply strip_head_tight.
  assert (Hc : JS.trimStart (String " " s) = s).
  { unfold JS.trimStart. cbn [String.length JS.strip].
    change (JS.ws_head (String " " s)) with (Some s). by apply strip_head_tight. }
  unfold JS.trim in *. by rewrite Hc, <- Hs at 1.
Qed.

Lemma free_space_cons (g : string) :
  Spec.free "," g -> Spec.free "," (String " " g).
Proof. intros H. by split. Qed.

Lemma groups_spaced (g : string) (groups : list string) :
  Forall (fun g => g ≠ "" ∧ Spec.free "," g ∧ Terms.tight g) (g :: groups) ->
  JS.trim <$> JS.split "," (String " " (show_groups (g :: groups))) = g :: groups.
Proof.
  unfold show_groups. revert g. induction groups as [|g' groups IH]; intros g Hall.
  - apply Forall_singleton in Hall as (_ & Hfree & Ht).
    cbn [JS.join]. rewrite split_free by by apply free_space_cons.
    cbn [fmap list_fmap]. by rewrite trim_space_tight.
  - apply Forall_cons in Hall as [(_ & Hfree & Ht) Hall].
    change (JS.join ", " (g :: g' :: groups))
      with (g +:+ ", " +:+ JS.join ", " (g' :: groups)).
    change (String " " (g +:+ ", " +:+ JS.join ", " (g' :: groups)))
      with ((String " " g) +:+ ", " +:+ JS.join ", " (g' :: groups)).
    change (", " +:+ JS.join ", " (g' :: groups))
      with (String ","%char (String " " (JS.join ", " (g' :: groups)))).
    rewrite split_free_cons by by apply free_space_cons.
    rewrite fmap_cons, IH by done. by rewrite trim_space_tight.
Qed.

Lemma parse_show_groups (groups : list string) :
  Forall (fun g => g ≠ "" ∧ Spec.free "," g ∧ Terms.tight g) groups ->
  parse_groups (show_groups groups) = groups.
Proof.
  intros Hgood. unfold parse_groups.
  assert (Hpieces : groups ≠ [] ->
            JS.trim <$> JS.split "," (show_groups groups) = groups).
  { destruct groups as [|g groups]; [done|]. intros _.
    destruct groups as [|g' groups].
    - apply Forall_singleton in Hgood as (_ & Hfree & Ht).
      unfold show_groups. cbn [JS.join]. rewrite split_free by done.
      cbn [fmap list_fmap]. by rewrite trim_tight.
    - apply Forall_cons in Hgood as [(_ & Hfree & Ht) Hall].
      unfold show_groups.
      change (JS.join ", " (g :: g' :: groups))
        with (g +:+ String ","%char (String " " (show_groups (g' :: groups)))).
      rewrite split_free_cons by done.
      rewrite fmap_cons, groups_spaced by done. by rewrite trim_tight. }
  destruct groups as [|g groups]; [reflexivity|].
  rewrite Hpieces by done. clear Hpieces.
  induction Hgood as [|x l (Hne & _ & _) _ IH]; [done|].
  rewrite filter_cons_True; [by rewrite IH|].
  destruct x; [done|cbn; lia].
Qed.

(** X19: the groups shown in the configuration dialog are read back
    unchanged when the text is accepted as it is: names that are not
    empty, hold no comma and have no white space at their ends; with no
    group at all the text is empty and the dialog ends at once. *)
Theorem groups_round_trip (groups : list string)
    (Hgood : Forall (fun g => g ≠ "" ∧ Spec.free "," g ∧ Terms.tight g) groups) :
  groups_of (Some (show_groups groups))
  = match groups with [] => None | _ => Some groups end.
Proof.
  unfold groups_of. rewrite parse_show_groups by done.
  destruct groups as [|g groups]; [reflexivity|].
  destruct (show_groups (g :: groups)) eqn:Hshow; [|reflexivity].
  exfalso. revert Hshow. apply join_not_empty; [|done].
  intros s Hs. rewrite Forall_forall in Hgood. by destruct (Hgood s Hs).
Qed.

Lemma groups_round_trip_witness :
  groups_of (Some (show_groups ["noi"; "cs101"; "bailian"]))
  = Some ["noi"; "cs101"; "bailian"].
Proof.
  apply (groups_round_trip ["noi"; "cs101"; "bailian"]).
  repeat (apply Forall_cons; split; [repeat split; done|]).
  apply Forall_nil_2.
Defined.

End MoreSmall.

(** ** The encoding of the form bodies *)

Section Encoding.

Lemma nibble_inj (a b c d a' b' c' d' : bool) :
  Url.nibble a b c d = Url.nibble a' b' c' d' -> a = a' ∧ b = b' ∧ c = c' ∧ d = d'.
Proof.
  destruct a, b, c, d, a', b', c', d'; cbn; intros H;
    first [discriminate H | repeat split].
Qed.

Lemma percent_inj_app (c c' : ascii) (x y : string) :
  Url.percent c +:+ x = Url.percent c' +:+ y -> c = c' ∧ x = y.
Proof.
  destruct c as [b0 b1 b2 b3 b4 b5 b6 b7], c' as [d0 d1 d2 d3 d4 d5 d6 d7].
  unfold Url.percent. rewrite !append_cons, !append_nil.
  intros [= Hhi Hlo Hxy].
  apply nibble_inj in Hhi as (-> & -> & -> & ->).
  apply nibble_inj in Hlo as (-> & -> & -> & ->). done.
Qed.

Lemma percent_head (c : ascii) :
  exists h l : ascii, Url.percent c = String "%" (String h (String l "")).
Proof. destruct c. unfold Url.percent. eauto. Qed.

Lemma nibble_plain (a b c d : bool) :
  Url.nibble a b c d ≠ "&"%char ∧ Url.nibble a b c d ≠ "="%char.
Proof. by destruct a, b, c, d. Qed.

(** The three ways a byte is written. *)
Lemma form_byte_cases (c : ascii) :
  (c = " "%char ∧ Url.form_byte c = "+")
  ∨ (Url.form_safe c = true ∧ Url.form_byte c = String c "")
  ∨ (Url.form_safe c = false ∧ Url.form_byte c = Url.percent c).
Proof.
  unfold Url.form_byte. destruct (Ascii.eqb_spec c " "%char) as [->|_]; [by left|].
  destruct (Url.form_safe c); [right; left|right; right]; done.
Qed.

Lemma form_safe_plain (c : ascii) :
  Url.form_safe c = true ->
  c ≠ "&"%char ∧ c ≠ "="%char ∧ c ≠ "+"%char ∧ c ≠ "%"%char.
Proof. intros H. repeat split; intros ->; discriminate H. Qed.

Lemma form_byte_free (sep : ascii) (c : ascii) :
  sep = "&"%char ∨ sep = "="%char -> Spec.free sep (Url.form_byte c).
Proof.
  intros Hsep. destruct (form_byte_cases c) as [[_ ->]|[[Hs ->]|[_ ->]]].
  - destruct Hsep as [->| ->]; by split.
  - apply form_safe_plain in Hs as (? & ? & _). destruct Hsep as [->| ->]; by split.
  - destruct c as [b0 b1 b2 b3 b4 b5 b6 b7]. unfold Url.percent.
    pose proof (nibble_plain b7 b6 b5 b4) as [? ?].
    pose proof (nibble_plain b3 b2 b1 b0) as [? ?].
    destruct Hsep as [->| ->]; by repeat split.
Qed.

Lemma form_component_free (sep : ascii) (s : string) :
  sep = "&"%char ∨ sep = "="%char -> Spec.free sep (Url.form_component s).
Proof.
  intros Hsep. induction s as [|c s IH]; [done|]. cbn [Url.form_component].
  apply free_append. split; [by apply form_byte_free|done].
Qed.

Lemma form_byte_inj_app (c c' : ascii) (x y : string) :
  Url.form_byte c +:+ x = Url.form_byte c' +:+ y -> c = c' ∧ x = y.
Proof.
  destruct (form_byte_cases c) as [[Hc Ec]|[[Hs Ec]|[Hs Ec]]];
    destruct (form_byte_cases c') as [[Hc' Ec']|[[Hs' Ec']|[Hs' Ec']]];
    rewrite Ec, Ec'; intros Heq.
  - subst. injection Heq as Hxy. by split.
  - injection Heq as <- _. discriminate Hs'.
  - destruct (percent_head c') as (h & l & E). rewrite E in Heq. discriminate Heq.
  - injection Heq as -> _. discriminate Hs.
  - injection Heq as -> Hxy. split; [done|exact Hxy].
  - destruct (percent_head c') as (h & l & E). rewrite E in Heq.
    injection Heq as -> _. discriminate Hs.
  - destruct (percent_head c) as (h & l & E). rewrite E in Heq. discriminate Heq.
  - destruct (percent_head c) as (h & l & E). rewrite E in Heq.
    injection Heq as <- _. discriminate Hs'.
  - by apply percent_inj_app.
Qed.

(** A component is read back from what is written for it. *)
Lemma form_component_inj (s t : string) :
  Url.form_component s = Url.form_component t -> s = t.
Proof.
  revert t. induction s as [|c s IH]; intros [|d t]; cbn [Url.form_component].
  - done.
  - intros H. exfalso. destruct (form_byte_cases d) as [[_ E]|[[_ E]|[_ E]]];
      rewrite E in H; try discriminate H.
    destruct (percent_head d) as (h & l & E'). rewrite E' in H. discriminate H.
  - intros H. exfalso. destruct (form_byte_cases c) as [[_ E]|[[_ E]|[_ E]]];
      rewrite E in H; try discriminate H.
    destruct (percent_head c) as (h & l & E'). rewrite E' in H. discriminate H.
  - intros H. apply form_byte_inj_app in H as [-> H]. by rewrite (IH t H).
Qed.

Lemma form_pair_free (f : string * string) : Spec.free "&" (Url.form_pair f).
Proof.
  unfold Url.form_pair. apply free_append. split; [apply form_component_free; auto|].
  apply free_append. split; [by split|apply form_component_free; auto].
Qed.

Lemma form_pair_split (f : string * string) :
  JS.split "=" (Url.form_pair f) = [Url.form_component f.1; Url.form_component f.2].
Proof.
  unfold Url.form_pair. change ("=" +:+ Url.form_component f.2)
    with (String "="%char (Url.form_component f.2)).
  rewrite split_free_cons by (apply form_component_free; auto).
  by rewrite split_free by (apply form_component_free; auto).
Qed.

(** The fields are read back from the body: cut at [&], then at [=]. *)
Lemma form_fields (fields : list (string * string)) :
  fields ≠ [] ->
  JS.split "=" <$> JS.split "&" (Url.form fields)
  = (fun f => [Url.form_component f.1; Url.form_component f.2]) <$> fields.
Proof.
  intros Hne. unfold Url.form. rewrite split_join.
  - rewrite <- list_fmap_compose. apply list_fmap_ext. intros _ f _. apply form_pair_split.
  - by destruct fields.
  - apply Forall_fmap, Forall_forall. intros f _. apply form_pair_free.
Qed.

Lemma form_not_empty (f : string * string) (fields : list (string * string)) :
  Url.form (f :: fields) ≠ "".
Proof.
  unfold Url.form. apply join_not_empty; [|done].
  intros s [g [-> _]]%list_elem_of_fmap. unfold Url.form_pair.
  destruct (Url.form_component g.1); [done|by rewrite append_cons].
Qed.

Lemma form_injective (fields fields' : list (string * string)) :
  Url.form fields = Url.form fields' -> fields = fields'.
Proof.
  intros Heq. destruct fields as [|f l], fields' as [|f' l'].
  - done.
  - symmetry in Heq. by apply form_not_empty in Heq.
  - by apply form_not_empty in Heq.
  - pose proof (form_fields (f :: l)) as H1. pose proof (form_fields (f' :: l')) as H2.
    rewrite Heq in H1. rewrite H2 in H1 by done. specialize (H1 ltac:(done)).
    clear Heq H2. revert H1. generalize (f :: l) (f' :: l'). clear.
    intros a. induction a as [|[k v] a IH]; intros [|[k' v'] b]; cbn; try done.
    intros [= Hk Hv Hrest]. apply form_component_inj in Hk, Hv. subst.
    f_equal. apply IH. exact Hrest.
Qed.

End Encoding.

(** ** The requests of the client and what they leave *)

Section RequestFacts.

Import CookieJar ApiClient Requests Lifecycle.

Variable gunzip : string -> outcome string.
Variable hostname : string -> outcome string.
Variable network : list request -> request -> outcome response.
Variable JSON_parse : string -> outcome Json.value.

Local Abbreviation send := (Requests.send gunzip hostname network).
Local Abbreviation fetchHtml := (Requests.fetchHtml gunzip hostname network).
Local Abbreviation submitSolution :=
  (Requests.submitSolution gunzip hostname network JSON_parse).
Local Abbreviation switchLanguage := (Requests.switchLanguage gunzip hostname network).
Local Abbreviation attempt := (Requests.attempt gunzip hostname network JSON_parse).
Local Abbreviation loginWithPassword :=
  (Requests.loginWithPassword gunzip hostname network JSON_parse).

Lemma makeRequest_effect (host : string) (reply : outcome response) (c : client) :
  cookies_only c (makeRequest gunzip host reply c).2.
Proof.
  unfold makeRequest, cookies_only. destruct reply as [r|m]; [|by left].
  destruct (headers r !! "set-cookie") as [h|];
    [destruct (header_truthy h)|];
    destruct (read_body gunzip r); try destruct (400 <=? statusCode r)%nat;
    cbn; first [by left | right; eexists _, _; reflexivity].
Qed.

Lemma cookies_only_quiet (c c' : client) : cookies_only c c' -> quiet c c'.
Proof.
  intros [->|(hs & host & ->)]; split; try done.
  intros k Hk. cbn. by rewrite lookup_insert_ne.
Qed.

Lemma cookies_only_wf (c c' : client) :
  cookies_only c c' -> wf (cookieJar c) -> wf (cookieJar c').
Proof. intros [->|(hs & host & ->)] Hwf; [done|]. by apply wf_setCookie. Qed.

Lemma cookies_only_persisted (c c' : client) :
  cookies_only c c' -> persisted c -> persisted c'.
Proof.
  intros [->|(hs & host & ->)] Hp; [done|].
  destruct Hp as (Hwf & s & Hs & Ht & Hss & Hj). split; [by apply wf_setCookie|].
  exists s. cbn. split; [done|]. split; [done|].
  split; [by rewrite lookup_insert_ne|]. by rewrite lookup_insert.
Qed.

Lemma quiet_refl (c : client) : quiet c c.
Proof. by split. Qed.

Lemma quiet_trans (a b c : client) : quiet a b -> quiet b c -> quiet a c.
Proof.
  intros [H1 H2] [H3 H4]. split; [congruence|].
  intros k Hk. by rewrite H4, H2.
Qed.

Lemma within_refl (n : nat) (w : world) : within n w w.
Proof. exists []. split; [done|cbn; lia]. Qed.

Lemma within_trans (n m : nat) (a b c : world) :
  within n a b -> within m b c -> within (n + m) a c.
Proof.
  intros (l1 & H1 & Hn) (l2 & H2 & Hm). exists (l2 ++ l1).
  rewrite H2, H1, app_assoc. split; [done|]. rewrite length_app. lia.
Qed.

Lemma within_le (n m : nat) (a b : world) : (n <= m)%nat -> within n a b -> within m a b.
Proof. intros Hle (l & H & Hn). exists l. split; [done|lia]. Qed.

(** What one request does. *)
Lemma send_effect (url method : string) (headers : gmap string string)
    (body : option string) (w : world) :
  cookies_only (api w) (api (send url method headers body w).2)
  ∧ within 1 w (send url method headers body w).2.
Proof.
  unfold Requests.send. destruct (hostname url) as [host|m].
  - pose proof (makeRequest_effect host
      (network (sent w) (Request url method (buildHeaders (api w) host headers) body))
      (api w)) as Heff.
    destruct (makeRequest _ _ _ _) as [out c]. cbn in *. split; [done|].
    eexists [_]. split; [reflexivity|cbn; lia].
  - cbn. split; [by left|apply within_refl].
Qed.

Lemma send_sent (url method : string) (headers : gmap string string)
    (body : option string) (w : world) (host : string) :
  hostname url = Returned host ->
  sent (send url method headers body w).2
  = Request url method (buildHeaders (api w) host headers) body :: sent w.
Proof.
  intros Hhost. unfold Requests.send. rewrite Hhost.
  by destruct (makeRequest _ _ _ _).
Qed.

Lemma fetchHtml_world (url : string) (subdomain : option string) (w : world) :
  (fetchHtml url subdomain w).2 = (send (targetUrl url subdomain) "GET" ∅ None w).2.
Proof.
  unfold Requests.fetchHtml.
  by destruct (Requests.send _ _ _ _ _ _ _ _) as [[r|m] w1].
Qed.

Lemma submitSolution_world (subdomain : string) (data : SubmitRequest) (w : world) :
  (submitSolution subdomain data w).2
  = (send (submitUrl subdomain) "POST" (submitHeaders subdomain data)
       (Some (submitBody data)) w).2.
Proof.
  unfold Requests.submitSolution. cbv zeta.
  destruct (Requests.send _ _ _ _ _ _ _ _) as [[r|m] w1]; [|done].
  by destruct (JSON_parse _).
Qed.

(** X20: the body of a submission holds all of it: two submissions
    sent to the same group with the same body are the same submission,
    whatever their fields hold. *)
Theorem submitSolution_body (subdomain host : string) (data1 data2 : SubmitRequest)
    (w1 w2 : world) :
  hostname (submitUrl subdomain) = Returned host ->
  request_body <$> head (sent (submitSolution subdomain data1 w1).2)
    = request_body <$> head (sent (submitSolution subdomain data2 w2).2) ->
  data1 = data2.
Proof.
  intros Hhost.
  rewrite !submitSolution_world, !(send_sent _ _ _ _ _ host Hhost).
  cbn [head fmap option_fmap option_map request_body].
  intros Hsame.
  assert (Heq : submitBody data1 = submitBody data2) by congruence.
  apply form_injective in Heq.
  destruct data1, data2. cbn in Heq. by injection Heq as -> -> -> -> ->.
Qed.

(** X21: fetching a page and submitting a solution make one request at
    most and change nothing of the client but its cookies: the session
    stays, and so does all that is kept but for the jar; the jar remains
    a map. *)
Theorem requests_quiet (w : world) :
  (forall (url : string) (subdomain : option string),
     let w' := (fetchHtml url subdomain w).2 in
     quiet (api w) (api w') ∧ within 1 w w'
     ∧ (wf (cookieJar (api w)) -> wf (cookieJar (api w'))))
  ∧ (forall (subdomain : string) (data : SubmitRequest),
       let w' := (submitSolution subdomain data w).2 in
       quiet (api w) (api w') ∧ within 1 w w'
       ∧ (wf (cookieJar (api w)) -> wf (cookieJar (api w')))).
Proof.
  split.
  - intros url subdomain w'. unfold w'.
    rewrite fetchHtml_world.
    destruct (send_effect (targetUrl url subdomain) "GET" ∅ None w) as [Hc Hw].
    split; [by apply cookies_only_quiet|]. split; [done|]. by apply cookies_only_wf.
  - intros subdomain data w'. unfold w'.
    rewrite submitSolution_world.
    destruct (send_effect (submitUrl subdomain) "POST" (submitHeaders subdomain data)
                (Some (submitBody data)) w) as [Hc Hw].
    split; [by apply cookies_only_quiet|]. split; [done|]. by apply cookies_only_wf.
Qed.

(** X22: a client that is logged in and holds what is kept for it is
    found again by a restart: the constructor builds it from what is
    kept, and [initialize] leaves it as it is. *)
Theorem restart_restores (c : client) (Hkept : persisted c) :
  create (globalState c) = Returned c ∧ initialize c = (Returned (), c).
Proof.
  destruct c as [ses j gs]. destruct Hkept as (Hwf & s & Hs & Ht & Hss & Hj).
  cbn in Hwf, Hs, Ht, Hss, Hj. subst ses.
  unfold create, initialize, loadSessionSync.
  cbn [globalState cookieJar session]. rewrite Hss, Ht, Hj.
  cbn [session globalState cookieJar]. rewrite Hj.
  assert (Himp : forall j0 : jar, import j0 j = j)
    by (intros j0; apply (import_export j0 j Hwf)).
  by rewrite !Himp.
Qed.

Lemma switchLanguage_logged (language : string) (subdomain : option string) (w : world) :
  let w1 := (send (switchUrl subdomain) "POST" ajaxHeaders
               (Some (Url.form [("language", language)])) w) in
  switchLanguage language subdomain w
  = match w1.1, session (api w1.2) with
    | Returned _, Some s =>
        let j := set (cookieJar (api w1.2)) "language" language (Some "openjudge.cn") None in
        World (Client (Some (Session (PHPSESSID s) language)) j
                 (<["openjudge.cookieJar" := StoredJar (export j)]>
                    (<["openjudge.session" := StoredSession (Session (PHPSESSID s) language)]>
                       (globalState (api w1.2)))))
              (sent w1.2)
    | _, _ => w1.2
    end.
Proof.
  cbv zeta. unfold Requests.switchLanguage.
  destruct (Requests.send _ _ _ _ _ _ _ _) as [[r|m] w1]; cbn [fst snd]; [|done].
  by destruct (session (api w1)).
Qed.

(** X23: a client that is logged in and holds what is kept for it
    stays so through the requests: fetching a page, submitting a
    solution and switching the language keep the stored session and the
    stored jar equal to those of the client. *)
Theorem persisted_kept (w : world) (Hkept : persisted (api w)) :
  (forall (url : string) (subdomain : option string),
     persisted (api (fetchHtml url subdomain w).2))
  ∧ (forall (subdomain : string) (data : SubmitRequest),
       persisted (api (submitSolution subdomain data w).2))
  ∧ (forall (language : string) (subdomain : option string),
       persisted (api (switchLanguage language subdomain w))).
Proof.
  split; [|split].
  - intros url subdomain. rewrite fetchHtml_world.
    eapply cookies_only_persisted; [apply send_effect|done].
  - intros subdomain data. rewrite submitSolution_world.
    eapply cookies_only_persisted; [apply send_effect|done].
  - intros language subdomain. rewrite switchLanguage_logged. cbv zeta.
    pose proof (send_effect (switchUrl subdomain) "POST" ajaxHeaders
                  (Some (Url.form [("language", language)])) w) as [Hc _].
    apply cookies_only_persisted in Hc; [|done].
    destruct (Requests.send _ _ _ _ _ _ _ _) as [[r|m] w1]; cbn [fst snd] in *; [|done].
    destruct Hc as (Hwf & s & Hs & Ht & Hss & Hj). rewrite Hs.
    split; [by apply wf_set|]. eexists. cbn [api session globalState cookieJar PHPSESSID].
    split; [done|]. split; [done|].
    split; [by rewrite lookup_insert_ne, lookup_insert|by rewrite lookup_insert].
Qed.

Lemma switchLanguage_within (language : string) (subdomain : option string) (w : world) :
  within 1 w (switchLanguage language subdomain w).
Proof.
  rewrite switchLanguage_logged. cbv zeta.
  pose proof (send_effect (switchUrl subdomain) "POST" ajaxHeaders
                (Some (Url.form [("language", language)])) w) as [_ Hw].
  destruct (Requests.send _ _ _ _ _ _ _ _) as [[r|m] w1]; cbn [fst snd] in *; [|done].
  by destruct (session (api w1)).
Qed.

(** X24: switching the language makes one request at most and never
    changes who is logged in; when the request succeeds and there is a
    session, the session, the stored session and the language cookie all
    take the new language; when it fails, nothing changes but the
    cookies the answer brought. *)
Theorem switchLanguage_session (language : string) (subdomain : option string) (w : world) :
  let w' := switchLanguage language subdomain w in
  let answer := (send (switchUrl subdomain) "POST" ajaxHeaders
                   (Some (Url.form [("language", language)])) w).1 in
  within 1 w w'
  ∧ PHPSESSID <$> session (api w') = PHPSESSID <$> session (api w)
  ∧ globalState (api w') !! "openjudge.credentials"
    = globalState (api w) !! "openjudge.credentials"
  ∧ (forall (r : result) (s : CookieSession),
       answer = Returned r -> session (api w) = Some s ->
       session (api w') = Some (Session (PHPSESSID s) language)
       ∧ globalState (api w') !! "openjudge.session"
         = Some (StoredSession (Session (PHPSESSID s) language))
       ∧ get (cookieJar (api w')) "language" = Some language)
  ∧ (forall m : string, answer = Thrown m -> quiet (api w) (api w'))
  ∧ (session (api w) = None -> quiet (api w) (api w')).
Proof.
  cbv zeta. rewrite switchLanguage_logged. cbv zeta.
  pose proof (send_effect (switchUrl subdomain) "POST" ajaxHeaders
                (Some (Url.form [("language", language)])) w) as [Hc Hw].
  apply cookies_only_quiet in Hc. destruct Hc as [Hses Hgs].
  destruct (Requests.send _ _ _ _ _ _ _ _) as [[r|m] w1]; cbn [fst snd] in *.
  - rewrite Hses. destruct (session (api w)) as [s|] eqn:Hs.
    + cbn [api session globalState cookieJar sent fmap option_fmap option_map PHPSESSID].
      split; [done|]. split; [done|].
      split; [by rewrite !lookup_insert_ne, Hgs by done|].
      split; [|split; [done|done]].
      intros r' s' _ [= <-]. split; [done|].
      split; [by rewrite lookup_insert_ne, lookup_insert|].
      unfold get, set. by rewrite map_get_set_eq.
    + split; [done|]. split; [by rewrite Hses|]. split; [by apply Hgs|].
      split; [done|]. split; [done|]. intros _. split; [by rewrite Hses|done].
  - split; [done|]. split; [by rewrite Hses|]. split; [by apply Hgs|].
    split; [done|]. split; [by intros _ _; split|by intros _; split].
Qed.

Lemma loginWithCookie_persisted (dlg : dialog) (c : client) :
  auth_result (loginWithCookie gunzip dlg c).1 = SUCCESS ->
  persisted (loginWithCookie gunzip dlg c).2.
Proof.
  unfold loginWithCookie. destruct (negb (bool_decide _)); [discriminate|].
  destruct (cookieString dlg) as [[|a t]|]; try discriminate.
  destruct (parse_cookies _) as [sid lang].
  destruct (JS.truthy sid) eqn:Ht; cbn [negb]; [|discriminate]. intros _.
  match goal with
  | |- context [makeRequest gunzip ?h ?r ?x] =>
      pose proof (makeRequest_effect h r x) as Heff;
      assert (Hp : persisted x);
      [|apply cookies_only_persisted in Heff; [|exact Hp];
        destruct (makeRequest gunzip h r x) as [[res|m] c'];
        [destruct (result_statusCode res =? 200)%nat|]; exact Heff]
  end.
  split; [unfold update; cbn [cookieJar]; apply wf_set, wf_set, NoDup_nil_2|].
  eexists. cbn. split; [reflexivity|]. split; [exact Ht|].
  split; [by rewrite lookup_insert_ne, lookup_insert|by rewrite lookup_insert].
Qed.

Lemma credentials_for_inl (email password : option string) (ask : prompted) (c : client)
    (answer : LoginResponse) :
  credentials_for email password ask c = Some (inl answer) -> answer = cancelled.
Proof.
  unfold credentials_for.
  destruct email as [e|], password as [p|];
    try destruct (JS.truthy e && JS.truthy p); try discriminate;
    destruct (globalState c !! "openjudge.credentials") as [[]|];
    try discriminate;
    destruct (inputEmail ask) as [ie|]; try destruct (negb (JS.truthy ie));
    try destruct (inputPassword ask) as [ip|]; try destruct (negb (JS.truthy ip));
    by intros [= <-].
Qed.

(** With credentials kept and an argument missing, the credentials kept
    are those used, and nothing is asked. *)
Lemma credentials_for_kept (email password : option string) (ask : prompted) (c : client)
    (e p : string) :
  globalState c !! "openjudge.credentials" = Some (StoredCredentials e p) ->
  (forall e0 p0 : string,
     email = Some e0 -> password = Some p0 -> JS.truthy e0 && JS.truthy p0 = false) ->
  credentials_for email password ask c = Some (inr (e, p)).
Proof.
  intros Hkept Hmissing. unfold credentials_for. rewrite Hkept.
  destruct email as [e0|], password as [p0|]; try done.
  by rewrite (Hmissing e0 p0).
Qed.

(** The ways the [try] block of [loginWithPassword] ends: after two
    requests at most, which change nothing but the cookies, with an
    error, or with the session cookie of the jar made the session. *)
Lemma attempt_spec (email password : string) (w : world) :
  exists w2 : world,
    quiet (api w) (api w2)
    ∧ (wf (cookieJar (api w)) -> wf (cookieJar (api w2)))
    ∧ within 2 w w2
    ∧ ((login_result (attempt email password w).1 = ERROR
        ∧ (attempt email password w).2 = w2)
       ∨ (exists (sid : string) (hint : Json.value),
            get (cookieJar (api w2)) "PHPSESSID" = Some sid
            ∧ JS.truthy sid = true
            ∧ attempt email password w
              = (Login SUCCESS (Json.Str "登录成功") (Some hint),
                 let s := Session sid
                            (HtmlParser.or_str (get (cookieJar (api w2)) "language") "zh_CN") in
                 World
                   (Client (Some s) (cookieJar (api w2))
                      (<["openjudge.credentials" := StoredCredentials email password]>
                         (<["openjudge.cookieJar" := StoredJar (export (cookieJar (api w2)))]>
                            (<["openjudge.session" := StoredSession s]>
                               (globalState (api w2))))))
                   (sent w2)))).
Proof.
  unfold Requests.attempt.
  pose proof (send_effect "http://openjudge.cn/" "GET" ∅ None w) as [Hc1 Hw1].
  destruct (Requests.send _ _ _ "http://openjudge.cn/" _ _ _ _) as [[r1|m1] w1];
    cbn [fst snd] in Hc1, Hw1.
  2:{ exists w1. split; [by apply cookies_only_quiet|].
      split; [by apply cookies_only_wf|]. split; [apply (within_le 1); [lia|done]|by left]. }
  pose proof (send_effect "http://openjudge.cn/api/auth/login/" "POST" loginHeaders
                (Some (loginBody email password)) w1) as [Hc2 Hw2].
  destruct (Requests.send _ _ _ "http://openjudge.cn/api/auth/login/" _ _ _ _)
    as [[r2|m2] w2]; cbn [fst snd] in Hc2, Hw2.
  all: exists w2.
  all: split; [eapply quiet_trans; by apply cookies_only_quiet|].
  all: split; [intros Hwf; by eapply cookies_only_wf, cookies_only_wf|].
  all: split; [by apply (within_trans 1 1 w w1 w2)|].
  2: by left.
  destruct (JSON_parse (body r2)) as [v|m]; [|by left].
  destruct (negb (Json.is_string (Json.member v "result") "SUCCESS")) eqn:Hres.
  { left. by destruct v. }
  destruct (get (cookieJar (api w2)) "PHPSESSID") as [sid|] eqn:Hsid.
  2:{ left. by destruct v. }
  destruct (JS.truthy sid) eqn:Ht.
  2:{ left. by destruct v. }
  right. exists sid. eexists. split; [done|]. split; [done|].
  destruct v; try discriminate Hres; reflexivity.
Qed.

(** X25: a login that succeeds leaves a client that holds what is kept
    for it, so that a restart finds it again: by cookie always, by
    password when the jar was a map before. *)
Theorem login_persisted :
  (forall (dlg : dialog) (c : client),
     auth_result (loginWithCookie gunzip dlg c).1 = SUCCESS ->
     persisted (loginWithCookie gunzip dlg c).2)
  ∧ (forall (email password : option string) (ask : prompted) (w w' : world)
            (r : LoginResponse),
       wf (cookieJar (api w)) ->
       loginWithPassword email password ask w = Some (r, w') ->
       login_result r = SUCCESS ->
       persisted (api w')).
Proof.
  split; [apply loginWithCookie_persisted|].
  intros email password ask w w' r Hwf Hlogin Hok.
  unfold Requests.loginWithPassword in Hlogin.
  destruct (credentials_for email password ask (api w)) as [[answer|[e p]]|] eqn:Hcred;
    [|injection Hlogin as Hlogin|discriminate Hlogin].
  { injection Hlogin as <- <-. apply credentials_for_inl in Hcred. by subst answer. }
  destruct (attempt_spec e p w) as (w2 & Hq & Hwf2 & _ & [[Herr _]|Hsucc]).
  - rewrite Hlogin in Herr. cbn in Herr. rewrite Hok in Herr. discriminate Herr.
  - destruct Hsucc as (sid & hint & Hsid & Ht & Heq). rewrite Hlogin in Heq.
    injection Heq as _ ->. split; [by apply Hwf2|].
    eexists. cbn. split; [reflexivity|]. split; [exact Ht|].
    split; [by rewrite !lookup_insert_ne, lookup_insert by done|].
    by rewrite lookup_insert_ne, lookup_insert by done.
Qed.

(** X26: a login by password makes two requests at most; when it
    fails, the session and all that is kept but for the cookie jar are
    as before; when it succeeds, the session is made of the session
    cookie of the jar, which is not empty, and of its language cookie,
    and the credentials that were used are kept; when the input is
    given up, nothing is sent. *)
Theorem loginWithPassword_outcome (email password : option string) (ask : prompted)
    (w w' : world) (r : LoginResponse) :
  loginWithPassword email password ask w = Some (r, w') ->
  within 2 w w'
  ∧ (login_result r = ERROR -> quiet (api w) (api w'))
  ∧ (login_result r = SUCCESS ->
       exists sid e p : string,
         credentials_for email password ask (api w) = Some (inr (e, p))
         ∧ get (cookieJar (api w')) "PHPSESSID" = Some sid ∧ sid ≠ ""
         ∧ session (api w')
           = Some (Session sid
                     (HtmlParser.or_str (get (cookieJar (api w')) "language") "zh_CN"))
         ∧ globalState (api w') !! "openjudge.session" = StoredSession <$> session (api w')
         ∧ globalState (api w') !! "openjudge.credentials" = Some (StoredCredentials e p))
  ∧ (credentials_for email password ask (api w) = Some (inl cancelled) ->
       r = cancelled ∧ w' = w).
Proof.
  intros Hlogin. unfold Requests.loginWithPassword in Hlogin.
  destruct (credentials_for email password ask (api w)) as [[answer|[e p]]|] eqn:Hcred;
    [|injection Hlogin as Hlogin|discriminate Hlogin].
  { injection Hlogin as <- <-. apply credentials_for_inl in Hcred. subst answer.
    split; [apply within_refl|]. split; [intros _; apply quiet_refl|].
    split; [discriminate|done]. }
  destruct (attempt_spec e p w) as (w2 & Hq & _ & Hw & [[Herr Hsame]|Hsucc]).
  - rewrite Hlogin in Herr, Hsame. cbn in Herr, Hsame. subst w2.
    split; [done|]. split; [done|]. split; [|discriminate].
    intros Hok. rewrite Hok in Herr. discriminate Herr.
  - destruct Hsucc as (sid & hint & Hsid & Ht & Heq). rewrite Hlogin in Heq.
    injection Heq as -> ->.
    split; [destruct Hw as (made & ? & ?); by exists made|].
    split; [discriminate|]. split; [|discriminate]. intros _.
    exists sid, e, p. cbn [api session cookieJar globalState].
    split; [done|]. split; [done|]. split; [by apply truthy_not_empty|].
    split; [done|].
    split; [by rewrite !lookup_insert_ne, lookup_insert by done|].
    by rewrite lookup_insert.
Qed.


End RequestFacts.

Section ActivationFacts.

Import CookieJar ApiClient Requests Lifecycle.

Variable gunzip : string -> outcome string.
Variable hostname : string -> outcome string.
Variable network : list request -> request -> outcome response.
Variable JSON_parse : string -> outcome Json.value.
Variable interfaceLanguage : string.

Local Abbreviation start :=
  (Activation.start gunzip hostname network JSON_parse interfaceLanguage).

Lemma loadSessionSync_none (c : client) :
  globalState c !! "openjudge.session" = None -> loadSessionSync c = (Returned (), c).
Proof. intros H. unfold loadSessionSync. by rewrite H. Qed.

Lemma clearSession_cleared (c : client) :
  session (clearSession c).2 = None
  ∧ cookieJar (clearSession c).2 = []
  ∧ globalState (clearSession c).2 !! "openjudge.session" = None
  ∧ globalState (clearSession c).2 !! "openjudge.credentials" = None.
Proof.
  unfold clearSession, update, clear. cbn.
  split; [done|]. split; [done|].
  split; by rewrite !lookup_delete; repeat case_decide.
Qed.

(** X28: after a logout the extension starts without a request: no
    session is found, no login is tried, and the welcome message is
    shown; with credentials kept and no session, it logs in with them
    and asks nothing, whatever the input boxes would give. *)
Theorem start_login (ask : prompted) :
  (forall (c : client) (before : list request),
     let c' := (clearSession c).2 in
     create (globalState c') = Returned c'
     ∧ start ask (World c' before) = Some (World c' before, true))
  ∧ (forall (w : world) (e p : string) (ask' : prompted),
       session (api w) = None ->
       globalState (api w) !! "openjudge.session" = None ->
       globalState (api w) !! "openjudge.credentials" = Some (StoredCredentials e p) ->
       start ask w = start ask' w
       ∧ exists w' : world,
           start ask w = Some (w', negb (isLoggedIn (api w'))) ∧ within 3 w w').
Proof.
  split.
  - intros c before. cbv zeta.
    destruct (clearSession_cleared c) as (Hs & Hj & Hss & Hc).
    destruct (clearSession c).2 as [ses j gs] eqn:Hc'. cbn in Hs, Hj, Hss, Hc. subst ses j.
    unfold create, Activation.start, initialize. cbn [api sent].
    rewrite !loadSessionSync_none by done. cbn [session isLoggedIn negb globalState].
    by rewrite Hc.
  - intros w e p ask' Hs Hss Hc. unfold Activation.start, initialize.
    assert (Hout : isLoggedIn (api w) = false) by (unfold isLoggedIn; by rewrite Hs).
    rewrite loadSessionSync_none by done. rewrite Hs, Hout. cbn [negb].
    rewrite Hc. unfold Requests.loginWithPassword. cbn [api].
    rewrite !(credentials_for_kept None None _ (api w) e p Hc) by done.
    split; [done|].
    destruct w as [c sn]. cbn [api sent] in *.
    assert (Hw' : within 2 (World c sn)
                    (Requests.attempt gunzip hostname network JSON_parse e p (World c sn)).2).
    { destruct (attempt_spec gunzip hostname network JSON_parse e p (World c sn))
        as (w3 & _ & _ & Hw3 & [[_ <-]|(sid & hint & _ & _ & ->)]); [done|].
      destruct Hw3 as (made & ? & ?). by exists made. }
    destruct (Requests.attempt _ _ _ _ e p (World c sn)) as [r w1]. cbn [snd] in Hw'.
    destruct (login_result r).
    + eexists. split; [reflexivity|].
      pose proof (switchLanguage_within gunzip hostname network interfaceLanguage None w1)
        as Hsw.
      by apply (within_trans 2 1 (World c sn) w1).
    + eexists. split; [reflexivity|]. by apply (within_le 2); [lia|].
Qed.

End ActivationFacts.

Section RequestExamples.

Import ApiClient Requests Lifecycle.

Lemma submitSolution_body_witness :
  Site.host_of (submitUrl "noi") = Returned "noi.openjudge.cn"
  ∧ Site.solution = Site.solution.
Proof.
  split; [reflexivity|].
  apply (submitSolution_body Fixture.plain Site.host_of Site.online Site.parse "noi"
           "noi.openjudge.cn" Site.solution Site.solution Site.member Site.nobody).
  - reflexivity.
  - vm_compute. reflexivity.
Defined.

Lemma member_persisted : persisted Site.member_client.
Proof.
  split; [apply wf_set, wf_set, NoDup_nil_2|].
  eexists. split; [reflexivity|]. split; [reflexivity|]. split; reflexivity.
Qed.

Lemma restart_restores_witness :
  create (globalState Site.member_client) = Returned Site.member_client
  ∧ initialize Site.member_client = (Returned (), Site.member_client).
Proof. apply (restart_restores Site.member_client member_persisted). Defined.

Lemma persisted_kept_witness :
  persisted (api (Requests.fetchHtml Fixture.plain Site.host_of Site.online
                    "http://noi.openjudge.cn/" None Site.member).2).
Proof.
  apply (proj1 (persisted_kept Fixture.plain Site.host_of Site.online Site.parse
                  Site.member member_persisted)).
Defined.

Lemma loginWithPassword_outcome_witness :
  let out :=
    Requests.attempt Fixture.plain Site.host_of Site.online Site.parse
      "a@b.cn" "pw" Site.nobody in
  login_result out.1 = SUCCESS
  ∧ session (api out.2) = Some (Session "s3cr3t" "zh_CN")
  ∧ within 2 Site.nobody out.2.
Proof.
  intros out. split; [vm_compute; reflexivity|]. split; [vm_compute; reflexivity|].
  apply (loginWithPassword_outcome Fixture.plain Site.host_of Site.online Site.parse
           (Some "a@b.cn") (Some "pw") (Prompted None None) Site.nobody out.2 out.1).
  vm_compute. reflexivity.
Defined.


End RequestExamples.

(** ** The caches of the explorer *)

Section ExplorerFacts.

Import ApiClient Requests Lifecycle Explorer.

Variable gunzip : string -> outcome string.
Variable hostname : string -> outcome string.
Variable network : list request -> request -> outcome response.
Variable load : string -> Dom.document.

Variable groups : option (list string).

Local Abbreviation getProblems := (Explorer.getProblems gunzip hostname network load).
Local Abbreviation getChildren :=
  (Explorer.getChildren gunzip hostname network load groups).
Local Abbreviation findProblem := (Explorer.findProblem gunzip hostname network load).

Lemma fetchHtml_within (url : string) (subdomain : option string) (w : world) :
  within 1 w (Requests.fetchHtml gunzip hostname network url subdomain w).2.
Proof. rewrite fetchHtml_world. apply send_effect. Qed.

Lemma fetchHtml_thrown (url : string) (subdomain : option string) (w : world) (m : string) :
  (Requests.fetchHtml gunzip hostname network url subdomain w).1 = Thrown m ->
  exists cause : string, m = "Failed to fetch HTML: " +:+ cause.
Proof.
  unfold Requests.fetchHtml.
  destruct (Requests.send _ _ _ _ _ _ _ _) as [[r|cause] w1]; [discriminate|].
  intros [= <-]. by exists cause.
Qed.

(** What one call of [getProblems] does. *)
Lemma getProblems_cases (practice : Practice.t) (st : state) :
  let key := cacheKey (Practice.groupSubdomain practice) (Practice.id practice) in
  let out := getProblems practice st in
  within 1 (net st) (net out.2)
  ∧ practiceCache (caches out.2) = practiceCache (caches st)
  ∧ (forall k : string,
       k ≠ key -> problemCache (caches out.2) !! k = problemCache (caches st) !! k)
  ∧ ((problemCache (caches st) !! key = Some out.1 ∧ out.2 = st)
     ∨ (problemCache (caches st) !! key = None
        ∧ problemCache (caches out.2) !! key = Some out.1
        ∧ errors out.2 = errors st
        ∧ exists html : string,
            (Requests.fetchHtml gunzip hostname network (Practice.url practice) None
               (net st)).1 = Returned html
            ∧ out.1 = HtmlParser.parseProblemList (load html) (Practice.id practice)
                        (Practice.groupSubdomain practice))
     ∨ (problemCache (caches st) !! key = None
        ∧ problemCache (caches out.2) !! key = None
        ∧ out.1 = []
        ∧ caches out.2 = caches st
        ∧ exists cause : string,
            errors out.2
            = ("Failed to load problems: Failed to fetch HTML: " +:+ cause) :: errors st)).
Proof.
  cbv zeta. unfold Explorer.getProblems. cbv zeta.
  destruct (problemCache (caches st) !! _) as [cached|] eqn:Hkey.
  { cbn [fst snd]. split; [apply within_refl|]. split; [done|]. split; [done|]. by left. }
  pose proof (fetchHtml_within (Practice.url practice) None (net st)) as Hw.
  pose proof (fetchHtml_thrown (Practice.url practice) None (net st)) as Hm.
  destruct (Requests.fetchHtml _ _ _ _ _ _) as [[html|m] w1]; cbn [fst snd] in *;
    cbn [caches problemCache practiceCache errors net].
  - split; [done|]. split; [done|].
    split; [intros k Hk; by rewrite lookup_insert_ne|].
    right; left. split; [done|]. split; [by rewrite lookup_insert_eq|].
    split; [done|]. by exists html.
  - split; [done|]. split; [done|]. split; [done|].
    right; right. destruct (Hm m eq_refl) as (cause & ->).
    split; [done|]. split; [done|]. split; [done|]. split; [done|]. by exists cause.
Qed.

(** X29: the problems of a practice are fetched once: once they are
    in the cache, a further call gives the same list and makes no
    request, until the tree is refreshed; a fetch that fails shows its
    error, gives no problem and leaves the caches as they were, so that
    the next call tries again; the other entries of the caches are not
    touched; the tree shows these problems under the practice, and shows
    nothing and asks for nothing while nobody is logged in. *)
Theorem getProblems_cached (practice : Practice.t) (st : state) :
  let key := cacheKey (Practice.groupSubdomain practice) (Practice.id practice) in
  let first := getProblems practice st in
  let second := getProblems practice first.2 in
  within 1 (net st) (net first.2)
  ∧ (is_Some (problemCache (caches first.2) !! key) ->
       second = (first.1, first.2))
  ∧ (problemCache (caches first.2) !! key = None ->
       first.1 = [] ∧ caches first.2 = caches st
       ∧ exists cause : string,
           errors first.2
           = ("Failed to load problems: Failed to fetch HTML: " +:+ cause) :: errors st)
  ∧ practiceCache (caches first.2) = practiceCache (caches st)
  ∧ (forall k : string,
       k ≠ key -> problemCache (caches first.2) !! k = problemCache (caches st) !! k)
  ∧ problemCache (caches (refresh first.2)) !! key = None
  ∧ (isLoggedIn (api (net st)) = true ->
       getChildren (Some (PracticeItem practice)) st = (ProblemItem <$> first.1, first.2))
  ∧ (isLoggedIn (api (net st)) = false ->
       forall element : option item, getChildren element st = ([], st)).
Proof.
  cbv zeta.
  destruct (getProblems_cases practice st) as (Hw & Hpc & Hother & Hcases).
  cbv zeta in Hcases. split; [done|].
  split; [|split; [|split; [done|split; [done|split; [done|split]]]]].
  3:{ intros Hin. unfold Explorer.getChildren. rewrite Hin. cbn [negb].
      by destruct (Explorer.getProblems _ _ _ _ _ _). }
  3:{ intros Hout element. unfold Explorer.getChildren. by rewrite Hout. }
  - intros Hsome.
    assert (Hhit : problemCache (caches (getProblems practice st).2)
                     !! cacheKey (Practice.groupSubdomain practice) (Practice.id practice)
                   = Some (getProblems practice st).1).
    { destruct Hcases as [[Hc ->]|[(_ & Hc & _)|(_ & Hc & _)]]; [done|done|].
      rewrite Hc in Hsome. by destruct Hsome. }
    unfold Explorer.getProblems at 1. cbv zeta. by rewrite Hhit.
  - intros Hnone. destruct Hcases as [[Hc Hst]|[(_ & Hc & _)|(_ & _ & ? & ? & ?)]].
    + rewrite Hst, Hc in Hnone. discriminate Hnone.
    + rewrite Hc in Hnone. discriminate Hnone.
    + done.
Qed.

(** X30: a problem that [findProblem] finds has the id that was asked
    for and is the first one of that id in the cached list of the
    practice; the search makes one request at most, and none when the
    practice is in the cache. *)
Theorem findProblem_found (problemId practiceId subdomain : string) (st : state) :
  let key := cacheKey subdomain practiceId in
  let out := findProblem problemId practiceId subdomain st in
  within 1 (net st) (net out.2)
  ∧ (is_Some (problemCache (caches st) !! key) -> out.2 = st)
  ∧ (forall p : Problem.t,
       out.1 = Some p ->
       Problem.id p = problemId
       ∧ exists before after : list Problem.t,
           problemCache (caches out.2) !! key = Some (before ++ p :: after)
           ∧ forall q : Problem.t, q ∈ before -> Problem.id q ≠ problemId)
  ∧ (out.1 = None ->
       forall cached : list Problem.t,
         problemCache (caches out.2) !! key = Some cached ->
         forall q : Problem.t, q ∈ cached -> Problem.id q ≠ problemId).
Proof.
  cbv zeta.
  assert (Hfind : forall (l : list Problem.t) (p : Problem.t),
            List.find (fun p => String.eqb (Problem.id p) problemId) l = Some p ->
            Problem.id p = problemId
            ∧ exists before after : list Problem.t,
                l = before ++ p :: after
                ∧ forall q : Problem.t, q ∈ before -> Problem.id q ≠ problemId).
  { induction l as [|x l IH]; intros p; cbn [List.find]; [discriminate|].
    destruct (String.eqb_spec (Problem.id x) problemId) as [Hx|Hx].
    - intros [= <-]. split; [done|]. exists [], l. split; [done|].
      intros q Hq. by apply elem_of_nil in Hq.
    - intros Hp. destruct (IH p Hp) as (Hid & before & after & -> & Hb).
      split; [done|]. exists (x :: before), after. split; [done|].
      intros q [->|Hq]%elem_of_cons; [done|by apply Hb]. }
  assert (Hnone : forall l : list Problem.t,
            List.find (fun p => String.eqb (Problem.id p) problemId) l = None ->
            forall q : Problem.t, q ∈ l -> Problem.id q ≠ problemId).
  { induction l as [|x l IH]; cbn [List.find]; intros Hl q Hq.
    - by apply elem_of_nil in Hq.
    - destruct (String.eqb_spec (Problem.id x) problemId) as [Hx|Hx]; [discriminate|].
      apply elem_of_cons in Hq as [->|Hq]; [done|by apply IH]. }
  unfold Explorer.findProblem. cbv zeta.
  destruct (problemCache (caches st) !! cacheKey subdomain practiceId) as [cached|] eqn:Hkey.
  { cbn [fst snd]. rewrite Hkey. split; [apply within_refl|]. split; [done|].
    split.
    - intros p Hp. destruct (Hfind cached p Hp) as (? & before & after & -> & ?).
      split; [done|]. by exists before, after.
    - intros Hp l [= <-]. by apply Hnone. }
  match goal with
  | |- context [Explorer.getProblems _ _ _ _ ?pr st] =>
      pose proof (getProblems_cases pr st) as (Hw & _ & _ & _)
  end.
  cbv zeta in Hw.
  destruct (Explorer.getProblems _ _ _ _ _ st) as [l st1]. cbn [fst snd] in Hw.
  destruct (problemCache (caches st1) !! cacheKey subdomain practiceId)
    as [cached|] eqn:Hkey1; cbn [fst snd]; rewrite ?Hkey1.
  - split; [done|]. split; [by intros [? ?]|]. split.
    + intros p Hp. destruct (Hfind cached p Hp) as (? & before & after & -> & ?).
      split; [done|]. by exists before, after.
    + intros Hp l' [= <-]. by apply Hnone.
  - split; [done|]. split; [by intros [? ?]|]. split; [discriminate|]. by intros _ l' [=].
Qed.

End ExplorerFacts.
